(** * btidor/syntax: the [ADD --apt] package extension and the instruction parser

    A shallow embedding of
    - [dockerfile/dockerfile2llb/convert_package.go] (the three-phase
      [ADD --apt] pipeline: [Dispatch], [Run], [ParseURIs], [DownloadFiles]);
    - [dockerfile/instructions/parse.go] ([parseAdd], [parseBuildStageName],
      [parseOptInterval], [parseHealthcheck], [parseExpose]);
    together with the parts of the Go standard library the two files call
    ([strings], [strconv], [unicode/utf8], [regexp], [slices]).

    Go strings are byte sequences: a string is a [list ascii], one [ascii]
    per byte. *)

From Stdlib Require Import List Ascii String NArith ZArith Lia Bool Arith.
From Stdlib Require Import Permutation Sorted.
Import ListNotations.

Set Implicit Arguments.

Definition str := list ascii.

(** [go "text"] is the Go string literal ["text"]. *)
Definition go (s : string) : str := list_ascii_of_string s.

Definition code (c : ascii) : N := N_of_ascii c.

Definition byte_eqb (a b : ascii) : bool := Ascii.eqb a b.

Fixpoint str_eqb (a b : str) : bool :=
  match a, b with
  | [], [] => true
  | x :: a', y :: b' => byte_eqb x y && str_eqb a' b'
  | _, _ => false
  end.

(** Go's [<] on strings: byte-wise lexicographic order. *)
Fixpoint str_ltb (a b : str) : bool :=
  match a, b with
  | _, [] => false
  | [], _ :: _ => true
  | x :: a', y :: b' =>
      if N.ltb (code x) (code y) then true
      else if N.ltb (code y) (code x) then false
      else str_ltb a' b'
  end.

Definition str_leb (a b : str) : bool := negb (str_ltb b a).

Definition str_le (a b : str) : Prop := str_leb a b = true.

(** Results of fallible Go functions: [(T, error)] with a nil or non-nil
    error. *)
Inductive result (E T : Type) : Type :=
| Ok (v : T)
| Err (e : E).
Arguments Ok {E T} v.
Arguments Err {E T} e.

(** ** Package [unicode/utf8] and [unicode] *)
Module utf8.
Local Open Scope N_scope.

Definition RuneError : N := 65533.
Definition RuneSelf : N := 128.
Definition UTFMax : nat := 4%nat.

(** [RuneStart b]: [b&0xC0 != 0x80]. *)
Definition RuneStart (b : ascii) : bool :=
  negb (N.eqb (N.land (code b) 192) 128).

Definition between (lo hi : N) (b : ascii) : bool :=
  N.leb lo (code b) && N.leb (code b) hi.

(** The [first] table with [acceptRanges]: for a leading byte, the size of
    the encoding and the range accepted for the second byte; [None] for
    the bytes that start no multi-byte encoding. *)
Definition first (b : ascii) : option (nat * (N * N)) :=
  let c := code b in
  if N.ltb c 194 then None
  else if N.leb c 223 then Some (2%nat, (128, 191))
  else if N.eqb c 224 then Some (3%nat, (160, 191))
  else if N.leb c 236 then Some (3%nat, (128, 191))
  else if N.eqb c 237 then Some (3%nat, (128, 159))
  else if N.leb c 239 then Some (3%nat, (128, 191))
  else if N.eqb c 240 then Some (4%nat, (144, 191))
  else if N.leb c 243 then Some (4%nat, (128, 191))
  else if N.eqb c 244 then Some (4%nat, (128, 143))
  else None.

Definition low (bits : N) (b : ascii) : N := N.land (code b) bits.

(** [DecodeRuneInString]: the first rune of [s] and its width in bytes;
    [(RuneError, 0)] on the empty string and [(RuneError, 1)] on an
    invalid encoding. *)
Definition DecodeRuneInString (s : str) : N * nat :=
  match s with
  | [] => (RuneError, 0%nat)
  | s0 :: t =>
      if N.ltb (code s0) RuneSelf then (code s0, 1%nat)
      else
        match first s0 with
        | None => (RuneError, 1%nat)
        | Some (sz, (lo, hi)) =>
            if Nat.ltb (List.length s) sz then (RuneError, 1%nat)
            else
              match t with
              | [] => (RuneError, 1%nat)
              | s1 :: t1 =>
                  if negb (between lo hi s1) then (RuneError, 1%nat)
                  else if Nat.leb sz 2%nat then
                    (N.lor (N.shiftl (low 31 s0) 6) (low 63 s1), 2%nat)
                  else
                    match t1 with
                    | [] => (RuneError, 1%nat)
                    | s2 :: t2 =>
                        if negb (between 128 191 s2) then (RuneError, 1%nat)
                        else if Nat.leb sz 3%nat then
                          (N.lor (N.shiftl (low 15 s0) 12)
                             (N.lor (N.shiftl (low 63 s1) 6) (low 63 s2)), 3%nat)
                        else
                          match t2 with
                          | [] => (RuneError, 1%nat)
                          | s3 :: _ =>
                              if negb (between 128 191 s3) then (RuneError, 1%nat)
                              else
                                (N.lor (N.shiftl (low 7 s0) 18)
                                   (N.lor (N.shiftl (low 63 s1) 12)
                                      (N.lor (N.shiftl (low 63 s2) 6)
                                         (low 63 s3))), 4%nat)
                          end
                    end
              end
        end
  end.

(** The backward scan of [DecodeLastRuneInString] for a rune start:
    [for start--; start >= lim; start-- { if RuneStart(s[start]) { break } }].
    The loop body runs at most [UTFMax] times. *)
Fixpoint scanStart (s : str) (lim : Z) (n : nat) (start : Z) : Z :=
  match n with
  | O => start
  | S n' =>
      if (start <? lim)%Z then start
      else if RuneStart (nth (Z.to_nat start) s zero) then start
      else scanStart s lim n' (start - 1)%Z
  end.

(** [DecodeLastRuneInString]: the last rune of [s] and its width. *)
Definition DecodeLastRuneInString (s : str) : N * nat :=
  let e := Z.of_nat (List.length s) in
  if (e =? 0)%Z then (RuneError, 0%nat)
  else
    let start := (e - 1)%Z in
    let r := code (nth (Z.to_nat start) s zero) in
    if N.ltb r RuneSelf then (r, 1%nat)
    else
      let lim := Z.max 0 (e - Z.of_nat UTFMax) in
      let start := scanStart s lim (S UTFMax) (start - 1) in
      let start := Z.max 0 start in
      let '(r', size) := DecodeRuneInString (skipn (Z.to_nat start) s) in
      if (start + Z.of_nat size =? e)%Z then (r', size) else (RuneError, 1%nat).

End utf8.

Module unicode.
Local Open Scope N_scope.

(** [unicode.IsSpace]: the Latin-1 spaces and the code points with
    Unicode's White_Space property. *)
Definition IsSpace (r : N) : bool :=
  if N.leb r 255 then
    match r with
    | 9 | 10 | 11 | 12 | 13 | 32 | 133 | 160 => true
    | _ => false
    end
  else
    N.eqb r 5760 || (N.leb 8192 r && N.leb r 8202) || N.eqb r 8232
    || N.eqb r 8233 || N.eqb r 8239 || N.eqb r 8287 || N.eqb r 12288.

End unicode.

(** ** Package [strings] *)
Module strings.

(** The [asciiSpace] table: ['\t'], ['\n'], ['\v'], ['\f'], ['\r'], [' ']. *)
Definition asciiSpace (c : ascii) : bool :=
  match code c with
  | 9 | 10 | 11 | 12 | 13 | 32 => true
  | _ => false
  end%N.

Definition isRuneSelf (c : ascii) : bool := N.leb utf8.RuneSelf (code c).

(** A plain byte: ASCII and not a space. *)
Definition plain (c : ascii) : bool := negb (isRuneSelf c) && negb (asciiSpace c).

(** [indexFunc s f truth]: the byte index of the first rune [r] of [s]
    with [f r = truth], ranging over [s] rune by rune. *)
Fixpoint indexFunc_from (fuel : nat) (f : N -> bool) (truth : bool)
  (s : str) (i : nat) : option nat :=
  match fuel with
  | O => None
  | S fuel' =>
      match s with
      | [] => None
      | _ :: _ =>
          let '(r, w) := utf8.DecodeRuneInString s in
          if Bool.eqb (f r) truth then Some i
          else indexFunc_from fuel' f truth (skipn w s) (i + w)
      end
  end.

Definition indexFunc (s : str) (f : N -> bool) (truth : bool) : option nat :=
  indexFunc_from (List.length s) f truth s 0.

(** [lastIndexFunc s f truth]: the byte index of the last rune [r] of [s]
    with [f r = truth], walking back from the end with
    [DecodeLastRuneInString]. *)
Fixpoint lastIndexFunc_from (fuel : nat) (f : N -> bool) (truth : bool)
  (s : str) (i : nat) : option nat :=
  match fuel with
  | O => None
  | S fuel' =>
      if Nat.ltb 0 i then
        let '(r, size) := utf8.DecodeLastRuneInString (firstn i s) in
        let i := i - size in
        if Bool.eqb (f r) truth then Some i
        else lastIndexFunc_from fuel' f truth s i
      else None
  end.

Definition lastIndexFunc (s : str) (f : N -> bool) (truth : bool)
  : option nat :=
  lastIndexFunc_from (S (List.length s)) f truth s (List.length s).

Definition TrimLeftFunc (s : str) (f : N -> bool) : str :=
  match indexFunc s f false with
  | None => []
  | Some i => skipn i s
  end.

Definition TrimRightFunc (s : str) (f : N -> bool) : str :=
  match lastIndexFunc s f false with
  | Some i =>
      if isRuneSelf (nth i s zero) then
        let '(_, wid) := utf8.DecodeRuneInString (skipn i s) in
        firstn (i + wid) s
      else firstn (i + 1) s
  | None => firstn 0 s
  end.

Definition TrimFunc (s : str) (f : N -> bool) : str :=
  TrimRightFunc (TrimLeftFunc s f) f.

(** The two ASCII fast-path loops of [TrimSpace]. The first walks from
    the start and reports either the suffix left at the first ASCII
    non-space byte ([inl]) or the suffix at the first non-ASCII byte
    ([inr]); the second does the same from the end, on the reversed
    string. *)
Fixpoint trimStart (s : str) : str + str :=
  match s with
  | [] => inl []
  | c :: r =>
      if isRuneSelf c then inr s
      else if asciiSpace c then trimStart r
      else inl s
  end.

Definition TrimSpace (s : str) : str :=
  match trimStart s with
  | inr rest => TrimFunc rest unicode.IsSpace
  | inl rest =>
      match trimStart (rev rest) with
      | inr rrest => TrimRightFunc (rev rrest) unicode.IsSpace
      | inl rrest => rev rrest
      end
  end.

(** [Split s sep] for a separator of one byte, as in
    [strings.Split(s, "\n")]: the pieces of [s] between the separators;
    the empty string gives one empty piece. *)
Fixpoint Split (s : str) (sep : ascii) : list str :=
  match s with
  | [] => [[]]
  | c :: r =>
      if byte_eqb c sep then [] :: Split r sep
      else
        match Split r sep with
        | h :: t => (c :: h) :: t
        | [] => [[c]]
        end
  end.

Fixpoint Join (elems : list str) (sep : str) : str :=
  match elems with
  | [] => []
  | [e] => e
  | e :: rest => e ++ sep ++ Join rest sep
  end.

Definition isASCII (s : str) : bool := forallb (fun c => negb (isRuneSelf c)) s.

Definition lowerByte (c : ascii) : ascii :=
  if N.leb 65 (code c) && N.leb (code c) 90
  then ascii_of_N (code c + 32) else c.

Definition upperByte (c : ascii) : ascii :=
  if N.leb 97 (code c) && N.leb (code c) 122
  then ascii_of_N (code c - 32) else c.

(** [ToLower] and [ToUpper]: ASCII-only strings are mapped byte by byte;
    any other string goes through [Map] with the Unicode case tables,
    which are a parameter here ([mapUnicode]). *)
Definition ToLower (mapUnicode : str -> str) (s : str) : str :=
  if isASCII s then map lowerByte s else mapUnicode s.

Definition ToUpper (mapUnicode : str -> str) (s : str) : str :=
  if isASCII s then map upperByte s else mapUnicode s.

(** [EqualFold]: the ASCII fast path compares byte by byte up to case;
    at the first non-ASCII byte on either side the rest of both strings
    is compared under Unicode simple folding, a parameter here
    ([foldUnicode]). *)
Fixpoint EqualFold (foldUnicode : str -> str -> bool) (s t : str) : bool :=
  match s, t with
  | sr :: s', tr :: t' =>
      if isRuneSelf sr || isRuneSelf tr then foldUnicode s t
      else if byte_eqb tr sr then EqualFold foldUnicode s' t'
      else
        let lo := if N.ltb (code tr) (code sr) then tr else sr in
        let hi := if N.ltb (code tr) (code sr) then sr else tr in
        if N.leb 65 (code lo) && N.leb (code lo) 90
           && N.eqb (code hi) (code lo + 32)
        then EqualFold foldUnicode s' t'
        else false
  | [], [] => true
  | _, _ => false
  end.

End strings.

(** ** Package [strconv] *)
Module strconv.
Local Open Scope Z_scope.

Inductive NumError := ErrSyntax | ErrRange.

Definition isDigit (c : ascii) : bool := N.leb 48 (code c) && N.leb (code c) 57.

Definition digit (c : ascii) : Z := Z.of_N (code c) - 48.

Definition maxUint64 : Z := 2 ^ 64 - 1.

(** The digit loop of [ParseUint] in base 10. [n] is kept as an
    unbounded integer: the test [n1 < n || n1 > maxVal] on the wrapped
    [uint64] sum is [n*10 + d > maxVal] on the exact one, since
    [n < cutoff] keeps [n*10] within 64 bits and [maxVal <= maxUint64]. *)
Fixpoint ParseUint_loop (maxVal : Z) (cs : str) (n : Z)
  : result NumError Z :=
  match cs with
  | [] => Ok n
  | c :: r =>
      if isDigit c then
        if n >=? maxUint64 / 10 + 1 then Err ErrRange
        else
          let n1 := n * 10 + digit c in
          if n1 >? maxVal then Err ErrRange
          else ParseUint_loop maxVal r n1
      else Err ErrSyntax
  end.

Definition ParseUint (s : str) (bitSize : Z) : result NumError Z :=
  match s with
  | [] => Err ErrSyntax
  | _ => ParseUint_loop (2 ^ bitSize - 1) s 0
  end.

(** [ParseInt s 10 bitSize]. A range error of [ParseUint] leaves
    [un = maxVal], which is at or above the cutoff, so it stays a range
    error. *)
Definition ParseInt (s : str) (bitSize : Z) : result NumError Z :=
  match s with
  | [] => Err ErrSyntax
  | c0 :: r =>
      let neg := byte_eqb c0 "-" in
      let s' := if byte_eqb c0 "+" || neg then r else s in
      match ParseUint s' bitSize with
      | Err e => Err e
      | Ok un =>
          let cutoff := 2 ^ (bitSize - 1) in
          if negb neg && (un >=? cutoff) then Err ErrRange
          else if neg && (un >? cutoff) then Err ErrRange
          else Ok (if neg then - un else un)
      end
  end.

Definition IntSize : Z := 64.

(** The fast path of [Atoi] for strings of fewer than 19 bytes. *)
Fixpoint Atoi_fast (cs : str) (n : Z) : result NumError Z :=
  match cs with
  | [] => Ok n
  | ch :: r =>
      if isDigit ch then Atoi_fast r (n * 10 + digit ch)
      else Err ErrSyntax
  end.

Definition Atoi (s : str) : result NumError Z :=
  let sLen := List.length s in
  if Nat.ltb 0 sLen && Nat.ltb sLen 19 then
    match s with
    | [] => Err ErrSyntax
    | c0 :: r =>
        let signed := byte_eqb c0 "-" || byte_eqb c0 "+" in
        let s' := if signed then r else s in
        if signed && Nat.ltb (List.length s') 1 then Err ErrSyntax
        else
          match Atoi_fast s' 0 with
          | Err e => Err e
          | Ok n => Ok (if byte_eqb c0 "-" then - n else n)
          end
    end
  else ParseInt s IntSize.

End strconv.

(** ** Package [regexp]

    The fragment of Go's regular expressions the sources use: anchors,
    literals, character classes, greedy [*] and [+] over a class, a greedy
    optional group, concatenation and capture groups. A match is searched
    with Go's leftmost-first rule: the match starts as early as possible
    and, among the matches starting there, it is the one a backtracking
    search finds first. [matchK] is that backtracking search.

    Classes are applied byte by byte. Go matches rune by rune; the two
    agree on the expressions below, where every negated class sits under
    [*] or [+] and is followed by an ASCII byte, which never lies inside
    the encoding of a multi-byte rune. *)
Module regexp.

Record class := Class { negated : bool; ranges : list (ascii * ascii) }.

Definition in_range (c : ascii) (r : ascii * ascii) : bool :=
  N.leb (code (fst r)) (code c) && N.leb (code c) (code (snd r)).

Definition in_class (cl : class) (c : ascii) : bool :=
  xorb (negated cl) (existsb (in_range c) (ranges cl)).

Inductive regex :=
| Bol                       (* ^ : beginning of text *)
| Eol                       (* $ : end of text *)
| Lit (l : str)             (* literal bytes *)
| Char (cl : class)         (* [...] *)
| Star (cl : class)         (* [...]* *)
| Plus (cl : class)         (* [...]+ *)
| Cat (r1 r2 : regex)
| Opt (r : regex)           (* (...)? *)
| Cap (n : nat) (r : regex) (* capture group number n *).

Fixpoint Seq (rs : list regex) : regex :=
  match rs with
  | [] => Lit []
  | [r] => r
  | r :: rest => Cat r (Seq rest)
  end.

Fixpoint NumSubexp (r : regex) : nat :=
  match r with
  | Cat r1 r2 => Nat.max (NumSubexp r1) (NumSubexp r2)
  | Opt r => NumSubexp r
  | Cap n r => Nat.max n (NumSubexp r)
  | _ => 0
  end.

(** Capture groups set so far, the latest binding first. *)
Definition caps := list (nat * str).

Fixpoint group (n : nat) (cs : caps) : str :=
  match cs with
  | [] => []
  | (k, v) :: rest => if Nat.eqb k n then v else group n rest
  end.

Fixpoint stripPrefix (l s : str) : option str :=
  match l, s with
  | [], _ => Some s
  | x :: l', y :: s' => if byte_eqb x y then stripPrefix l' s' else None
  | _ :: _, [] => None
  end.

Section Backtracking.
Variable R : Type.

(** A continuation takes the position reached, the input left and the
    groups set, and says whether the rest of the expression matches. *)
Definition cont := nat -> str -> caps -> option R.

(** Greedy repetition of a class: the longest run first, then shorter
    ones. *)
Fixpoint starK (cl : class) (pos : nat) (s : str) (cs : caps) (k : cont)
  : option R :=
  match s with
  | x :: s' =>
      if in_class cl x then
        match starK cl (S pos) s' cs k with
        | Some r => Some r
        | None => k pos s cs
        end
      else k pos s cs
  | [] => k pos s cs
  end.

Fixpoint matchK (r : regex) (pos : nat) (s : str) (cs : caps) (k : cont)
  : option R :=
  match r with
  | Bol => if Nat.eqb pos 0 then k pos s cs else None
  | Eol => match s with [] => k pos s cs | _ :: _ => None end
  | Lit l =>
      match stripPrefix l s with
      | Some s' => k (pos + List.length l) s' cs
      | None => None
      end
  | Char cl =>
      match s with
      | x :: s' => if in_class cl x then k (S pos) s' cs else None
      | [] => None
      end
  | Star cl => starK cl pos s cs k
  | Plus cl =>
      match s with
      | x :: s' => if in_class cl x then starK cl (S pos) s' cs k else None
      | [] => None
      end
  | Cat r1 r2 =>
      matchK r1 pos s cs (fun pos' s' cs' => matchK r2 pos' s' cs' k)
  | Opt r' =>
      match matchK r' pos s cs k with
      | Some x => Some x
      | None => k pos s cs
      end
  | Cap n r' =>
      matchK r' pos s cs
        (fun pos' s' cs' => k pos' s' ((n, firstn (pos' - pos) s) :: cs'))
  end.

End Backtracking.

(** The leftmost match: the matched text and the groups, trying the
    start positions [pos], [pos+1], ... in turn. *)
Fixpoint find (re : regex) (pos : nat) (s : str) : option (str * caps) :=
  match matchK re pos s []
          (fun pos' _ cs => Some (firstn (pos' - pos) s, cs)) with
  | Some x => Some x
  | None =>
      match s with
      | [] => None
      | _ :: s' => find re (S pos) s'
      end
  end.

(** [FindStringSubmatch]: [None] is Go's nil slice; otherwise the matched
    text followed by the text of each group, empty for a group that took
    no part in the match. *)
Definition FindStringSubmatch (re : regex) (s : str) : option (list str) :=
  match find re 0 s with
  | None => None
  | Some (whole, cs) =>
      Some (whole :: map (fun n => group n cs) (seq 1 (NumSubexp re)))
  end.

Definition MatchString (re : regex) (s : str) : bool :=
  match find re 0 s with
  | None => false
  | Some _ => true
  end.

(** [\s] is [[\t\n\f\r ]]. *)
Definition perl_space : class :=
  Class false [("009", "010"); ("012", "013"); (" ", " ")]%char.
Definition digits : class := Class false [("0", "9")]%char.
Definition hexdigits : class :=
  Class false [("0", "9"); ("a", "f"); ("A", "F")]%char.
Definition notByte (c : ascii) : class := Class true [(c, c)].

(** What an expression matches, apart from any search order:
    [Matches r pos w rest] says that [r] matches the text [w] at
    position [pos] when [rest] is what follows [w] in the input. *)
Inductive Matches : regex -> nat -> str -> str -> Prop :=
| MBol rest : Matches Bol 0 [] rest
| MEol pos : Matches Eol pos [] []
| MLit l pos rest : Matches (Lit l) pos l rest
| MChar cl x pos rest :
    in_class cl x = true -> Matches (Char cl) pos [x] rest
| MStar cl w pos rest :
    forallb (in_class cl) w = true -> Matches (Star cl) pos w rest
| MPlus cl x w pos rest :
    forallb (in_class cl) (x :: w) = true ->
    Matches (Plus cl) pos (x :: w) rest
| MCat r1 r2 pos w1 w2 rest :
    Matches r1 pos w1 (w2 ++ rest) ->
    Matches r2 (pos + List.length w1) w2 rest ->
    Matches (Cat r1 r2) pos (w1 ++ w2) rest
| MOptSkip r pos rest : Matches (Opt r) pos [] rest
| MOptTake r pos w rest : Matches r pos w rest -> Matches (Opt r) pos w rest
| MCap n r pos w rest : Matches r pos w rest -> Matches (Cap n r) pos w rest.

(** Expressions without [$]: what they match does not depend on the
    text that follows. *)
Fixpoint noEol (r : regex) : bool :=
  match r with
  | Eol => false
  | Cat r1 r2 => noEol r1 && noEol r2
  | Opt r' | Cap _ r' => noEol r'
  | _ => true
  end.

(** Expressions that start with [^]. *)
Definition anchored (r : regex) : bool :=
  match r with
  | Bol | Cat Bol _ => true
  | _ => false
  end.

End regexp.

(** ** Package [slices] *)
Module slices.

Fixpoint insert (x : str) (l : list str) : list str :=
  match l with
  | [] => [x]
  | y :: l' => if str_leb x y then x :: l else y :: insert x l'
  end.

(** [slices.Sort] on strings: the elements in ascending order of [<].
    Equal strings are the same string, so the order alone fixes the
    result ([sorted_permutation_unique] below) and any sorting function
    models it; this one inserts. *)
Fixpoint Sort (l : list str) : list str :=
  match l with
  | [] => []
  | x :: l' => insert x (Sort l')
  end.

End slices.

(** * Errors

    The [error] values the two files create or pass on. *)
Inductive error :=
| errNum (e : strconv.NumError)          (* *strconv.NumError *)
| errCouldNotParseAptLine (line : str)   (* "could not parse apt uri line: %q" *)
| errAtLeastOneArgument (command : str)  (* "%s requires at least one argument" *)
| errNoDestinationArgument (command : str)
    (* "%s requires at least two arguments, but only one was provided.
       Destination could not be determined" *)
| errBadHeredoc (command option : str)   (* "%s cannot accept a heredoc as %s" *)
| errInvalidStageName (name : str)
    (* "invalid name for build stage: %q, name can't start with a number
       or contain symbols" *)
| errFromArguments                       (* "FROM requires either one or three arguments" *)
| errIntervalTooSmall (flag : str)       (* "Interval %#v cannot be less than %s" *)
| errRetriesNegative (retries : Z)       (* "--retries cannot be negative (%d)" *)
| errHealthcheckNoneArgs                 (* "HEALTHCHECK NONE takes no arguments" *)
| errMissingHealthcheckCmd               (* "Missing command after HEALTHCHECK CMD" *)
| errUnknownHealthcheckType (typ : str)  (* "Unknown type %#v in HEALTHCHECK (try CMD)" *)
| errOther (msg : str)                   (* an error of a collaborator *).

(** * Package [instructions]: [parse.go] *)
Module instructions.

Definition Range := (nat * nat * nat * nat)%type.

Record Heredoc := {
  Name : str;
  Content : str;
  Expand : bool;
  Chomp : bool
}.

(** [attributes] is Go's [map[string]bool]; a missing key reads [false]. *)
Record parseRequest := {
  command : str;
  args : list str;
  heredocs : list Heredoc;
  attributes : str -> bool;
  flags : list str;          (* the flag arguments held by [*BFlags] *)
  original : str;
  location : list Range;
  comments : list str
}.

(** Modelled from the spec: [withNameAndCode] and [newWithNameAndCode]
    ([commands.go] is not among the sources). Each instruction carries
    its original source text and its source range. *)
Record withNameAndCode := {
  code_ : str;
  name_ : str;
  location_ : list Range
}.

Definition newWithNameAndCode (req : parseRequest) : withNameAndCode :=
  {| code_ := original req; name_ := command req; location_ := location req |}.

(** The flags a parse function declares on [req.flags] before [Parse]. *)
Inductive flagDecl :=
| AddString (name def : str)
| AddBool (name : str) (def : bool)
| AddStrings (name : str).

Record Flag := {
  name : str;
  Value : str;
  StringValues : list str
}.

(** What [Parse] leaves behind: each declared flag by name, and the
    [used] set. *)
Record FlagSet := {
  flag : str -> Flag;
  used : str -> bool
}.

Record SourceContent := {
  Path : str;
  Data : str;
  SCExpand : bool
}.

Record SourcesAndDest := {
  DestPath : str;
  SourcePaths : list str;
  SourceContents : list SourceContent
}.

Record PackageCommand := {
  pkg_withNameAndCode : withNameAndCode;
  PackageNames : list str
}.

Record AddCommand := {
  add_withNameAndCode : withNameAndCode;
  add_SourcesAndDest : SourcesAndDest;
  Chown : str;
  Chmod : str;
  Link : bool;
  KeepGitDir : bool;
  Checksum : str;
  ExcludePatterns : list str;
  Unpack : option bool
}.

(** [parseAdd] returns [interface{}]: a [*PackageCommand] or an
    [*AddCommand]. *)
Inductive addResult :=
| IsPackage (c : PackageCommand)
| IsAdd (c : AddCommand).

(** [time.Duration]: nanoseconds. *)
Definition Duration := Z.
Definition Millisecond : Duration := 1000000%Z.

Record HealthcheckConfig := {
  Test : list str;
  Interval : Duration;
  Timeout : Duration;
  StartPeriod : Duration;
  StartInterval : Duration;
  Retries : Z
}.

Record HealthCheckCommand := {
  hc_withNameAndCode : withNameAndCode;
  Health : HealthcheckConfig
}.

Record ExposeCommand := {
  Ports : list str;
  exp_withNameAndCode : withNameAndCode
}.

Definition excludePatternsEnabled : bool := false.

(** [validStageName]: [^[a-z][a-z0-9-_.]*$]. In the class, [-] after the
    range [0-9] stands for itself. *)
Definition validStageName : regexp.regex :=
  regexp.Seq
    [ regexp.Bol;
      regexp.Char (regexp.Class false [("a", "z")]%char);
      regexp.Star (regexp.Class false
        [("a", "z"); ("0", "9"); ("-", "-"); ("_", "_"); (".", ".")]%char);
      regexp.Eol ].

Section Parse.

(** The collaborators of [parse.go] that are not among the sources:
    the Unicode paths of [strings.ToLower], [strings.ToUpper] and
    [strings.EqualFold]; [BFlags.Parse] over the declared flags;
    [time.ParseDuration]; [handleJSONArgs]; [parser.MustParseHeredoc]
    and [parser.ChompHeredocContent]. *)
Variable mapLower mapUpper : str -> str.
Variable foldUnicode : str -> str -> bool.
Variable BFlags_Parse : list flagDecl -> list str -> result error FlagSet.
Variable ParseDuration : str -> result error Duration.
Variable handleJSONArgs : list str -> (str -> bool) -> list str.
Variable MustParseHeredoc : str -> option Heredoc.
Variable ChompHeredocContent : str -> str.

Definition ToLower := strings.ToLower mapLower.
Definition ToUpper := strings.ToUpper mapUpper.
Definition EqualFold := strings.EqualFold foldUnicode.

(** [heredocLookup]: Go's map from heredoc names built by a loop over
    [req.heredocs]; a later heredoc of the same name replaces an
    earlier one. *)
Fixpoint heredocLookup (hs : list Heredoc) (n : str) : option Heredoc :=
  match hs with
  | [] => None
  | h :: rest =>
      match heredocLookup rest n with
      | Some h' => Some h'
      | None => if str_eqb (Name h) n then Some h else None
      end
  end.

Fixpoint sources (hs : list Heredoc) (srcs : list str)
  (paths : list str) (contents : list SourceContent)
  : list str * list SourceContent :=
  match srcs with
  | [] => (paths, contents)
  | src :: rest =>
      match MustParseHeredoc src with
      | Some heredoc =>
          let content :=
            match heredocLookup hs (Name heredoc) with
            | Some h => Content h
            | None => []
            end in
          let content :=
            if Chomp heredoc then ChompHeredocContent content else content in
          sources hs rest paths
            (contents ++ [{| Path := Name heredoc; Data := content;
                             SCExpand := Expand heredoc |}])
      | None => sources hs rest (paths ++ [src]) contents
      end
  end.

(** [parseSourcesAndDest]; its callers pass at least two arguments. *)
Definition parseSourcesAndDest (req : parseRequest) (command : str)
  : result error SourcesAndDest :=
  let srcs := removelast (args req) in
  let dest := last (args req) [] in
  match MustParseHeredoc dest with
  | Some _ => Err (errBadHeredoc command (go "a destination"))
  | None =>
      let '(sourcePaths, sourceContents) :=
        sources (heredocs req) srcs [] [] in
      Ok {| DestPath := dest; SourcePaths := sourcePaths;
            SourceContents := sourceContents |}
  end.

Definition parseAdd (req : parseRequest) : result error addResult :=
  let decls :=
    (if excludePatternsEnabled then [AddStrings (go "exclude")] else [])
    ++ [ AddString (go "chown") []; AddString (go "chmod") [];
         AddBool (go "link") false; AddBool (go "keep-git-dir") false;
         AddString (go "checksum") []; AddBool (go "unpack") false;
         AddBool (go "apt") false ] in
  match BFlags_Parse decls (flags req) with
  | Err e => Err e
  | Ok fs =>
      if str_eqb (Value (flag fs (go "apt"))) (go "true") then
        Ok (IsPackage {| pkg_withNameAndCode := newWithNameAndCode req;
                         PackageNames := args req |})
      else if Nat.ltb (List.length (args req)) 2 then
        Err (errNoDestinationArgument (go "ADD"))
      else
        match parseSourcesAndDest req (go "ADD") with
        | Err e => Err e
        | Ok sourcesAndDest =>
            let unpack :=
              if used fs (go "unpack")
              then Some (str_eqb (Value (flag fs (go "unpack"))) (go "true"))
              else None in
            Ok (IsAdd
              {| add_withNameAndCode := newWithNameAndCode req;
                 add_SourcesAndDest := sourcesAndDest;
                 Chown := Value (flag fs (go "chown"));
                 Chmod := Value (flag fs (go "chmod"));
                 Link := str_eqb (Value (flag fs (go "link"))) (go "true");
                 KeepGitDir :=
                   str_eqb (Value (flag fs (go "keep-git-dir"))) (go "true");
                 Checksum := Value (flag fs (go "checksum"));
                 ExcludePatterns :=
                   if excludePatternsEnabled
                   then StringValues (flag fs (go "exclude")) else [];
                 Unpack := unpack |})
        end
  end.

Definition parseBuildStageName (args : list str) : result error str :=
  match args with
  | [_; a1; a2] =>
      if EqualFold a1 (go "as") then
        let stageName := ToLower a2 in
        if negb (regexp.MatchString validStageName stageName)
        then Err (errInvalidStageName a2)
        else Ok stageName
      else Err errFromArguments
  | [_] => Ok []
  | _ => Err errFromArguments
  end.

(** [parseOptInterval f]: the duration of [f.Value], or 0 if empty. An
    error is reported if the value is given and less than the minimum
    duration. *)
Definition parseOptInterval (f : Flag) : result error Duration :=
  let s := Value f in
  match s with
  | [] => Ok 0%Z
  | _ =>
      match ParseDuration s with
      | Err e => Err e
      | Ok d =>
          if (d =? 0)%Z then Ok 0%Z
          else
            let minimumDuration := Millisecond in
            if (d <? minimumDuration)%Z
            then Err (errIntervalTooSmall (name f))
            else Ok d
      end
  end.

Definition parseHealthcheck (req : parseRequest)
  : result error HealthCheckCommand :=
  match args req with
  | [] => Err (errAtLeastOneArgument (go "HEALTHCHECK"))
  | a0 :: args =>
      let typ := ToUpper a0 in
      if str_eqb typ (go "NONE") then
        match args with
        | _ :: _ => Err errHealthcheckNoneArgs
        | [] =>
            Ok {| hc_withNameAndCode := newWithNameAndCode req;
                  Health := {| Test := [typ]; Interval := 0%Z;
                               Timeout := 0%Z; StartPeriod := 0%Z;
                               StartInterval := 0%Z; Retries := 0%Z |} |}
        end
      else
        let decls :=
          [ AddString (go "interval") []; AddString (go "timeout") [];
            AddString (go "start-period") [];
            AddString (go "start-interval") [];
            AddString (go "retries") [] ] in
        match BFlags_Parse decls (flags req) with
        | Err e => Err e
        | Ok fs =>
            if negb (str_eqb typ (go "CMD")) then
              Err (errUnknownHealthcheckType typ)
            else
              let cmdSlice := handleJSONArgs args (attributes req) in
              match cmdSlice with
              | [] => Err errMissingHealthcheckCmd
              | _ :: _ =>
                  let typ :=
                    if negb (attributes req (go "json"))
                    then go "CMD-SHELL" else typ in
                  let test := typ :: cmdSlice in
                  match parseOptInterval (flag fs (go "interval")) with
                  | Err e => Err e
                  | Ok interval =>
                  match parseOptInterval (flag fs (go "timeout")) with
                  | Err e => Err e
                  | Ok timeout =>
                  match parseOptInterval (flag fs (go "start-period")) with
                  | Err e => Err e
                  | Ok startPeriod =>
                  match parseOptInterval (flag fs (go "start-interval")) with
                  | Err e => Err e
                  | Ok startInterval =>
                      let flRetries := flag fs (go "retries") in
                      let finish retries :=
                        Ok {| hc_withNameAndCode := newWithNameAndCode req;
                              Health :=
                                {| Test := test; Interval := interval;
                                   Timeout := timeout;
                                   StartPeriod := startPeriod;
                                   StartInterval := startInterval;
                                   Retries := retries |} |} in
                      match Value flRetries with
                      | [] => finish 0%Z
                      | _ :: _ =>
                          match strconv.ParseInt (Value flRetries) 32 with
                          | Err e => Err (errNum e)
                          | Ok retries =>
                              if (retries <? 0)%Z
                              then Err (errRetriesNegative retries)
                              else finish retries
                          end
                      end
                  end end end end
              end
        end
  end.

Definition parseExpose (req : parseRequest) : result error ExposeCommand :=
  let portsTab := args req in
  match args req with
  | [] => Err (errAtLeastOneArgument (go "EXPOSE"))
  | _ :: _ =>
      match BFlags_Parse [] (flags req) with
      | Err e => Err e
      | Ok _ =>
          let portsTab := slices.Sort portsTab in
          Ok {| Ports := portsTab;
                exp_withNameAndCode := newWithNameAndCode req |}
      end
  end.

End Parse.

(** The names [validStageName] accepts, read off the pattern: a lower-case
    letter followed by lower-case letters, digits, [-], [_] and [.]. *)
Definition isLower (c : ascii) : bool := N.leb 97 (code c) && N.leb (code c) 122.

Definition isNameByte (c : ascii) : bool :=
  isLower c || strconv.isDigit c
  || byte_eqb c "-" || byte_eqb c "_" || byte_eqb c ".".

Definition validName (s : str) : bool :=
  match s with
  | [] => false
  | c :: t => isLower c && forallb isNameByte t
  end.

(** ** Stand-ins for the collaborators

    Concrete collaborators, for running the parse functions on examples. *)

(** Modelled from the spec: [BFlags.Parse] ([bflag.go] is not among the
    sources). Flags are written [--name] (boolean), [--name=value], and
    repeated [--name=v1 --name=v2] for a list of strings. *)
Definition declName (dcl : flagDecl) : str :=
  match dcl with
  | AddString n _ | AddBool n _ | AddStrings n => n
  end.

Definition declFlag (dcl : flagDecl) : Flag :=
  match dcl with
  | AddString n def => {| name := n; Value := def; StringValues := [] |}
  | AddBool n def =>
      {| name := n; Value := if def then go "true" else go "false";
         StringValues := [] |}
  | AddStrings n => {| name := n; Value := []; StringValues := [] |}
  end.

Fixpoint findDecl (decls : list flagDecl) (n : str) : option flagDecl :=
  match decls with
  | [] => None
  | dcl :: rest => if str_eqb (declName dcl) n then Some dcl else findDecl rest n
  end.

Fixpoint cutEq (s : str) : str * option str :=
  match s with
  | [] => ([], None)
  | c :: r =>
      if byte_eqb c "=" then ([], Some r)
      else let '(n, v) := cutEq r in (c :: n, v)
  end.

Definition setFlag (fs : FlagSet) (f : Flag) : FlagSet :=
  {| flag := fun n => if str_eqb n (name f) then f else flag fs n;
     used := fun n => str_eqb n (name f) || used fs n |}.

Fixpoint BFlags_Parse_loop (decls : list flagDecl) (args : list str)
  (fs : FlagSet) : result error FlagSet :=
  match args with
  | [] => Ok fs
  | a :: rest =>
      match a with
      | "-"%char :: "-"%char :: body =>
          let '(n, v) := cutEq body in
          match findDecl decls n, v with
          | None, _ => Err (errOther (go "unknown flag"))
          | Some (AddBool _ _), None =>
              BFlags_Parse_loop decls rest
                (setFlag fs {| name := n; Value := go "true";
                               StringValues := [] |})
          | Some (AddBool _ _), Some v =>
              if str_eqb v (go "true") || str_eqb v (go "false") then
                BFlags_Parse_loop decls rest
                  (setFlag fs {| name := n; Value := v; StringValues := [] |})
              else Err (errOther (go "expecting boolean value"))
          | Some (AddString _ _), Some v =>
              BFlags_Parse_loop decls rest
                (setFlag fs {| name := n; Value := v; StringValues := [] |})
          | Some (AddStrings _), Some v =>
              BFlags_Parse_loop decls rest
                (setFlag fs {| name := n; Value := [];
                               StringValues := StringValues (flag fs n) ++ [v] |})
          | Some _, None => Err (errOther (go "missing a value on flag"))
          end
      | _ => Err (errOther (go "arg should start with --"))
      end
  end.

Definition BFlags_Parse_model (decls : list flagDecl) (args : list str)
  : result error FlagSet :=
  BFlags_Parse_loop decls args
    {| flag := fun n =>
         match findDecl decls n with
         | Some dcl => declFlag dcl
         | None => {| name := n; Value := []; StringValues := [] |}
         end;
       used := fun _ => false |}.

(** [time.ParseDuration] on the strings made of decimal digits and one
    unit, such as [500us] or [0s]; any other string is answered with an
    error here (Go also reads signs, fractions and several components). *)
Fixpoint digitsValue (cs : str) (n : Z) : Z * str :=
  match cs with
  | c :: r =>
      if strconv.isDigit c then digitsValue r (n * 10 + strconv.digit c)%Z
      else (n, cs)
  | [] => (n, [])
  end.

Definition unitValue (u : str) : option Z :=
  if str_eqb u (go "ns") then Some 1%Z
  else if str_eqb u (go "us") then Some 1000%Z
  else if str_eqb u (go "ms") then Some 1000000%Z
  else if str_eqb u (go "s") then Some 1000000000%Z
  else if str_eqb u (go "m") then Some 60000000000%Z
  else if str_eqb u (go "h") then Some 3600000000000%Z
  else None.

Definition ParseDuration_model (s : str) : result error Duration :=
  match s with
  | c :: _ =>
      if strconv.isDigit c then
        let '(n, u) := digitsValue s 0 in
        match unitValue u with
        | Some k =>
            if (n * k <=? 2 ^ 63 - 1)%Z then Ok (n * k)%Z
            else Err (errOther (go "time: invalid duration"))
        | None => Err (errOther (go "time: unknown unit in duration"))
        end
      else Err (errOther (go "time: invalid duration"))
  | [] => Err (errOther (go "time: invalid duration"))
  end.

(** [handleJSONArgs] for the examples: the arguments as they are. *)
Definition handleJSONArgs_model (args : list str) (attributes : str -> bool)
  : list str := args.

Definition noHeredoc (s : str) : option Heredoc := None.
Definition sameText (s : str) : str := s.
Definition noFold (s t : str) : bool := false.

(** A request for the examples: no heredocs, and the [json] attribute
    as given. *)
Definition request (command : str) (args flags : list str) (json : bool)
  : parseRequest :=
  {| command := command; args := args; heredocs := [];
     attributes := fun k => json && str_eqb k (go "json");
     flags := flags; original := command; location := []; comments := [] |}.

Definition noFlags : FlagSet :=
  {| flag := fun n => {| name := n; Value := []; StringValues := [] |};
     used := fun _ => false |}.

(** The flags the model leaves for a request, [noFlags] if it refuses
    them. *)
Definition flagsOf (decls : list flagDecl) (req : parseRequest) : FlagSet :=
  match BFlags_Parse_model decls (flags req) with
  | Ok fs => fs
  | Err _ => noFlags
  end.

Definition addDecls : list flagDecl :=
  [ AddString (go "chown") []; AddString (go "chmod") [];
    AddBool (go "link") false; AddBool (go "keep-git-dir") false;
    AddString (go "checksum") []; AddBool (go "unpack") false;
    AddBool (go "apt") false ].

Definition healthcheckDecls : list flagDecl :=
  [ AddString (go "interval") []; AddString (go "timeout") [];
    AddString (go "start-period") []; AddString (go "start-interval") [];
    AddString (go "retries") [] ].

(** A flag given a value that does not parse as a duration, or that
    parses to a duration other than zero and below one millisecond. *)
Definition badInterval (ParseDuration : str -> result error Duration)
  (f : Flag) : Prop :=
  Value f <> [] /\
  ((exists e, ParseDuration (Value f) = Err e) \/
   (exists dur, ParseDuration (Value f) = Ok dur /\
                dur <> 0%Z /\ (dur < Millisecond)%Z)).

Definition intervalFlags : list str :=
  [ go "interval"; go "timeout"; go "start-period"; go "start-interval" ].

End instructions.

(** * Package [dockerfile2llb]: [convert_package.go] *)
Module dockerfile2llb.
Import instructions.

(** ** The graph builder [llb]

    The part of BuildKit's [llb] package the file builds with, as data:
    a [State] is the graph node a filesystem root comes from. A node
    records the call that made it; [File base None copts] is the call
    [base.File(nil, copts...)], and what the builder makes of a nil
    action is not part of these sources. *)
Inductive CacheMountSharingMode :=
| CacheMountShared
| CacheMountPrivate
| CacheMountLocked.

Inductive MountOption :=
| SourcePath (src : str)
| AsPersistentCacheDir (id : str) (sharing : CacheMountSharingMode).

Inductive HTTPOption :=
| Filename (name : str)
| HTTPChecksum (dgst : str).

Record CopyInfo := {
  Mode : option N;
  CreateDestPath : bool
}.

Inductive ConstraintsOpt :=
| dfCmd (cmd : PackageCommand)
| location_opt (loc : list Range)
| WithCustomName (name : str)
| IgnoreCache.

#[local] Unset Elimination Schemes.
Inductive State :=
| Root (id : str)                                  (* a root built earlier *)
| HTTP (url : str) (opts : list HTTPOption)        (* llb.HTTP(url, opts...) *)
| RunRoot (input : State) (opts : list RunOption)  (* input.Run(opts...).Root() *)
| File (base : State) (action : option FileAction)
       (copts : list ConstraintsOpt)               (* base.File(action, copts...) *)
with RunOption :=
| AddEnv (key value : str)
| Constraint (c : ConstraintsOpt)
| Args (a : list str)
| AddMount (dest : str) (mountState : State) (mopts : list MountOption)
with FileAction :=
| Copy (prev : option FileAction) (input : State) (src dest : str)
       (info : CopyInfo).
  (* [llb.Copy(...)] has no [prev]; [prev.Copy(...)] chains after [prev] *)
#[local] Set Elimination Schemes.

(** [digest.NewDigestFromEncoded(alg, encoded)]: [alg:encoded]. *)
Definition SHA256 : str := go "sha256".
Definition NewDigestFromEncoded (alg encoded : str) : str :=
  alg ++ go ":" ++ encoded.

(** ** The dispatch state *)
Record History := {
  CreatedBy : str;
  EmptyLayer : bool;
  Created : option Z
}.

Record Image := {
  Shell : list str;
  history : list History
}.

Record dispatchState := {
  state : State;
  image : Image;
  ignoreCache : bool;
  epoch : option Z
}.

Record PackageDownload := {
  uri : str;
  filename : str;
  size : Z;
  sha256 : str
}.

(** [dopt] is left out: of its fields the file uses the source map (in
    [location]) and the engine clients (in [ReadFile]). *)
Record PackageInvocation := {
  d : dispatchState;
  cmd : PackageCommand;
  updateStage : str;
  downloadStage : str;
  installStage : str
}.

Definition set_image (i : PackageInvocation) (img : Image)
  : PackageInvocation :=
  {| d := {| state := state (d i); image := img;
             ignoreCache := ignoreCache (d i); epoch := epoch (d i) |};
     cmd := cmd i; updateStage := updateStage i;
     downloadStage := downloadStage i; installStage := installStage i |}.

Definition set_state (i : PackageInvocation) (st : State)
  : PackageInvocation :=
  {| d := {| state := st; image := image (d i);
             ignoreCache := ignoreCache (d i); epoch := epoch (d i) |};
     cmd := cmd i; updateStage := updateStage i;
     downloadStage := downloadStage i; installStage := installStage i |}.

(** Modelled from the spec: [commitToHistory] ([convert.go] is not among
    the sources). Every instruction appends a history entry with its
    created-by string, its empty-layer flag and the epoch timestamp. *)
Definition commitToHistory (img : Image) (msg : str) (withLayer : bool)
  (st : option State) (tm : option Z) : Image * option error :=
  ({| Shell := Shell img;
      history := history img ++
        [{| CreatedBy := msg; EmptyLayer := negb withLayer;
            Created := tm |}] |},
   None).

Definition aptions : str :=
  strings.Join
    [ go "--option Acquire::ForceHash=sha256";
      go "--option Acquire::GzipIndexes=false";
      go "--option Dir::Cache=/btidor.syntax/cache";
      go "--option Dir::Cache::archives=archives/";
      go "--option Dir::State=/btidor.syntax/state";
      go "--option Dir::State::lists=lists/";
      go "--yes"; go "--quiet" ]
    (go " ").

(** The source text of [aptRegex] and its syntax tree. *)
Definition aptRegex_source : string :=
  "^'([^']*)'\s+([^ ]+)\s+([0-9]+)(\s+SHA256:([0-9a-fA-F]+))?".

Definition aptRegex : regexp.regex :=
  regexp.Seq
    [ regexp.Bol;
      regexp.Lit (go "'");
      regexp.Cap 1 (regexp.Star (regexp.notByte "'"));
      regexp.Lit (go "'");
      regexp.Plus regexp.perl_space;
      regexp.Cap 2 (regexp.Plus (regexp.notByte " "));
      regexp.Plus regexp.perl_space;
      regexp.Cap 3 (regexp.Plus regexp.digits);
      regexp.Opt (regexp.Cap 4 (regexp.Seq
        [ regexp.Plus regexp.perl_space;
          regexp.Lit (go "SHA256:");
          regexp.Cap 5 (regexp.Plus regexp.hexdigits) ])) ].

(** The body of the loop of [ParseURIs] on one line: [None] for
    [continue], otherwise the entry or the error returned. *)
Definition parseLine (line : str) : option (result error PackageDownload) :=
  let line := strings.TrimSpace line in
  match line with
  | [] => None
  | _ :: _ =>
      match regexp.FindStringSubmatch aptRegex line with
      | None => Some (Err (errCouldNotParseAptLine line))
      | Some match_ =>
          match strconv.Atoi (nth 3 match_ []) with
          | Err e => Some (Err (errNum e))
          | Ok size =>
              let sha256 :=
                if Nat.ltb 5 (List.length match_) then nth 5 match_ []
                else [] in
              Some (Ok {| uri := nth 1 match_ []; filename := nth 2 match_ [];
                          size := size; sha256 := sha256 |})
          end
      end
  end.

Fixpoint ParseURIs_loop (lines : list str) (results : list PackageDownload)
  : result error (list PackageDownload) :=
  match lines with
  | [] => Ok results
  | line :: rest =>
      match parseLine line with
      | None => ParseURIs_loop rest results
      | Some (Err e) => Err e
      | Some (Ok p) => ParseURIs_loop rest (results ++ [p])
      end
  end.

Definition ParseURIs (uris : str) : result error (list PackageDownload) :=
  ParseURIs_loop (strings.Split uris "010") [].

(** The lines [ParseURIs] looks at: the lines of the listing, trimmed,
    without the empty ones. *)
Definition nonblank_lines (uris : str) : list str :=
  filter (fun l => negb (str_eqb l []))
    (map strings.TrimSpace (strings.Split uris "010")).

(** The entry read off a match and its size. *)
Definition entryOf (match_ : list str) (n : Z) : PackageDownload :=
  {| uri := nth 1 match_ []; filename := nth 2 match_ []; size := n;
     sha256 := nth 5 match_ [] |}.

(** A line parses to an entry when [aptRegex] matches it and the size
    digits fit an [int]; it is rejected when the expression does not
    match or the size is out of range. *)
Definition parsesTo (line : str) (p : PackageDownload) : Prop :=
  exists m n,
    regexp.FindStringSubmatch aptRegex line = Some m /\
    strconv.Atoi (nth 3 m []) = Ok n /\ p = entryOf m n.

Definition rejected (line : str) : Prop :=
  regexp.FindStringSubmatch aptRegex line = None \/
  exists m e,
    regexp.FindStringSubmatch aptRegex line = Some m /\
    strconv.Atoi (nth 3 m []) = Err e.

(** The HTTP source of an entry: its URI, its filename and, when it has
    a digest, the checksum made of it. *)
Definition httpNode (f : PackageDownload) : State :=
  HTTP (uri f)
    (Filename (filename f) ::
     match sha256 f with
     | [] => []
     | _ :: _ => [HTTPChecksum (go "sha256:" ++ sha256 f)]
     end).

(** The loop of [DownloadFiles], threading [action]. *)
Fixpoint DownloadFiles_loop (files : list PackageDownload) (destination : str)
  (copyOpt : CopyInfo) (action : option FileAction) : option FileAction :=
  match files with
  | [] => action
  | file :: rest =>
      let httpOpts := [Filename (filename file)] in
      let httpOpts :=
        match sha256 file with
        | [] => httpOpts
        | _ :: _ =>
            httpOpts ++
            [HTTPChecksum (NewDigestFromEncoded SHA256 (sha256 file))]
        end in
      let http := HTTP (uri file) httpOpts in
      DownloadFiles_loop rest destination copyOpt
        (Some (Copy action http (filename file) destination copyOpt))
  end.

Definition DownloadFiles (i : PackageInvocation) (base : State)
  (files : list PackageDownload) (destination : str)
  : State * option error :=
  let mode := 420%N in   (* 0644 *)
  let copyOpt := {| Mode := Some mode; CreateDestPath := true |} in
  let action := DownloadFiles_loop files destination copyOpt None in
  (File base action
     [ dfCmd (cmd i);
       location_opt (location_ (pkg_withNameAndCode (cmd i)));
       WithCustomName (go "COPY (apt packages)") ],
   None).

(** The copies of a file action in the order they were chained, and the
    nodes they copy from. *)
Fixpoint copies (a : FileAction) : list (State * str * str * CopyInfo) :=
  match a with
  | Copy prev input src dest info =>
      match prev with
      | Some p => copies p
      | None => []
      end ++ [(input, src, dest, info)]
  end.

Definition copiesOf (a : option FileAction)
  : list (State * str * str * CopyInfo) :=
  match a with
  | Some a => copies a
  | None => []
  end.

Definition inputsOf (a : option FileAction) : list State :=
  map (fun c => fst (fst (fst c))) (copiesOf a).

(** ** The engine

    [ReadFile] marshals the state, has the engine solve it and reads one
    file back from the result. The engine is outside the program, so a
    dispatch is a computation that may stop at such a request and go on
    with its answer. *)
Inductive Eff (A : Type) : Type :=
| Return (a : A)
| ReadFile (st : State) (path : str) (k : result error str -> Eff A).
Arguments Return {A} a.
Arguments ReadFile {A} st path k.

Fixpoint run {A : Type} (engine : State -> str -> result error str)
  (p : Eff A) : A :=
  match p with
  | Return a => a
  | ReadFile st path k => run engine (k (engine st path))
  end.

Section Dispatch.

(** [withShell] ([convert.go]) is not among the sources: the shell of
    the image followed by the joined script. *)
Variable withShell : Image -> list str -> list str.

(** [Run] appends to the history of [i.d.image]; the invocation comes
    back with it. *)
Definition Run (i : PackageInvocation) (state : State) (stageName : str)
  (withLayer : bool) (script : list str) (extra : list RunOption)
  : PackageInvocation * (State * option error) :=
  let opts :=
    [ AddEnv (go "DEBIAN_FRONTEND") (go "noninteractive");
      Constraint (dfCmd (cmd i));
      Constraint (location_opt (location_ (pkg_withNameAndCode (cmd i))));
      Constraint (WithCustomName stageName);
      Args (withShell (image (d i)) [strings.Join script (go " && ")]) ] in
  let opts :=
    if ignoreCache (d i) then opts ++ [Constraint IgnoreCache] else opts in
  let opts := opts ++ extra in
  let next := RunRoot state opts in
  let '(img, err) :=
    commitToHistory (image (d i)) stageName withLayer (Some next)
      (epoch (d i)) in
  (set_image i img, (next, err)).

(** [Dispatch] returns the invocation as it leaves it ([i.d.state] and
    the history of [i.d.image] are written through the pointer) and its
    error, [None] for nil. *)
Definition Dispatch (i : PackageInvocation)
  : Eff (PackageInvocation * option error) :=
  let '(i, (tmp, err)) :=
    Run i (state (d i)) (updateStage i) false
      [ go "mkdir -p /btidor.syntax/state/lists/partial";
        go "apt-get update " ++ aptions;
        go "cp -r /btidor.syntax/state /btidor.syntax/backup" ]
      [ AddMount (go "/btidor.syntax/state") (state (d i))
          [AsPersistentCacheDir (go "btidor.syntax") CacheMountShared] ] in
  match err with
  | Some e => Return (i, Some e)
  | None =>
      let '(i, (tmp, err)) :=
        Run i tmp (downloadStage i) false
          [ go "mv /btidor.syntax/backup /btidor.syntax/state";
            go "apt-get install -qq --print-uris " ++ aptions ++ go " "
              ++ strings.Join (PackageNames (cmd i)) (go " ")
              ++ go " > /btidor.syntax/install" ]
          [] in
      match err with
      | Some e => Return (i, Some e)
      | None =>
          ReadFile tmp (go "/btidor.syntax/install") (fun r =>
            match r with
            | Err e => Return (i, Some e)
            | Ok data =>
                match ParseURIs data with
                | Err e => Return (i, Some e)
                | Ok uris =>
                    let '(tmp, err) :=
                      DownloadFiles i tmp uris
                        (go "/btidor.syntax/cache/archives/") in
                    match err with
                    | Some e => Return (i, Some e)
                    | None =>
                        let '(i, (st, err)) :=
                          Run i (state (d i)) (installStage i) true
                            [ go "apt-get install --no-download " ++ aptions
                                ++ go " "
                                ++ strings.Join (PackageNames (cmd i)) (go " ") ]
                            [ AddMount (go "/btidor.syntax") tmp
                                [SourcePath (go "/btidor.syntax")] ] in
                        Return (set_state i st, err)
                    end
                end
            end)
      end
  end.

End Dispatch.

(** ** The execs in full

    What the execs carry, written out: the options every exec of the
    extension starts with, and the update and install scripts as single
    shell lines. *)
Definition installPath : str := go "/btidor.syntax/install".

(** The options every exec of the extension starts with. *)
Definition baseOpts (withShell : Image -> list str -> list str)
  (i : PackageInvocation) (stageName : str) (img : Image)
  (script : str) : list RunOption :=
  [ AddEnv (go "DEBIAN_FRONTEND") (go "noninteractive");
    Constraint (dfCmd (cmd i));
    Constraint (location_opt (location_ (pkg_withNameAndCode (cmd i))));
    Constraint (WithCustomName stageName);
    Args (withShell img [script]) ]
  ++ (if ignoreCache (d i) then [Constraint IgnoreCache] else []).

Definition updateScript : str :=
  go ("mkdir -p /btidor.syntax/state/lists/partial && "
      ++ "apt-get update --option Acquire::ForceHash=sha256 "
      ++ "--option Acquire::GzipIndexes=false "
      ++ "--option Dir::Cache=/btidor.syntax/cache "
      ++ "--option Dir::Cache::archives=archives/ "
      ++ "--option Dir::State=/btidor.syntax/state "
      ++ "--option Dir::State::lists=lists/ --yes --quiet && "
      ++ "cp -r /btidor.syntax/state /btidor.syntax/backup")%string.

Definition installScript (names : list str) : str :=
  go ("apt-get install --no-download --option Acquire::ForceHash=sha256 "
      ++ "--option Acquire::GzipIndexes=false "
      ++ "--option Dir::Cache=/btidor.syntax/cache "
      ++ "--option Dir::Cache::archives=archives/ "
      ++ "--option Dir::State=/btidor.syntax/state "
      ++ "--option Dir::State::lists=lists/ --yes --quiet ")%string
  ++ strings.Join names (go " ").

(** ** An example dispatch

    [FROM ubuntu] followed by [ADD --apt nginx], with a shell and two
    engines to run it against: one answers with a listing of two
    packages, the other with an empty file. *)
Definition withShell_sh (img : Image) (args : list str) : list str :=
  match Shell img with
  | [] => [go "/bin/sh"; go "-c"]
  | sh => sh
  end ++ [strings.Join args (go " ")].

Definition nginxInvocation : PackageInvocation :=
  {| d := {| state := Root (go "ubuntu");
             image := {| Shell := []; history := [] |};
             ignoreCache := false; epoch := None |};
     cmd := {| pkg_withNameAndCode :=
                 {| code_ := go "ADD --apt nginx"; name_ := go "ADD";
                    location_ := [(2, 0, 2, 15)] |};
               PackageNames := [go "nginx"] |};
     updateStage := go "ADD (apt update) nginx";
     downloadStage := go "ADD (apt download) nginx";
     installStage := go "ADD (apt install) nginx" |}.

Definition nginxListing : str :=
  go "'http://archive.ubuntu.com/pool/main/n/nginx/nginx_1.24.0_amd64.deb' nginx_1.24.0_amd64.deb 520494 SHA256:0f3a9c"
  ++ ["010"%char]
  ++ go "'http://archive.ubuntu.com/pool/main/n/nginx/nginx-common_1.24.0_all.deb' nginx-common_1.24.0_all.deb 31294 MD5Sum:5b6c"
  ++ ["010"%char].

Definition engine_listing (st : State) (path : str) : result error str :=
  if str_eqb path installPath then Ok nginxListing
  else Err (errOther (go "no such file")).

Definition engine_empty (st : State) (path : str) : result error str :=
  Ok [].

End dockerfile2llb.

(** * Package [instructions]: the other parse functions of [parse.go] *)
Module parse_go.
Import instructions.

(** ** More of package [strings], for separators of one byte *)

(** [strings.Contains(s, sep)]. *)
Definition Contains (s : str) (sep : ascii) : bool := existsb (byte_eqb sep) s.

(** The text before and after the first [sep] of [s], if there is one. *)
Fixpoint cut (s : str) (sep : ascii) : option (str * str) :=
  match s with
  | [] => None
  | c :: r =>
      if byte_eqb c sep then Some ([], r)
      else
        match cut r sep with
        | Some (before, after) => Some (c :: before, after)
        | None => None
        end
  end.

(** [strings.SplitN(s, sep, 2)]: at most two pieces, cut at the first
    separator. *)
Definition SplitN2 (s : str) (sep : ascii) : list str :=
  match cut s sep with
  | Some (before, after) => [before; after]
  | None => [s]
  end.

(** [strings.CutPrefix(s, prefix)]: [Some after] for [(after, true)],
    [None] for [(s, false)]. *)
Fixpoint CutPrefix (s prefix : str) : option str :=
  match prefix, s with
  | [], _ => Some s
  | x :: prefix', y :: s' => if byte_eqb x y then CutPrefix s' prefix' else None
  | _ :: _, [] => None
  end.

(** ** Errors *)
Definition errExactlyOneArgument (command : str) : error :=
  errOther (command ++ go " requires exactly one argument").

Definition errBlankCommandNames (command : str) : error :=
  errOther (command ++ go " names can not be blank").

Definition errTooManyArguments (command : str) : error :=
  errOther (go "Bad input to " ++ command ++ go ", too many arguments").


(** ** Commands *)
Record KeyValuePair := {
  Key : str;
  KVValue : str;
  NoDelim : bool
}.

Record KeyValuePairOptional := {
  OKey : str;
  OValue : option str;
  Comment : str
}.

Record EnvCommand := {
  Env : list KeyValuePair;
  env_withNameAndCode : withNameAndCode
}.

Record LabelCommand := {
  Labels : list KeyValuePair;
  label_withNameAndCode : withNameAndCode
}.

Record MaintainerCommand := {
  Maintainer : str;
  maintainer_withNameAndCode : withNameAndCode
}.

Record CopyCommand := {
  copy_withNameAndCode : withNameAndCode;
  copy_SourcesAndDest : SourcesAndDest;
  From : str;
  copy_Chown : str;
  copy_Chmod : str;
  copy_Link : bool;
  Parents : bool;
  copy_ExcludePatterns : list str
}.

Record OnbuildCommand := {
  Expression : str;
  onbuild_withNameAndCode : withNameAndCode
}.

Record WorkdirCommand := {
  WorkdirPath : str;
  workdir_withNameAndCode : withNameAndCode
}.

Record ShellInlineFile := {
  FileName : str;
  FileData : str;
  FileChomp : bool
}.

(** A Go [[]string] with nil told apart from an empty slice: [None] is
    the nil slice, [Some l] a slice that is not nil. *)
Definition strSlice := option (list str).

Definition elems (s : strSlice) : list str :=
  match s with
  | Some l => l
  | None => []
  end.

Definition len (s : strSlice) : nat := List.length (elems s).

Record ShellDependantCmdLine := {
  CmdLine : strSlice;
  Files : list ShellInlineFile;
  PrependShell : bool
}.

Record CmdCommand := {
  cmd_CmdLine : ShellDependantCmdLine;
  cmd_withNameAndCode : withNameAndCode
}.

Record EntrypointCommand := {
  entrypoint_CmdLine : ShellDependantCmdLine;
  entrypoint_withNameAndCode : withNameAndCode
}.

Record RunCommand := {
  run_withNameAndCode : withNameAndCode;
  run_CmdLine : ShellDependantCmdLine;
  FlagsUsed : list str
}.

Record UserCommand := {
  User : str;
  user_withNameAndCode : withNameAndCode
}.

Record VolumeCommand := {
  volume_withNameAndCode : withNameAndCode;
  Volumes : list str
}.

Record StopSignalCommand := {
  Signal : str;
  stopsignal_withNameAndCode : withNameAndCode
}.

Record ArgCommand := {
  Args : list KeyValuePairOptional;
  arg_withNameAndCode : withNameAndCode
}.

Record ShellCommand := {
  ShellArgs : strSlice;
  shell_withNameAndCode : withNameAndCode
}.

(** The [Command] interface: every command type of the package. *)
Inductive Command :=
| CEnv (c : EnvCommand)
| CMaintainer (c : MaintainerCommand)
| CLabel (c : LabelCommand)
| CAdd (c : AddCommand)
| CPackage (c : PackageCommand)
| CCopy (c : CopyCommand)
| COnbuild (c : OnbuildCommand)
| CWorkdir (c : WorkdirCommand)
| CRun (c : RunCommand)
| CCmd (c : CmdCommand)
| CHealthcheck (c : HealthCheckCommand)
| CEntrypoint (c : EntrypointCommand)
| CExpose (c : ExposeCommand)
| CUser (c : UserCommand)
| CVolume (c : VolumeCommand)
| CStopSignal (c : StopSignalCommand)
| CArg (c : ArgCommand)
| CShell (c : ShellCommand).

Record Stage := {
  BaseName : str;
  OrigCmd : str;
  Name : str;
  SourceCode : str;
  Commands : list Command;
  Platform : str;
  Location : list Range;
  StageComment : str
}.

Definition parentsEnabled : bool := false.

(** The zero value of [KeyValuePair]. *)
Definition noPair : KeyValuePair :=
  {| Key := []; KVValue := []; NoDelim := false |}.

(** The pair [parseKvps] makes of the arguments [3j], [3j+1], [3j+2]. *)
Definition pairAt (args : list str) (j : nat) : KeyValuePair :=
  {| Key := nth (3 * j) args [];
     KVValue := nth (3 * j + 1) args [];
     NoDelim := str_eqb (nth (3 * j + 2) args []) [] |}.

(** What an [ARG] argument and the pair read off it have to do with
    each other: a bare name is the key; [name=value] is the key, [=]
    and the value, the key not empty and without [=]. *)
Definition argOf (arg : str) (key : str) (value : option str) : Prop :=
  match value with
  | None => arg = key /\ Contains arg "=" = false
  | Some v =>
      arg = key ++ "="%char :: v /\ key <> [] /\ Contains key "=" = false
  end.

(** ** [parseKvps] *)

(** The loop of [parseKvps], three arguments at a time; the length of
    [args] is a multiple of three when it runs. *)
Fixpoint parseKvps_loop (args : list str) (cmdName : str)
  (res : list KeyValuePair) : result error (list KeyValuePair) :=
  match args with
  | name :: value :: delim :: rest =>
      match name with
      | [] => Err (errBlankCommandNames cmdName)
      | _ :: _ =>
          parseKvps_loop rest cmdName
            (res ++ [{| Key := name; KVValue := value;
                        NoDelim := str_eqb delim [] |}])
      end
  | _ => Ok res
  end.

Definition parseKvps (args : list str) (cmdName : str)
  : result error (list KeyValuePair) :=
  match args with
  | [] => Err (errAtLeastOneArgument cmdName)
  | _ :: _ =>
      if negb (Nat.eqb (Nat.modulo (List.length args) 3) 0)
      then Err (errTooManyArguments cmdName)
      else parseKvps_loop args cmdName []
  end.

(** ** [getComment] and the stage-name casing check *)
Fixpoint getComment_loop (comments : list str) (name : str) : str :=
  match comments with
  | [] => []
  | line :: rest =>
      match CutPrefix line (name ++ go " ") with
      | Some after => after
      | None => getComment_loop rest name
      end
  end.

Definition getComment (comments : list str) (name : str) : str :=
  match name with
  | [] => []
  | _ :: _ => getComment_loop comments name
  end.

(** ** [validateDefinitionDescription]

    The linter is not among the sources: the function returns the
    instruction and the example key of the warning it formats, or
    [None] when it returns without running the linter. *)
Definition validateDefinitionDescription (instruction : str)
  (argKeys : list str) (descComments : list str) : option (str * str) :=
  match descComments, argKeys with
  | [], _ | _, [] => None
  | _ :: _, key0 :: _ =>
      let descCommentParts := strings.Split (last descComments []) " " in
      if existsb (str_eqb (nth 0 descCommentParts [])) argKeys then None
      else
        let exampleKey := key0 in
        let exampleKey :=
          if Nat.ltb 1 (List.length argKeys) then go "<arg_key>"
          else exampleKey in
        Some (instruction, exampleKey)
  end.

Section Parse.
Variable mapLower mapUpper : str -> str.
Variable foldUnicode : str -> str -> bool.
Variable BFlags_Parse : list flagDecl -> list str -> result error FlagSet.
Variable MustParseHeredoc : str -> option Heredoc.
Variable ChompHeredocContent : str -> str.

Definition isLowerCaseStageName (cmdArgs : list str) : bool :=
  match cmdArgs with
  | [_; _; stageName] =>
      str_eqb stageName (strings.ToLower mapLower stageName)
  | _ => true
  end.

(** ** The parse functions *)
Definition parseEnv (req : parseRequest) : result error EnvCommand :=
  match BFlags_Parse [] (flags req) with
  | Err e => Err e
  | Ok _ =>
      match parseKvps (args req) (go "ENV") with
      | Err e => Err e
      | Ok envs =>
          Ok {| Env := envs; env_withNameAndCode := newWithNameAndCode req |}
      end
  end.

Definition parseMaintainer (req : parseRequest)
  : result error MaintainerCommand :=
  match args req with
  | [a0] =>
      match BFlags_Parse [] (flags req) with
      | Err e => Err e
      | Ok _ =>
          Ok {| Maintainer := a0;
                maintainer_withNameAndCode := newWithNameAndCode req |}
      end
  | _ => Err (errExactlyOneArgument (go "MAINTAINER"))
  end.

Definition parseLabel (req : parseRequest) : result error LabelCommand :=
  match BFlags_Parse [] (flags req) with
  | Err e => Err e
  | Ok _ =>
      match parseKvps (args req) (go "LABEL") with
      | Err e => Err e
      | Ok labels =>
          Ok {| Labels := labels;
                label_withNameAndCode := newWithNameAndCode req |}
      end
  end.

Definition parseCopy (req : parseRequest) : result error CopyCommand :=
  if Nat.ltb (List.length (args req)) 2 then
    Err (errNoDestinationArgument (go "COPY"))
  else
    let decls :=
      (if excludePatternsEnabled then [AddStrings (go "exclude")] else [])
      ++ (if parentsEnabled then [AddBool (go "parents") false] else [])
      ++ [ AddString (go "chown") []; AddString (go "from") [];
           AddString (go "chmod") []; AddBool (go "link") false ] in
    match BFlags_Parse decls (flags req) with
    | Err e => Err e
    | Ok fs =>
        match parseSourcesAndDest MustParseHeredoc ChompHeredocContent req
                (go "COPY") with
        | Err e => Err e
        | Ok sourcesAndDest =>
            Ok {| copy_withNameAndCode := newWithNameAndCode req;
                  copy_SourcesAndDest := sourcesAndDest;
                  From := Value (flag fs (go "from"));
                  copy_Chown := Value (flag fs (go "chown"));
                  copy_Chmod := Value (flag fs (go "chmod"));
                  copy_Link :=
                    str_eqb (Value (flag fs (go "link"))) (go "true");
                  Parents :=
                    parentsEnabled
                    && str_eqb (Value (flag fs (go "parents"))) (go "true");
                  copy_ExcludePatterns :=
                    if excludePatternsEnabled
                    then StringValues (flag fs (go "exclude")) else [] |}
        end
    end.

Definition parseFrom (req : parseRequest) : result error Stage :=
  match parseBuildStageName mapLower foldUnicode (args req) with
  | Err e => Err e
  | Ok stageName =>
      match BFlags_Parse [AddString (go "platform") []] (flags req) with
      | Err e => Err e
      | Ok fs =>
          let code := strings.TrimSpace (original req) in
          Ok {| BaseName := nth 0 (args req) [];
                OrigCmd := command req;
                Name := stageName;
                SourceCode := code;
                Commands := [];
                Platform := Value (flag fs (go "platform"));
                Location := location req;
                StageComment := getComment (comments req) stageName |}
      end
  end.

Definition parseWorkdir (req : parseRequest) : result error WorkdirCommand :=
  match args req with
  | [a0] =>
      match BFlags_Parse [] (flags req) with
      | Err e => Err e
      | Ok _ =>
          Ok {| WorkdirPath := a0;
                workdir_withNameAndCode := newWithNameAndCode req |}
      end
  | _ => Err (errExactlyOneArgument (go "WORKDIR"))
  end.

(** [handleJSONArgs], with its result as a slice that may be nil: the
    callers below store the slice, and [parseShellDependentCommand]
    replaces an empty one by nil on request. *)
Variable handleJSONArgs : list str -> (str -> bool) -> strSlice.

Definition parseShellDependentCommand (req : parseRequest)
  (emptyAsNil : bool) : result error ShellDependantCmdLine :=
  let files :=
    map (fun heredoc =>
           {| FileName := instructions.Name heredoc;
              FileData := Content heredoc;
              FileChomp := Chomp heredoc |})
      (heredocs req) in
  let args := handleJSONArgs (args req) (attributes req) in
  let args :=
    if emptyAsNil && Nat.eqb (len args) 0 then None else args in
  Ok {| CmdLine := args; Files := files;
        PrependShell := negb (attributes req (go "json")) |}.

Definition parseCmd (req : parseRequest) : result error CmdCommand :=
  match BFlags_Parse [] (flags req) with
  | Err e => Err e
  | Ok _ =>
      match parseShellDependentCommand req false with
      | Err e => Err e
      | Ok cmdline =>
          Ok {| cmd_CmdLine := cmdline;
                cmd_withNameAndCode := newWithNameAndCode req |}
      end
  end.

Definition parseEntrypoint (req : parseRequest)
  : result error EntrypointCommand :=
  match BFlags_Parse [] (flags req) with
  | Err e => Err e
  | Ok _ =>
      match parseShellDependentCommand req true with
      | Err e => Err e
      | Ok cmdline =>
          Ok {| entrypoint_CmdLine := cmdline;
                entrypoint_withNameAndCode := newWithNameAndCode req |}
      end
  end.

Definition parseUser (req : parseRequest) : result error UserCommand :=
  match args req with
  | [a0] =>
      match BFlags_Parse [] (flags req) with
      | Err e => Err e
      | Ok _ =>
          Ok {| User := a0; user_withNameAndCode := newWithNameAndCode req |}
      end
  | _ => Err (errExactlyOneArgument (go "USER"))
  end.

(** The loop of [parseVolume], appending to [cmd.Volumes]. *)
Fixpoint parseVolume_loop (args : list str) (volumes : list str)
  : result error (list str) :=
  match args with
  | [] => Ok volumes
  | v :: rest =>
      let v := strings.TrimSpace v in
      match v with
      | [] => Err (errOther (go "VOLUME specified can not be an empty string"))
      | _ :: _ => parseVolume_loop rest (volumes ++ [v])
      end
  end.

Definition parseVolume (req : parseRequest) : result error VolumeCommand :=
  match args req with
  | [] => Err (errAtLeastOneArgument (go "VOLUME"))
  | _ :: _ =>
      match BFlags_Parse [] (flags req) with
      | Err e => Err e
      | Ok _ =>
          match parseVolume_loop (args req) [] with
          | Err e => Err e
          | Ok volumes =>
              Ok {| volume_withNameAndCode := newWithNameAndCode req;
                    Volumes := volumes |}
          end
      end
  end.

Definition parseStopSignal (req : parseRequest)
  : result error StopSignalCommand :=
  match args req with
  | [sig] =>
      Ok {| Signal := sig;
            stopsignal_withNameAndCode := newWithNameAndCode req |}
  | _ => Err (errExactlyOneArgument (go "STOPSIGNAL"))
  end.

(** The loop of [parseArg] over [req.args], filling [pairs] in order. *)
Fixpoint parseArg_loop (comments : list str) (args : list str)
  : result error (list KeyValuePairOptional) :=
  match args with
  | [] => Ok []
  | arg :: rest =>
      let kvpo :=
        if Contains arg "=" then
          let parts := SplitN2 arg "=" in
          match nth 0 parts [] with
          | [] => Err (errBlankCommandNames (go "ARG"))
          | _ :: _ => Ok (nth 0 parts [], Some (nth 1 parts []))
          end
        else Ok (arg, None) in
      match kvpo with
      | Err e => Err e
      | Ok (key, value) =>
          match parseArg_loop comments rest with
          | Err e => Err e
          | Ok pairs =>
              Ok ({| OKey := key; OValue := value;
                     Comment := getComment comments key |} :: pairs)
          end
      end
  end.

Definition parseArg (req : parseRequest) : result error ArgCommand :=
  match args req with
  | [] => Err (errAtLeastOneArgument (go "ARG"))
  | _ :: _ =>
      match parseArg_loop (comments req) (args req) with
      | Err e => Err e
      | Ok pairs =>
          Ok {| Args := pairs; arg_withNameAndCode := newWithNameAndCode req |}
      end
  end.


End Parse.

(** The sources of [COPY] and [ADD]: which arguments are paths, and
    the names of the heredocs among them. *)
Section Sources.
Variable MustParseHeredoc : str -> option Heredoc.
Variable ChompHeredocContent : str -> str.

Definition isPath (s : str) : bool :=
  match MustParseHeredoc s with
  | None => true
  | Some _ => false
  end.

(** The heredocs among the sources, as [MustParseHeredoc] reads them. *)
Definition heredocsOf (srcs : list str) : list Heredoc :=
  flat_map (fun s => match MustParseHeredoc s with
                     | Some heredoc => [heredoc]
                     | None => []
                     end) srcs.

(** The content a heredoc name has in a request: that of the last
    heredoc of the name attached to it, and the empty content when no
    heredoc attached has the name. *)
Definition contentOf (hs : list Heredoc) (n content : str) : Prop :=
  (exists pre h post,
     hs = pre ++ h :: post /\ instructions.Name h = n /\
     Forall (fun h' => instructions.Name h' <> n) post /\
     content = Content h) \/
  (Forall (fun h => instructions.Name h <> n) hs /\ content = []).

(** The source content made of a heredoc source: under its name, with
    its expansion flag, and with the content the name has in the
    request, chomped exactly when the heredoc asks for it. *)
Definition contentFor (hs : list Heredoc) (heredoc : Heredoc)
  (sc : SourceContent) : Prop :=
  Path sc = instructions.Name heredoc /\
  SCExpand sc = Expand heredoc /\
  exists content,
    contentOf hs (instructions.Name heredoc) content /\
    Data sc = if Chomp heredoc then ChompHeredocContent content
              else content.

End Sources.

(** A duration [parseHealthcheck] stores: zero, or at least one
    millisecond. *)
Definition okDuration (dur : Duration) : Prop :=
  dur = 0%Z \/ (Millisecond <= dur)%Z.

(** The flags [parseCopy] declares. *)
Definition copyDecls : list flagDecl :=
  [ AddString (go "chown") []; AddString (go "from") [];
    AddString (go "chmod") []; AddBool (go "link") false ].

(** ** [Parse]

    What [ParseInstructionWithLinter] returns as [any]: a stage, a
    command, or a value that is neither. *)
Inductive Instruction :=
| IStage (s : Stage)
| ICommand (c : Command)
| IOther.

(** Modelled from the spec: [Stage.AddCommand] ([commands.go] is not
    among the sources). A stage holds the ordered list of its
    instructions; a command is added at the end. *)
Definition AddCommand (s : Stage) (c : Command) : Stage :=
  {| BaseName := BaseName s; OrigCmd := OrigCmd s; Name := Name s;
     SourceCode := SourceCode s; Commands := Commands s ++ [c];
     Platform := Platform s; Location := Location s;
     StageComment := StageComment s |}.

(** The errors of [Parse]: a [parseError] around the error of a node,
    or an error with the location of the node attached. *)
Inductive ParseFailure (Node : Type) :=
| parseError (inner : error) (node : Node)
| WithLocation (err : error) (node : Node).
Arguments parseError {Node} inner node.
Arguments WithLocation {Node} err node.

Section ParseAll.

(** The nodes of the syntax tree and [ParseInstructionWithLinter] on
    them are parameters: [parser.Node], the linter and the table of
    instruction names are not among the sources. *)
Variable Node : Type.
Variable ParseInstructionWithLinter : Node -> result error Instruction.

(** Modelled from the spec: [CurrentStage] ([commands.go] is not among
    the sources). The instruction stream is cut at each [FROM], so the
    current stage is the last one; the pointer to it is the stages
    before it and the stage itself. With no stage yet the call fails
    with an error that is a parameter here. *)
Variable errNoStage : error.

Definition CurrentStage (stages : list Stage)
  : result error (list Stage * Stage) :=
  match rev stages with
  | [] => Err errNoStage
  | stage :: before => Ok (rev before, stage)
  end.

Fixpoint Parse_loop (children : list Node) (stages : list Stage)
  (metaArgs : list ArgCommand)
  : result (ParseFailure Node) (list Stage * list ArgCommand) :=
  match children with
  | [] => Ok (stages, metaArgs)
  | n :: rest =>
      match ParseInstructionWithLinter n with
      | Err err => Err (parseError err n)
      | Ok cmd =>
          match stages, cmd with
          | [], ICommand (CArg a) => Parse_loop rest stages (metaArgs ++ [a])
          | _, IStage c => Parse_loop rest (stages ++ [c]) metaArgs
          | _, ICommand c =>
              match CurrentStage stages with
              | Err err => Err (WithLocation err n)
              | Ok (before, stage) =>
                  Parse_loop rest (before ++ [AddCommand stage c]) metaArgs
              end
          | _, IOther =>
              Err (WithLocation (errOther (go "%T is not a command type")) n)
          end
      end
  end.

Definition Parse (children : list Node)
  : result (ParseFailure Node) (list Stage * list ArgCommand) :=
  Parse_loop children [] [].

End ParseAll.

Definition isArg (c : Command) : bool :=
  match c with
  | CArg _ => true
  | _ => false
  end.

(** A stage as it was declared and the commands that follow it, and the
    stage built of them. *)
Definition built (g : Stage * list Command) : Stage :=
  fold_left AddCommand (snd g) (fst g).

(** The instruction stream of a Dockerfile: the [ARG]s before the first
    [FROM], then each stage followed by its commands. *)
Definition stageStream (g : Stage * list Command) : list Instruction :=
  IStage (fst g) :: map ICommand (snd g).

Definition stream (metaArgs : list ArgCommand)
  (groups : list (Stage * list Command)) : list Instruction :=
  map (fun a => ICommand (CArg a)) metaArgs ++ flat_map stageStream groups.

Section Parsed.
Variable Node : Type.
Variable ParseInstructionWithLinter : Node -> result error Instruction.

(** The nodes parse, one by one, to the instructions. *)
Definition parsed (children : list Node) (instrs : list Instruction) : Prop :=
  Forall2 (fun n ins => ParseInstructionWithLinter n = Ok ins)
    children instrs.

End Parsed.

(** A line that starts with [name] and a space. *)
Definition describes (name line : str) : Prop :=
  exists text, line = name ++ go " " ++ text.

(** ** Stand-ins for the examples *)

(** [parser.MustParseHeredoc] on the words [<<NAME] and [<<-NAME], the
    second asking for the content to be chomped (Go also reads quoted
    names, which switch expansion off). *)
Definition MustParseHeredoc_model (s : str) : option Heredoc :=
  match s with
  | "<"%char :: "<"%char :: "-"%char :: name =>
      Some {| instructions.Name := name; Content := []; Expand := true;
              Chomp := true |}
  | "<"%char :: "<"%char :: name =>
      Some {| instructions.Name := name; Content := []; Expand := true;
              Chomp := false |}
  | _ => None
  end.

(** [parser.ChompHeredocContent]: the tabs at the start of every line
    are dropped. *)
Fixpoint chompTabs (atStart : bool) (s : str) : str :=
  match s with
  | [] => []
  | c :: r =>
      if atStart && byte_eqb c "009" then chompTabs true r
      else c :: chompTabs (byte_eqb c "010") r
  end.

Definition ChompHeredocContent_model (s : str) : str := chompTabs true s.

(** [handleJSONArgs] answering with the arguments as a slice that is
    not nil. *)
Definition handleJSONArgs_slice (args : list str) (attributes : str -> bool)
  : strSlice := Some args.

(** ** Examples *)
Definition heredocRequest : parseRequest :=
  {| command := go "COPY";
     args := [go "<<-EOF"; go "a.txt"; go "<<MISSING"; go "/dst/"];
     heredocs :=
       [ {| instructions.Name := go "EOF"; Content := go "old";
            Expand := true; Chomp := true |};
         {| instructions.Name := go "EOF";
            Content := "009"%char :: go "hello";
            Expand := true; Chomp := true |} ];
     attributes := fun _ => false; flags := [];
     original := go "COPY <<-EOF a.txt <<MISSING /dst/"; location := [];
     comments := [] |}.

(** [ENTRYPOINT []]: the JSON form with no word. *)
Definition emptyJSONRequest : parseRequest :=
  request (go "ENTRYPOINT") [] [] true.

Definition healthRequest : parseRequest :=
  request (go "HEALTHCHECK")
    [go "cmd"; go "curl"; go "-f"; go "http://localhost/"]
    [go "--timeout=3s"; go "--retries=3"] false.

Definition healthCommand : HealthCheckCommand :=
  {| hc_withNameAndCode := newWithNameAndCode healthRequest;
     Health := {| Test := [go "CMD-SHELL"; go "curl"; go "-f";
                           go "http://localhost/"];
                  Interval := 0%Z; Timeout := 3000000000%Z;
                  StartPeriod := 0%Z; StartInterval := 0%Z;
                  Retries := 3%Z |} |}.

Definition fromRequest : parseRequest :=
  {| command := go "FROM";
     args := [go "ubuntu"; go "AS"; go "Builder"];
     heredocs := []; attributes := fun _ => false; flags := [];
     original := go "FROM ubuntu AS Builder"; location := [];
     comments := [go "builder the build stage"] |}.

Definition fromStage : Stage :=
  {| BaseName := go "ubuntu"; OrigCmd := go "FROM"; Name := go "builder";
     SourceCode := go "FROM ubuntu AS Builder"; Commands := [];
     Platform := []; Location := [];
     StageComment := go "the build stage" |}.

Definition volumeRequest : parseRequest :=
  {| command := go "VOLUME";
     args := [go " /data"; go "/var/log "];
     heredocs := []; attributes := fun _ => false; flags := [];
     original := go "VOLUME  /data /var/log "; location := [];
     comments := [] |}.

Definition argRequest : parseRequest :=
  {| command := go "ARG";
     args := [go "VERSION=1.2=rc"; go "TARGET"];
     heredocs := []; attributes := fun _ => false; flags := [];
     original := go "ARG VERSION=1.2=rc TARGET"; location := [];
     comments := [go "check=skip"; go "VERSION the release to build"] |}.

(** Nodes for an example: 0 is an [ARG], 1 a [FROM], 2 a [USER]; any
    other node does not parse. *)
Definition exampleArg : ArgCommand :=
  {| Args := [{| OKey := go "TARGET"; OValue := None; Comment := [] |}];
     arg_withNameAndCode := newWithNameAndCode argRequest |}.

Definition exampleUser : UserCommand :=
  {| User := go "www";
     user_withNameAndCode :=
       newWithNameAndCode (request (go "USER") [go "www"] [] false) |}.

Definition exampleNode (n : nat) : result error Instruction :=
  match n with
  | 0 => Ok (ICommand (CArg exampleArg))
  | 1 => Ok (IStage fromStage)
  | 2 => Ok (ICommand (CUser exampleUser))
  | _ => Err (errOther (go "unknown instruction"))
  end.

Definition noStage : error :=
  errOther (go "no build stage in current context").

End parse_go.

(** * Package [dockerfile2llb]: more of the [ADD --apt] pipeline *)
Module dockerfile2llb_more.
Import instructions dockerfile2llb.

(** The download script as one shell line. *)
Definition downloadScript (names : list str) : str :=
  go ("mv /btidor.syntax/backup /btidor.syntax/state && "
      ++ "apt-get install -qq --print-uris "
      ++ "--option Acquire::ForceHash=sha256 "
      ++ "--option Acquire::GzipIndexes=false "
      ++ "--option Dir::Cache=/btidor.syntax/cache "
      ++ "--option Dir::Cache::archives=archives/ "
      ++ "--option Dir::State=/btidor.syntax/state "
      ++ "--option Dir::State::lists=lists/ --yes --quiet ")%string
  ++ strings.Join names (go " ")
  ++ go " > /btidor.syntax/install".

(** The copy options of [DownloadFiles]: mode [0644], creating the
    destination path. *)
Definition aptCopyInfo : CopyInfo :=
  {| Mode := Some 420%N; CreateDestPath := true |}.

Definition archives : str := go "/btidor.syntax/cache/archives/".

(** A listing line as [apt-get --print-uris] writes it: the quoted URI,
    the file name, the size, and the digest when there is one. *)
Definition aptLine (uri filename sizeDigits digest : str) : str :=
  go "'" ++ uri ++ go "' " ++ filename ++ go " " ++ sizeDigits
  ++ match digest with
     | [] => []
     | _ :: _ => go " SHA256:" ++ digest
     end.

(** What [ParseURIs] hands on in an entry: a URI without a quote, a
    file name that is not empty and has no space, a size within the
    non-negative [int]s, and a digest of hexadecimal digits, if any. *)
Definition wellFormed (p : PackageDownload) : Prop :=
  forallb (fun c => negb (byte_eqb c "'")) (uri p) = true /\
  filename p <> [] /\
  forallb (fun c => negb (byte_eqb c " ")) (filename p) = true /\
  (0 <= size p < 2 ^ 63)%Z /\
  forallb (regexp.in_class regexp.hexdigits) (sha256 p) = true.

(** The history entries a dispatch appends. *)
Definition updateEntry (i : PackageInvocation) : History :=
  {| CreatedBy := updateStage i; EmptyLayer := true;
     Created := epoch (d i) |}.
Definition downloadEntry (i : PackageInvocation) : History :=
  {| CreatedBy := downloadStage i; EmptyLayer := true;
     Created := epoch (d i) |}.
Definition installEntry (i : PackageInvocation) : History :=
  {| CreatedBy := installStage i; EmptyLayer := false;
     Created := epoch (d i) |}.

Definition withHistory (img : Image) (hs : list History) : Image :=
  {| Shell := Shell img; history := history img ++ hs |}.

(** The update and download execs, and the state handed to the engine. *)
Definition updateExec (withShell : Image -> list str -> list str)
  (i : PackageInvocation) : State :=
  RunRoot (state (d i))
    (baseOpts withShell i (updateStage i) (image (d i)) updateScript
     ++ [ AddMount (go "/btidor.syntax/state") (state (d i))
            [AsPersistentCacheDir (go "btidor.syntax") CacheMountShared] ]).

Definition downloadExec (withShell : Image -> list str -> list str)
  (i : PackageInvocation) : State :=
  RunRoot (updateExec withShell i)
    (baseOpts withShell i (downloadStage i)
       (withHistory (image (d i)) [updateEntry i])
       (downloadScript (PackageNames (cmd i)))).

Definition isMount (o : RunOption) : bool :=
  match o with
  | AddMount _ _ _ => true
  | _ => false
  end.

(** The history entry [Run] commits. *)
Definition runEntry (i : PackageInvocation) (stageName : str)
  (withLayer : bool) : History :=
  {| CreatedBy := stageName; EmptyLayer := negb withLayer;
     Created := epoch (d i) |}.

(** An engine that cannot solve the state. *)
Definition engine_down (st : State) (path : str) : result error str :=
  Err (errOther (go "failed to solve")).

Definition isSpaceByte (c : ascii) : bool :=
  regexp.in_class regexp.perl_space c.
Definition isHexByte (c : ascii) : bool := regexp.in_class regexp.hexdigits c.
Definition isNewline (c : ascii) : bool := byte_eqb c "010".

(** ** [dispatchRunDevices], in its two builds

    [instructions.GetDevices] is not among the sources; the devices of
    the RUN command are the argument here. *)
Record Device := {
  DeviceName : str;
  Required : bool
}.

Inductive CDIDeviceOption :=
| CDIDeviceName (name : str)
| CDIDeviceOptional.

Inductive DeviceRunOption :=
| AddCDIDevice (opts : list CDIDeviceOption).

(** The run option of one device: its name, marked optional unless the
    device is required. *)
Definition deviceOption (device : Device) : DeviceRunOption :=
  AddCDIDevice
    (CDIDeviceName (DeviceName device)
     :: if Required device then [] else [CDIDeviceOptional]).

(** Build tag [dfrundevice]. *)
Fixpoint dispatchRunDevices_loop (devices : list Device)
  (out : list DeviceRunOption) : list DeviceRunOption :=
  match devices with
  | [] => out
  | device :: rest =>
      let deviceOpts := [CDIDeviceName (DeviceName device)] in
      let deviceOpts :=
        if negb (Required device) then deviceOpts ++ [CDIDeviceOptional]
        else deviceOpts in
      dispatchRunDevices_loop rest (out ++ [AddCDIDevice deviceOpts])
  end.

Definition dispatchRunDevices_labs (devices : list Device)
  : result error (list DeviceRunOption) :=
  Ok (dispatchRunDevices_loop devices []).

(** Build tag [!dfrundevice]. *)
Definition dispatchRunDevices (devices : list Device)
  : result error (list DeviceRunOption) :=
  if Nat.ltb 0 (List.length devices) then
    Err (errOther
           (go ("device feature is only supported in Dockerfile frontend "
                ++ "1.14.0-labs or later")%string))
  else Ok [].

End dockerfile2llb_more.

(** * Capture groups of a match *)
Module regexp_groups.
Import regexp.

(** [MatchesC r pos w rest cs]: [r] matches [w] at [pos] before [rest],
    and [cs] are the groups of [r] set on the way, the latest first. *)
Inductive MatchesC : regex -> nat -> str -> str -> caps -> Prop :=
| CBol rest : MatchesC Bol 0 [] rest []
| CEol pos : MatchesC Eol pos [] [] []
| CLit l pos rest : MatchesC (Lit l) pos l rest []
| CChar cl x pos rest :
    in_class cl x = true -> MatchesC (Char cl) pos [x] rest []
| CStar cl w pos rest :
    forallb (in_class cl) w = true -> MatchesC (Star cl) pos w rest []
| CPlus cl x w pos rest :
    forallb (in_class cl) (x :: w) = true ->
    MatchesC (Plus cl) pos (x :: w) rest []
| CCat r1 r2 pos w1 w2 rest c1 c2 :
    MatchesC r1 pos w1 (w2 ++ rest) c1 ->
    MatchesC r2 (pos + List.length w1) w2 rest c2 ->
    MatchesC (Cat r1 r2) pos (w1 ++ w2) rest (c2 ++ c1)
| COptSkip r pos rest : MatchesC (Opt r) pos [] rest []
| COptTake r pos w rest c :
    MatchesC r pos w rest c -> MatchesC (Opt r) pos w rest c
| CCap n r pos w rest c :
    MatchesC r pos w rest c -> MatchesC (Cap n r) pos w rest ((n, w) :: c).

(** [stops cl rest]: a run of bytes of [cl] cannot go on into [rest]. *)
Definition stops (cl : class) (rest : str) : bool :=
  match rest with
  | [] => true
  | c :: _ => negb (in_class cl c)
  end.

(** [Takes r pos w rest cs]: on the input [w ++ rest] at [pos], the
    first choice of the backtracking search for [r] is to take [w],
    setting the groups [cs]: every repetition takes all the bytes it
    can, and an optional part is skipped only where it cannot match. *)
Inductive Takes : regex -> nat -> str -> str -> caps -> Prop :=
| TBol rest : Takes Bol 0 [] rest []
| TLit l pos rest : Takes (Lit l) pos l rest []
| TChar cl x pos rest :
    in_class cl x = true -> Takes (Char cl) pos [x] rest []
| TStar cl w pos rest :
    forallb (in_class cl) w = true -> stops cl rest = true ->
    Takes (Star cl) pos w rest []
| TPlus cl x w pos rest :
    forallb (in_class cl) (x :: w) = true -> stops cl rest = true ->
    Takes (Plus cl) pos (x :: w) rest []
| TCat r1 r2 pos w1 w2 rest c1 c2 :
    Takes r1 pos w1 (w2 ++ rest) c1 ->
    Takes r2 (pos + List.length w1) w2 rest c2 ->
    Takes (Cat r1 r2) pos (w1 ++ w2) rest (c2 ++ c1)
| TOptSkip r pos rest :
    (forall (R : Type) cs (k : cont R), matchK r pos rest cs k = None) ->
    Takes (Opt r) pos [] rest []
| TOptTake r pos w rest c :
    Takes r pos w rest c -> Takes (Opt r) pos w rest c
| TCap n r pos w rest c :
    Takes r pos w rest c -> Takes (Cap n r) pos w rest ((n, w) :: c).

(** [ReplaceAllString] for an expression that starts with [^] and
    matches no empty text: the only match there can be is the one at
    the start of [src], and the search after it finds nothing, [^]
    matching at the start of the text alone. [repl] is put in as it
    is; Go expands [$] in it, and the callers pass none. *)
Definition ReplaceAllString (re : regex) (src repl : str) : str :=
  match find re 0 src with
  | Some (whole, _) => repl ++ skipn (List.length whole) src
  | None => src
  end.

End regexp_groups.

(** * [parseOnBuild] *)
Module parse_onbuild.
Import regexp regexp_groups instructions parse_go.

(** A letter in either case, as [(?i)] reads it. None of the letters of
    [ONBUILD] folds to a rune outside ASCII. *)
Definition letter (upper lower : ascii) : regex :=
  Char (Class false [(upper, upper); (lower, lower)]).

(** The source text of the expression of [parseOnBuild] and its syntax
    tree. *)
Definition onbuildRegex_source : string := "(?i)^\s*ONBUILD\s*".

Definition onbuildRegex : regex :=
  Seq [ Bol; Star perl_space;
        letter "O" "o"; letter "N" "n"; letter "B" "b"; letter "U" "u";
        letter "I" "i"; letter "L" "l"; letter "D" "d";
        Star perl_space ].

(** The loop over the heredocs, appending to [original]. *)
Fixpoint appendHeredocs (hs : list Heredoc) (original : str) : str :=
  match hs with
  | [] => original
  | heredoc :: rest =>
      appendHeredocs rest
        (original ++ "010"%char :: Content heredoc
         ++ instructions.Name heredoc)
  end.

Section Parse.
Variable mapUpper : str -> str.
Variable BFlags_Parse : list flagDecl -> list str -> result error FlagSet.

Definition parseOnBuild (req : parseRequest) : result error OnbuildCommand :=
  match args req with
  | [] => Err (errAtLeastOneArgument (go "ONBUILD"))
  | a0 :: _ =>
      match BFlags_Parse [] (flags req) with
      | Err e => Err e
      | Ok _ =>
          let triggerInstruction :=
            strings.ToUpper mapUpper (strings.TrimSpace a0) in
          let t := strings.ToUpper mapUpper triggerInstruction in
          if str_eqb t (go "ONBUILD") then
            Err (errOther
                   (go "Chaining ONBUILD via `ONBUILD ONBUILD` isn't allowed"))
          else if str_eqb t (go "MAINTAINER") || str_eqb t (go "FROM") then
            Err (errOther
                   (triggerInstruction
                    ++ go " isn't allowed as an ONBUILD trigger"))
          else
            let original :=
              ReplaceAllString onbuildRegex (original req) [] in
            let original := appendHeredocs (heredocs req) original in
            Ok {| Expression := original;
                  onbuild_withNameAndCode := newWithNameAndCode req |}
      end
  end.

End Parse.

(** What the heredocs add to the expression. *)
Definition heredocText (hs : list Heredoc) : str :=
  List.concat
    (map (fun h => "010"%char :: Content h ++ instructions.Name h) hs).

(** The keyword in any casing. *)
Definition isKeyword (kw keyword : str) : bool :=
  str_eqb (map strings.upperByte kw) keyword.

(** The triggers [parseOnBuild] refuses. *)
Definition refusedTrigger (t : str) : bool :=
  str_eqb t (go "ONBUILD") || str_eqb t (go "MAINTAINER")
  || str_eqb t (go "FROM").

Definition onbuildRequest : parseRequest :=
  {| command := go "onbuild";
     args := [go "run"; go "make"];
     heredocs := []; attributes := fun _ => false; flags := [];
     original := go "  OnBuild  run make"; location := [];
     comments := [] |}.

End parse_onbuild.

(** * Properties *)

(** ** Bytes and strings *)

Lemma byte_eqb_eq (a b : ascii) : byte_eqb a b = true <-> a = b.
Proof. unfold byte_eqb. apply Ascii.eqb_eq. Qed.

Lemma byte_eqb_refl (a : ascii) : byte_eqb a a = true.
Proof. apply byte_eqb_eq. reflexivity. Qed.

Lemma str_eqb_eq (a b : str) : str_eqb a b = true <-> a = b.
Proof.
  revert b. induction a as [|x a IH]; intros [|y b]; simpl; split; intro H;
    try reflexivity; try discriminate.
  - apply andb_true_iff in H. destruct H as [H1 H2].
    apply byte_eqb_eq in H1. apply IH in H2. congruence.
  - injection H as -> ->. rewrite byte_eqb_refl. simpl. apply IH. reflexivity.
Qed.

Lemma str_eqb_refl (a : str) : str_eqb a a = true.
Proof. apply str_eqb_eq. reflexivity. Qed.

Lemma code_inj (a b : ascii) : code a = code b -> a = b.
Proof.
  unfold code. intro H.
  rewrite <- (ascii_N_embedding a), <- (ascii_N_embedding b). now rewrite H.
Qed.

(** ** The backtracking search against what an expression matches *)
Module regexp_facts.
Import regexp.

Lemma stripPrefix_app (l s : str) : stripPrefix l (l ++ s) = Some s.
Proof.
  induction l as [|x l IH]; simpl; [reflexivity|].
  now rewrite byte_eqb_refl.
Qed.

Lemma stripPrefix_Some (l s s' : str) :
  stripPrefix l s = Some s' -> s = l ++ s'.
Proof.
  revert s. induction l as [|x l IH]; intros [|y s]; simpl; intro H;
    try discriminate; try (injection H as <-; reflexivity).
  destruct (byte_eqb x y) eqn:E; [|discriminate].
  apply byte_eqb_eq in E. subst y. f_equal. now apply IH.
Qed.

Section Search.
Variable R : Type.
Implicit Types (k : cont R) (cs : caps).

(** A shorter run is tried whenever the longer ones fail: if the search
    under [*] fails, so does the continuation on the spot. *)
Lemma starK_None cl pos s cs k :
  starK cl pos s cs k = None -> k pos s cs = None.
Proof.
  destruct s as [|x s]; simpl; [easy|].
  destruct (in_class cl x); [|easy].
  destruct (starK cl (S pos) s cs k); [discriminate|easy].
Qed.

Lemma starK_complete cl w : forall pos rest cs k,
  forallb (in_class cl) w = true ->
  k (pos + List.length w) rest cs <> None ->
  starK cl pos (w ++ rest) cs k <> None.
Proof.
  induction w as [|x w IH]; intros pos rest cs k Hw Hk.
  - simpl in *. rewrite Nat.add_0_r in Hk.
    intro H. apply starK_None in H. contradiction.
  - simpl in Hw. apply andb_true_iff in Hw. destruct Hw as [Hx Hw].
    simpl. rewrite Hx.
    assert (starK cl (S pos) (w ++ rest) cs k <> None) as H.
    { apply IH; [assumption|].
      simpl in Hk. now rewrite Nat.add_succ_r in Hk. }
    destruct (starK cl (S pos) (w ++ rest) cs k); [discriminate|contradiction].
Qed.

Lemma starK_sound cl s : forall pos cs k x,
  starK cl pos s cs k = Some x ->
  exists w rest,
    s = w ++ rest /\ forallb (in_class cl) w = true /\
    k (pos + List.length w) rest cs = Some x.
Proof.
  induction s as [|c s IH]; intros pos cs k x H; simpl in H.
  - exists [], []. simpl. now rewrite Nat.add_0_r.
  - destruct (in_class cl c) eqn:Hc.
    + destruct (starK cl (S pos) s cs k) eqn:E.
      * injection H as ->. apply IH in E.
        destruct E as (w & rest & -> & Hw & Hk).
        exists (c :: w), rest. simpl. rewrite Hc, Hw.
        now rewrite Nat.add_succ_r.
      * exists [], (c :: s). simpl. now rewrite Nat.add_0_r.
    + exists [], (c :: s). simpl. now rewrite Nat.add_0_r.
Qed.

(** Completeness: if [r] matches [w] and the continuation accepts what
    follows under any groups, the search succeeds. *)
Lemma matchK_complete r pos w rest :
  Matches r pos w rest ->
  forall cs k,
    (forall cs', k (pos + List.length w) rest cs' <> None) ->
    matchK r pos (w ++ rest) cs k <> None.
Proof.
  induction 1 as
    [ rest | pos | l pos rest | cl x pos rest Hx | cl w pos rest Hw
    | cl x w pos rest Hw | r1 r2 pos w1 w2 rest _ IH1 _ IH2
    | r pos rest | r pos w rest _ IH | n r pos w rest _ IH ];
    intros cs k Hk; simpl.
  - apply Hk.
  - simpl in Hk. rewrite Nat.add_0_r in Hk. apply Hk.
  - rewrite stripPrefix_app. apply Hk.
  - rewrite Hx. simpl in Hk. rewrite Nat.add_1_r in Hk. apply Hk.
  - apply starK_complete; [assumption|apply Hk].
  - simpl in Hw. apply andb_true_iff in Hw. destruct Hw as [Hx Hw].
    rewrite Hx. apply starK_complete; [assumption|].
    specialize (Hk cs). simpl in Hk. now rewrite Nat.add_succ_r in Hk.
  - rewrite <- app_assoc. apply IH1. intro cs'. apply IH2. intro cs''.
    specialize (Hk cs''). now rewrite length_app, Nat.add_assoc in Hk.
  - specialize (Hk cs). simpl in Hk. rewrite Nat.add_0_r in Hk.
    destruct (matchK r pos rest cs k); [discriminate|assumption].
  - specialize (IH cs k Hk).
    destruct (matchK r pos (w ++ rest) cs k); [discriminate|contradiction].
  - apply IH. intro cs'. apply Hk.
Qed.

(** Soundness: a successful search went through a text [r] matches. *)
Lemma matchK_sound r : forall pos s cs k x,
  matchK r pos s cs k = Some x ->
  exists w rest cs',
    s = w ++ rest /\ Matches r pos w rest /\
    k (pos + List.length w) rest cs' = Some x.
Proof.
  induction r as [ | | l | cl | cl | cl | r1 IH1 r2 IH2 | r IH | n r IH ];
    intros pos s cs k x H; simpl in H.
  - destruct (Nat.eqb pos 0) eqn:E; [|discriminate].
    apply Nat.eqb_eq in E. subst pos.
    exists [], s, cs. repeat split; [constructor|assumption].
  - destruct s; [|discriminate].
    exists [], [], cs. simpl. rewrite Nat.add_0_r.
    repeat split; [constructor|assumption].
  - destruct (stripPrefix l s) as [s'|] eqn:E; [|discriminate].
    apply stripPrefix_Some in E. subst s.
    exists l, s', cs. repeat split; [constructor|assumption].
  - destruct s as [|c s]; [discriminate|].
    destruct (in_class cl c) eqn:Hc; [|discriminate].
    exists [c], s, cs. simpl. rewrite Nat.add_1_r.
    repeat split; [now constructor|assumption].
  - apply starK_sound in H. destruct H as (w & rest & -> & Hw & Hk).
    exists w, rest, cs. repeat split; [now constructor|assumption].
  - destruct s as [|c s]; [discriminate|].
    destruct (in_class cl c) eqn:Hc; [|discriminate].
    apply starK_sound in H. destruct H as (w & rest & -> & Hw & Hk).
    exists (c :: w), rest, cs. simpl. rewrite Nat.add_succ_r.
    repeat split; [|assumption].
    constructor. simpl. now rewrite Hc, Hw.
  - apply IH1 in H. destruct H as (w1 & rest1 & cs1 & -> & M1 & H).
    apply IH2 in H. destruct H as (w2 & rest & cs2 & -> & M2 & H).
    exists (w1 ++ w2), rest, cs2. rewrite length_app, Nat.add_assoc.
    repeat split; [now rewrite app_assoc|now constructor|assumption].
  - destruct (matchK r pos s cs k) as [y|] eqn:E.
    + injection H as ->. apply IH in E.
      destruct E as (w & rest & cs' & -> & M & Hk).
      exists w, rest, cs'. repeat split; [now apply MOptTake|assumption].
    + exists [], s, cs. simpl. rewrite Nat.add_0_r.
      repeat split; [apply MOptSkip|assumption].
  - apply IH in H. destruct H as (w & rest & cs' & -> & M & Hk).
    eexists w, rest, _. repeat split; [now constructor|eassumption].
Qed.

End Search.

(** Without [$], what follows the matched text does not matter. *)
Lemma Matches_rest r pos w rest :
  Matches r pos w rest ->
  noEol r = true -> forall rest', Matches r pos w rest'.
Proof.
  induction 1; intros HE rest'; simpl in HE; try discriminate;
    try (constructor; now auto).
  apply andb_true_iff in HE. destruct HE as [HE1 HE2].
  constructor; auto.
Qed.

(** An anchored expression matches at the start of the text or nowhere. *)
Lemma anchored_later R re pos s cs (k : cont R) :
  anchored re = true -> matchK re (S pos) s cs k = None.
Proof.
  destruct re; try discriminate; simpl; [reflexivity|].
  destruct re1; try discriminate. reflexivity.
Qed.

Lemma find_later re pos s :
  anchored re = true -> find re (S pos) s = None.
Proof.
  intro A. revert pos. induction s as [|c s IH]; intro pos; simpl;
    rewrite anchored_later by assumption; [reflexivity|apply IH].
Qed.

Lemma find_anchored re s :
  anchored re = true ->
  find re 0 s =
  matchK re 0 s [] (fun pos' _ cs => Some (firstn (pos' - 0) s, cs)).
Proof.
  intro A. destruct s as [|c s]; simpl.
  - now destruct (matchK re 0 [] [] _).
  - destruct (matchK re 0 (c :: s) [] _); [reflexivity|].
    now apply find_later.
Qed.

(** For an anchored expression, [find] succeeds exactly on the texts
    with a prefix the expression matches, and returns such a prefix. *)
Lemma find_sound re s whole cs :
  anchored re = true ->
  find re 0 s = Some (whole, cs) ->
  exists rest, s = whole ++ rest /\ Matches re 0 whole rest.
Proof.
  intros A H. rewrite find_anchored in H by assumption.
  apply matchK_sound in H. destruct H as (w & rest & cs' & -> & M & H).
  simpl in H. injection H as <- _.
  exists rest. rewrite Nat.sub_0_r, firstn_app, firstn_all, Nat.sub_diag.
  simpl. rewrite app_nil_r. now split.
Qed.

Lemma find_complete re w rest :
  anchored re = true ->
  Matches re 0 w rest -> find re 0 (w ++ rest) <> None.
Proof.
  intros A M. rewrite find_anchored by assumption.
  apply matchK_complete with (1 := M). intros cs'. discriminate.
Qed.

Lemma FindStringSubmatch_length re s m :
  FindStringSubmatch re s = Some m -> List.length m = S (NumSubexp re).
Proof.
  unfold FindStringSubmatch. destruct (find re 0 s) as [[w cs]|]; [|discriminate].
  intro H. injection H as <-. simpl. now rewrite length_map, length_seq.
Qed.

End regexp_facts.

(** ** [strings.TrimSpace] keeps what lies between two plain bytes *)
Module strings_facts.
Import strings.

Lemma plain_of_range c : (33 <= code c < 128)%N -> plain c = true.
Proof.
  unfold plain, isRuneSelf, asciiSpace, utf8.RuneSelf. intros [H1 H2].
  replace (N.leb 128 (code c)) with false by (symmetry; apply N.leb_gt; lia).
  destruct (code c) as [|p]; [lia|].
  do 8 (destruct p as [p|p|]; try reflexivity; try lia).
Qed.

Lemma plain_not_space c :
  plain c = true -> unicode.IsSpace (code c) = false.
Proof.
  unfold plain, isRuneSelf, asciiSpace, unicode.IsSpace, utf8.RuneSelf.
  intro H. apply andb_true_iff in H. destruct H as [H1 H2].
  apply negb_true_iff in H1, H2. apply N.leb_gt in H1.
  replace (N.leb (code c) 255) with true by (symmetry; apply N.leb_le; lia).
  destruct (code c) as [|p]; [reflexivity|].
  do 8 (destruct p as [p|p|]; try reflexivity; try discriminate).
Qed.

Lemma first_lo b sz lo hi :
  utf8.first b = Some (sz, (lo, hi)) -> (128 <= lo)%N /\ 2 <= sz.
Proof.
  unfold utf8.first.
  repeat match goal with
         | |- context [if ?c then _ else _] => destruct c
         end; intro H; try discriminate; injection H as <- <- <-; lia.
Qed.

(** A rune wider than one byte is made of non-ASCII bytes only. *)
Lemma DecodeRune_wide s r n :
  utf8.DecodeRuneInString s = (r, n) ->
  n <= List.length s /\
  (s <> [] -> 1 <= n) /\
  (2 <= n -> forall j, j < n -> isRuneSelf (nth j s zero) = true).
Proof.
  unfold utf8.DecodeRuneInString.
  destruct s as [|s0 t]; [intro H; injection H as <- <-; simpl; repeat split; try lia; congruence|].
  destruct (N.ltb (code s0) utf8.RuneSelf) eqn:E0.
  { intro H; injection H as <- <-. simpl. repeat split; lia. }
  apply N.ltb_ge in E0.
  assert (isRuneSelf s0 = true) as H0 by (now apply N.leb_le).
  destruct (utf8.first s0) as [[sz [lo hi]]|] eqn:F.
  2:{ intro H; injection H as <- <-. simpl. repeat split; lia. }
  apply first_lo in F. destruct F as [Hlo Hsz].
  destruct (Nat.ltb (List.length (s0 :: t)) sz).
  { intro H; injection H as <- <-. simpl. repeat split; lia. }
  destruct t as [|s1 t1].
  { intro H; injection H as <- <-. simpl. repeat split; lia. }
  destruct (utf8.between lo hi s1) eqn:B1; simpl.
  2:{ intro H; injection H as <- <-. simpl. repeat split; lia. }
  assert (isRuneSelf s1 = true) as H1.
  { unfold utf8.between in B1. apply andb_true_iff in B1. destruct B1 as [B1 _].
    apply N.leb_le in B1. apply N.leb_le. unfold utf8.RuneSelf. lia. }
  destruct (Nat.leb sz 2).
  { intro H; injection H as <- <-. simpl. repeat split; try lia.
    intros _ [|[|j]] Hj; simpl; try assumption; lia. }
  destruct t1 as [|s2 t2].
  { intro H; injection H as <- <-. simpl. repeat split; lia. }
  destruct (utf8.between 128 191 s2) eqn:B2; simpl.
  2:{ intro H; injection H as <- <-. simpl. repeat split; lia. }
  assert (isRuneSelf s2 = true) as H2.
  { unfold utf8.between in B2. apply andb_true_iff in B2. destruct B2 as [B2 _].
    exact B2. }
  destruct (Nat.leb sz 3).
  { intro H; injection H as <- <-. simpl. repeat split; try lia.
    intros _ [|[|[|j]]] Hj; simpl; try assumption; lia. }
  destruct t2 as [|s3 t3].
  { intro H; injection H as <- <-. simpl. repeat split; lia. }
  destruct (utf8.between 128 191 s3) eqn:B3; simpl.
  2:{ intro H; injection H as <- <-. simpl. repeat split; lia. }
  assert (isRuneSelf s3 = true) as H3.
  { unfold utf8.between in B3. apply andb_true_iff in B3. destruct B3 as [B3 _].
    exact B3. }
  intro H; injection H as <- <-. simpl. repeat split; try lia.
  intros _ [|[|[|[|j]]]] Hj; simpl; try assumption; lia.
Qed.

(** The last rune of a string that ends in an ASCII byte is that byte. *)
Lemma DecodeLast_ascii w c :
  isRuneSelf c = false ->
  utf8.DecodeLastRuneInString (w ++ [c]) = (code c, 1).
Proof.
  intro Hc. unfold utf8.DecodeLastRuneInString.
  rewrite length_app. simpl List.length.
  replace (Z.of_nat (List.length w + 1) =? 0)%Z with false
    by (symmetry; apply Z.eqb_neq; lia).
  replace (Z.to_nat (Z.of_nat (List.length w + 1) - 1)) with (List.length w) by lia.
  rewrite nth_middle.
  unfold isRuneSelf in Hc. apply N.leb_gt in Hc.
  now replace (N.ltb (code c) utf8.RuneSelf) with true
    by (symmetry; apply N.ltb_lt; assumption).
Qed.

Lemma scanStart_le s lim n : forall start,
  (utf8.scanStart s lim n start <= start)%Z.
Proof.
  induction n as [|n IH]; intro start; simpl; [lia|].
  destruct (start <? lim)%Z; [lia|].
  destruct (utf8.RuneStart _); [lia|].
  specialize (IH (start - 1)%Z). lia.
Qed.

(** After a plain byte, the last rune never reaches back over it. *)
Lemma DecodeLast_after w c t r n :
  isRuneSelf c = false -> t <> [] ->
  utf8.DecodeLastRuneInString (w ++ c :: t) = (r, n) ->
  1 <= n <= List.length t.
Proof.
  intros Hc Ht. unfold utf8.DecodeLastRuneInString.
  set (s := w ++ c :: t).
  assert (List.length s = List.length w + S (List.length t)) as Hlen
    by (unfold s; rewrite length_app; reflexivity).
  assert (1 <= List.length t) as Ht1 by (destruct t; [congruence|simpl; lia]).
  destruct (Z.of_nat (List.length s) =? 0)%Z eqn:E0.
  { apply Z.eqb_eq in E0. lia. }
  destruct (N.ltb _ utf8.RuneSelf).
  { intro H; injection H as <- <-. lia. }
  match goal with
  | |- context [Z.max 0 (utf8.scanStart ?a ?b ?c ?d)] =>
      pose proof (scanStart_le a b c d) as Hscan;
      set (start := Z.max 0 (utf8.scanStart a b c d))
  end.
  destruct (utf8.DecodeRuneInString (skipn (Z.to_nat start) s)) as [r' size] eqn:D.
  destruct (start + Z.of_nat size =? Z.of_nat (List.length s))%Z eqn:E.
  2:{ intro H; injection H as <- <-. lia. }
  intro H; injection H as <- <-. apply Z.eqb_eq in E.
  apply DecodeRune_wide in D. destruct D as (Dlen & Dpos & Dwide).
  assert (0 <= start)%Z as Hs0 by (unfold start; lia).
  assert (skipn (Z.to_nat start) s <> []) as Hne.
  { intro Hnil. apply (f_equal (@List.length ascii)) in Hnil.
    rewrite length_skipn in Hnil. simpl in Hnil. lia. }
  specialize (Dpos Hne). split; [assumption|].
  destruct (Nat.le_gt_cases size (List.length t)) as [|Hgt]; [assumption|exfalso].
  assert (2 <= size) as H2 by lia.
  (* the byte [c] sits at index [length w], inside the rune *)
  assert (Z.to_nat start <= List.length w) as Hsw by lia.
  specialize (Dwide H2 (List.length w - Z.to_nat start)).
  rewrite nth_skipn in Dwide.
  replace (Z.to_nat start + (List.length w - Z.to_nat start))
    with (List.length w) in Dwide by lia.
  unfold s in Dwide. rewrite nth_middle in Dwide.
  rewrite Dwide in Hc; [discriminate|lia].
Qed.

Lemma lastIndexFunc_from_plain w c t : forall fuel i,
  plain c = true ->
  S (List.length w) <= i <= List.length (w ++ c :: t) ->
  i - List.length w <= fuel ->
  exists j,
    lastIndexFunc_from fuel unicode.IsSpace false (w ++ c :: t) i = Some j /\
    List.length w <= j < List.length (w ++ c :: t).
Proof.
  intros fuel i Hp. assert (Hp' := Hp).
  unfold plain in Hp'. apply andb_true_iff in Hp'. destruct Hp' as [Hc _].
  apply negb_true_iff in Hc.
  revert i. induction fuel as [|fuel IH]; intros i Hi Hf; [lia|].
  rewrite length_app in Hi. simpl in Hi.
  simpl. replace (Nat.ltb 0 i) with true by (symmetry; apply Nat.ltb_lt; lia).
  destruct (Nat.eq_dec i (S (List.length w))) as [->|Hne].
  - replace (firstn (S (List.length w)) (w ++ c :: t)) with (w ++ [c]).
    2:{ rewrite firstn_app.
        replace (S (List.length w) - List.length w) with 1 by lia.
        rewrite firstn_all2 by lia. reflexivity. }
    rewrite DecodeLast_ascii by assumption.
    rewrite plain_not_space by assumption. simpl.
    exists (List.length w). split; [f_equal; lia|].
    rewrite length_app. simpl. lia.
  - set (t' := firstn (i - S (List.length w)) t).
    assert (firstn i (w ++ c :: t) = w ++ c :: t') as Hfirst.
    { rewrite firstn_app, firstn_all2 by lia.
      replace (i - List.length w) with (S (i - S (List.length w))) by lia.
      reflexivity. }
    rewrite Hfirst.
    assert (List.length t' = i - S (List.length w)) as Hlen'.
    { unfold t'. rewrite length_firstn. lia. }
    assert (t' <> []) as Hne'.
    { intro Hnil. rewrite Hnil in Hlen'. simpl in Hlen'. lia. }
    destruct (utf8.DecodeLastRuneInString (w ++ c :: t')) as [r n] eqn:D.
    apply DecodeLast_after in D; [|assumption|assumption].
    destruct (Bool.eqb (unicode.IsSpace r) false).
    + exists (i - n). split; [reflexivity|].
      rewrite length_app. simpl. lia.
    + apply IH; [rewrite length_app; simpl; lia|lia].
Qed.

(** [TrimRightFunc] with [IsSpace] cuts nothing at or before a plain
    byte. *)
Lemma TrimRightFunc_plain w c t :
  plain c = true ->
  exists t', TrimRightFunc (w ++ c :: t) unicode.IsSpace = w ++ c :: t'.
Proof.
  intro Hp. unfold TrimRightFunc, lastIndexFunc.
  destruct (@lastIndexFunc_from_plain w c t (S (List.length (w ++ c :: t)))
              (List.length (w ++ c :: t)) Hp) as (j & -> & Hj).
  { rewrite length_app. simpl. lia. }
  { lia. }
  rewrite length_app in Hj. simpl in Hj.
  assert (forall m, List.length w + 1 <= m ->
            exists t', firstn m (w ++ c :: t) = w ++ c :: t') as Hcut.
  { intros m Hm. exists (firstn (m - S (List.length w)) t).
    rewrite firstn_app, firstn_all2 by lia.
    replace (m - List.length w) with (S (m - S (List.length w))) by lia.
    reflexivity. }
  destruct (isRuneSelf (nth j (w ++ c :: t) zero)) eqn:E.
  - destruct (utf8.DecodeRuneInString (skipn j (w ++ c :: t))) as [r wid] eqn:D.
    apply DecodeRune_wide in D. destruct D as (_ & Dpos & _).
    assert (skipn j (w ++ c :: t) <> []) as Hne.
    { intro Hnil. apply (f_equal (@List.length ascii)) in Hnil.
      rewrite length_skipn, length_app in Hnil. simpl in Hnil. lia. }
    specialize (Dpos Hne).
    destruct (Nat.eq_dec j (List.length w)) as [->|Hjw].
    + rewrite nth_middle in E. unfold plain in Hp.
      rewrite E in Hp. discriminate.
    + apply Hcut. lia.
  - apply Hcut. lia.
Qed.

Lemma trimStart_plain c s : plain c = true -> trimStart (c :: s) = inl (c :: s).
Proof.
  unfold plain. intro H. apply andb_true_iff in H. destruct H as [H1 H2].
  apply negb_true_iff in H1, H2. simpl. now rewrite H1, H2.
Qed.

(** The scan from the end stops at or after a plain byte. *)
Lemma trimStart_upto a c b :
  plain c = true ->
  exists a', (trimStart (a ++ c :: b) = inl (a' ++ c :: b)
              \/ trimStart (a ++ c :: b) = inr (a' ++ c :: b)).
Proof.
  intro Hp. induction a as [|x a IH]; simpl app.
  - exists []. left. now apply trimStart_plain.
  - simpl. destruct (isRuneSelf x).
    + exists (x :: a). now right.
    + destruct (asciiSpace x).
      * exact IH.
      * exists (x :: a). now left.
Qed.

(** [TrimSpace] keeps a text that starts and ends with a plain byte,
    whatever follows it. *)
Lemma TrimSpace_keeps c w d t :
  plain c = true -> plain d = true ->
  exists t', TrimSpace (c :: w ++ d :: t) = c :: w ++ d :: t'.
Proof.
  intros Hc Hd. unfold TrimSpace. rewrite trimStart_plain by assumption.
  change (c :: w ++ d :: t) with ((c :: w) ++ d :: t).
  assert (forall x, (c :: w) ++ d :: x = c :: w ++ d :: x) as Hshape
    by reflexivity.
  remember (c :: w) as cw eqn:Hcw. clear Hcw.
  assert (forall a, rev (a ++ d :: rev cw) = cw ++ d :: rev a) as Hrev.
  { intro a. rewrite rev_app_distr. simpl.
    now rewrite rev_involutive, <- app_assoc. }
  replace (rev (cw ++ d :: t)) with (rev t ++ d :: rev cw).
  2:{ rewrite rev_app_distr. simpl. now rewrite <- app_assoc. }
  destruct (@trimStart_upto (rev t) d (rev cw) Hd) as (a' & [-> | ->]);
    rewrite Hrev.
  - exists (rev a'). now rewrite Hshape.
  - destruct (@TrimRightFunc_plain cw d (rev a') Hd) as (t' & ->).
    exists t'. now rewrite Hshape.
Qed.

(** A string without the separator is one piece. *)
Lemma Split_one s sep :
  forallb (fun c => negb (byte_eqb c sep)) s = true -> Split s sep = [s].
Proof.
  induction s as [|c s IH]; simpl; [reflexivity|].
  intro H. apply andb_true_iff in H. destruct H as [H1 H2].
  apply negb_true_iff in H1. rewrite H1, IH by assumption. reflexivity.
Qed.

End strings_facts.

(** ** The package extension *)
Module package_facts.
Import regexp regexp_facts strings strings_facts instructions dockerfile2llb.

Ltac inv H := inversion H; subst; clear H.

(** *** [ParseURIs] *)

Lemma filter_nonblank_cons l rest :
  l <> [] ->
  filter (fun l => negb (str_eqb l [])) (l :: rest)
  = l :: filter (fun l => negb (str_eqb l [])) rest.
Proof. intro H. simpl. destruct l; [congruence|reflexivity]. Qed.

Lemma sha256_field (m : list str) :
  (if Nat.ltb 5 (List.length m) then nth 5 m [] else []) = nth 5 m [].
Proof.
  destruct (Nat.ltb 5 (List.length m)) eqn:E; [reflexivity|].
  apply Nat.ltb_ge in E. symmetry. now apply nth_overflow.
Qed.

(** What the loop body does with a line, by cases. *)
Lemma parseLine_cases line :
  (TrimSpace line = [] /\ parseLine line = None) \/
  (TrimSpace line <> [] /\
   exists p, parseLine line = Some (Ok p) /\ parsesTo (TrimSpace line) p) \/
  (TrimSpace line <> [] /\
   exists e, parseLine line = Some (Err e) /\ rejected (TrimSpace line)).
Proof.
  unfold parseLine. destruct (TrimSpace line) as [|c l] eqn:T; [now left|].
  right. destruct (FindStringSubmatch aptRegex (c :: l)) as [m|] eqn:F.
  - destruct (strconv.Atoi (nth 3 m [])) as [n|e] eqn:A.
    + left. split; [discriminate|]. eexists. split; [reflexivity|].
      exists m, n. repeat split; try assumption.
      unfold entryOf. now rewrite sha256_field.
    + right. split; [discriminate|]. eexists. split; [reflexivity|].
      right. now exists m, e.
  - right. split; [discriminate|]. eexists. split; [reflexivity|]. now left.
Qed.

Lemma parsesTo_fun line p p' : parsesTo line p -> parsesTo line p' -> p = p'.
Proof.
  intros (m & n & F & A & ->) (m' & n' & F' & A' & ->). congruence.
Qed.

Lemma parsesTo_not_rejected line p : parsesTo line p -> rejected line -> False.
Proof.
  intros (m & n & F & A & _) [F' | (m' & e & F' & A')]; congruence.
Qed.

Lemma ParseURIs_loop_Ok lines : forall acc rs,
  ParseURIs_loop lines acc = Ok rs <->
  exists rs', rs = acc ++ rs' /\
    Forall2 parsesTo
      (filter (fun l => negb (str_eqb l [])) (map TrimSpace lines)) rs'.
Proof.
  induction lines as [|line rest IH]; intros acc rs; simpl map.
  - simpl. split.
    + intro H. injection H as <-. exists []. rewrite app_nil_r. now split.
    + intros (rs' & -> & H). inv H. now rewrite app_nil_r.
  - destruct (parseLine_cases line)
      as [[T P] | [[T (p & P & HP)] | [T (e & P & HP)]]];
      simpl ParseURIs_loop; rewrite P.
    + rewrite T. simpl filter. apply IH.
    + rewrite filter_nonblank_cons by assumption. rewrite IH. split.
      * intros (rs' & -> & H). exists (p :: rs'). rewrite <- app_assoc.
        split; [reflexivity|now constructor].
      * intros (rs' & -> & H). inv H.
        match goal with
        | Hp : parsesTo _ ?y |- _ => rewrite (parsesTo_fun Hp HP)
        end.
        eexists. rewrite <- app_assoc. split; [reflexivity|eassumption].
    + rewrite filter_nonblank_cons by assumption. split; [discriminate|].
      intros (rs' & -> & H). inv H. exfalso. eauto using parsesTo_not_rejected.
Qed.

Lemma ParseURIs_loop_Err lines : forall acc,
  (exists e, ParseURIs_loop lines acc = Err e) <->
  Exists rejected
    (filter (fun l => negb (str_eqb l [])) (map TrimSpace lines)).
Proof.
  induction lines as [|line rest IH]; intro acc; simpl map.
  - simpl. split; [intros (e & H); discriminate|intro H; inv H].
  - destruct (parseLine_cases line)
      as [[T P] | [[T (p & P & HP)] | [T (e & P & HP)]]];
      simpl ParseURIs_loop; rewrite P.
    + rewrite T. simpl filter. apply IH.
    + rewrite filter_nonblank_cons by assumption. rewrite IH. split.
      * intro H. now apply Exists_cons_tl.
      * intro H. inv H; [exfalso; eauto using parsesTo_not_rejected|assumption].
    + rewrite filter_nonblank_cons by assumption. split.
      * intros _. now apply Exists_cons_hd.
      * intros _. now exists e.
Qed.

(** C1, as the code has it. [ParseURIs] trims every line of the listing
    and drops the empty ones. It returns the entries of the remaining
    lines, in the order of the lines, exactly when [aptRegex] matches
    each of them and each size fits an [int]; it returns an error exactly
    when [aptRegex] fails on one of them or its size is out of range. *)
Theorem ParseURIs_spec (uris : str) :
  (forall rs, ParseURIs uris = Ok rs <->
              Forall2 parsesTo (nonblank_lines uris) rs) /\
  ((exists e, ParseURIs uris = Err e) <->
   Exists rejected (nonblank_lines uris)).
Proof.
  unfold ParseURIs, nonblank_lines. split.
  - intro rs. rewrite ParseURIs_loop_Ok. simpl. split.
    + now intros (rs' & -> & H).
    + intro H. now exists rs.
  - apply ParseURIs_loop_Err.
Qed.

(** C1 as stated fails: on this listing the one line matches [aptRegex],
    yet [ParseURIs] returns an error, since the size is past the range
    of [int]. *)
Lemma ParseURIs_matching_line_error :
  let uris := go "'http://deb/pool/x.deb' x.deb 9223372036854775808" in
  Forall (fun line => FindStringSubmatch aptRegex line <> None)
    (nonblank_lines uris) /\
  ParseURIs uris = Err (errNum strconv.ErrRange).
Proof.
  cbv zeta. split; [|vm_compute; reflexivity].
  replace (nonblank_lines _)
    with [go "'http://deb/pool/x.deb' x.deb 9223372036854775808"]
    by (vm_compute; reflexivity).
  constructor; [|constructor].
  vm_compute. discriminate.
Qed.

(** *** Text after a matching prefix *)

Lemma in_class_digits c : in_class digits c = true -> plain c = true.
Proof.
  unfold in_class, digits, in_range. simpl. rewrite orb_false_r.
  intro H. apply andb_true_iff in H. destruct H as [H1 H2].
  apply N.leb_le in H1, H2. apply plain_of_range.
  change (code "0") with 48%N in H1. change (code "9") with 57%N in H2. lia.
Qed.

Lemma in_class_hexdigits c : in_class hexdigits c = true -> plain c = true.
Proof.
  unfold in_class, hexdigits, in_range. simpl. rewrite orb_false_r.
  change (code "0") with 48%N. change (code "9") with 57%N.
  change (code "a") with 97%N. change (code "f") with 102%N.
  change (code "A") with 65%N. change (code "F") with 70%N.
  intro H. apply plain_of_range.
  repeat (apply orb_true_iff in H; destruct H as [H | H]);
    apply andb_true_iff in H; destruct H as [H1 H2];
    apply N.leb_le in H1, H2; lia.
Qed.

Lemma forallb_last (f : ascii -> bool) x (w : str) :
  forallb f (x :: w) = true ->
  exists w' d, x :: w = w' ++ [d] /\ f d = true.
Proof.
  intro H. destruct (@exists_last _ (x :: w)) as (w' & d & E); [discriminate|].
  exists w', d. split; [assumption|].
  rewrite E, forallb_app in H. apply andb_true_iff in H.
  destruct H as [_ H]. simpl in H. now rewrite andb_true_r in H.
Qed.

(** A text [aptRegex] matches starts with the quote and ends with a
    plain byte: the last size digit or the last digit of the digest. *)
Lemma aptRegex_shape whole rest :
  Matches aptRegex 0 whole rest ->
  exists w d, whole = "'"%char :: w ++ [d] /\ plain d = true.
Proof.
  unfold aptRegex. simpl Seq. intro M.
  repeat match goal with
         | H : Matches (Cat _ _) _ _ _ |- _ => inv H
         | H : Matches Bol _ _ _ |- _ => inv H
         | H : Matches (Lit _) _ _ _ |- _ => inv H
         | H : Matches (Cap _ _) _ _ _ |- _ => inv H
         | H : Matches (Star _) _ _ _ |- _ => inv H
         | H : Matches (Plus _) _ _ _ |- _ => inv H
         | H : Matches (Opt _) _ _ _ |- _ => inv H
         end.
  - (* no digest: the text ends with the last size digit *)
    match goal with
    | H : forallb (in_class digits) _ = true |- _ =>
        apply forallb_last in H; destruct H as (w' & d & -> & D)
    end.
    match goal with
    | |- exists _ _, [] ++ _ ++ ?a ++ _ ++ ?b ++ ?c ++ ?e ++ _ ++ [] = _ /\ _ =>
        exists (a ++ ["'"%char] ++ b ++ c ++ e ++ w'), d
    end.
    split; [|now apply in_class_digits].
    simpl. rewrite app_nil_r. repeat (rewrite <- app_assoc; simpl). reflexivity.
  - (* digest: the text ends with its last digit *)
    match goal with
    | H : forallb (in_class hexdigits) _ = true |- _ =>
        apply forallb_last in H; destruct H as (w' & d & -> & D)
    end.
    match goal with
    | |- exists _ _,
          [] ++ _ ++ ?a ++ _ ++ ?b ++ ?c ++ ?e ++ ?f ++ ?g ++ ?h ++ _ = _ /\ _ =>
        exists (a ++ ["'"%char] ++ b ++ c ++ e ++ f ++ g ++ h ++ w'), d
    end.
    split; [|now apply in_class_hexdigits].
    simpl. repeat (rewrite <- app_assoc; simpl). reflexivity.
Qed.

Lemma quote_plain : plain "'" = true.
Proof. reflexivity. Qed.

(** If [aptRegex] finds a match in [p], it finds one in the trimmed
    [p ++ extra] for any [extra]. *)
Lemma aptRegex_prefix p extra :
  FindStringSubmatch aptRegex p <> None ->
  exists m c l,
    TrimSpace (p ++ extra) = c :: l /\
    FindStringSubmatch aptRegex (TrimSpace (p ++ extra)) = Some m.
Proof.
  unfold FindStringSubmatch at 1.
  destruct (find aptRegex 0 p) as [[whole cs]|] eqn:F; [intros _|congruence].
  apply find_sound in F; [|reflexivity]. destruct F as (rest & -> & M).
  destruct (aptRegex_shape M) as (w & d & -> & Hd).
  simpl. rewrite <- !app_assoc. simpl.
  destruct (@TrimSpace_keeps "'" w d (rest ++ extra) quote_plain Hd) as (t' & T).
  rewrite T.
  assert (find aptRegex 0 (("'"%char :: w ++ [d]) ++ t') <> None) as C.
  { apply find_complete; [reflexivity|].
    apply Matches_rest with (1 := M). reflexivity. }
  replace (("'"%char :: w ++ [d]) ++ t') with ("'"%char :: w ++ d :: t') in C
    by (simpl; now rewrite <- app_assoc).
  unfold FindStringSubmatch.
  destruct (find aptRegex 0 ("'"%char :: w ++ d :: t')) as [[wh cs2]|];
    [|congruence].
  eexists _, _, _. split; reflexivity.
Qed.

(** C9, as the code has it. When [aptRegex] finds a match in [p], it
    also finds one in the line [p ++ extra] for any text [extra] on the
    same line, so the line is never refused as unparseable. The entry is
    read off the match in the whole trimmed line, which can reach into
    [extra], and the line is an error when the size of that match is out
    of the range of [int]. *)
Theorem ParseURIs_trailing_text (p extra : str) :
  FindStringSubmatch aptRegex p <> None ->
  forallb (fun c => negb (byte_eqb c "010")) (p ++ extra) = true ->
  exists m,
    FindStringSubmatch aptRegex (TrimSpace (p ++ extra)) = Some m /\
    ParseURIs (p ++ extra) =
      match strconv.Atoi (nth 3 m []) with
      | Ok n => Ok [entryOf m n]
      | Err e => Err (errNum e)
      end.
Proof.
  intros Hp Hnl.
  destruct (aptRegex_prefix p extra Hp) as (m & c & l & T & F).
  exists m. split; [assumption|].
  unfold ParseURIs. rewrite Split_one by assumption.
  simpl. unfold parseLine. rewrite T in *. rewrite F.
  destruct (strconv.Atoi (nth 3 m [])); [|reflexivity].
  unfold entryOf. now rewrite sha256_field.
Qed.

Lemma ParseURIs_trailing_text_witness :
  exists m,
    FindStringSubmatch aptRegex
      (TrimSpace (go "'http://deb/x.deb' x.deb 12" ++ go " MD5Sum:0f"))
    = Some m /\
    ParseURIs (go "'http://deb/x.deb' x.deb 12" ++ go " MD5Sum:0f") =
      match strconv.Atoi (nth 3 m []) with
      | Ok n => Ok [entryOf m n]
      | Err e => Err (errNum e)
      end.
Proof.
  apply (@ParseURIs_trailing_text (go "'http://deb/x.deb' x.deb 12")
           (go " MD5Sum:0f")).
  - vm_compute. discriminate.
  - vm_compute. reflexivity.
Defined.

(** C9 as stated fails: the prefix matches and parses on its own, and
    one more digit after it makes [ParseURIs] return an error. *)
Lemma ParseURIs_trailing_text_error :
  let p := go "'http://deb/x.deb' x.deb 9223372036854775807" in
  let extra := go "0" in
  FindStringSubmatch aptRegex p <> None /\
  (exists rs, ParseURIs p = Ok rs) /\
  ParseURIs (p ++ extra) = Err (errNum strconv.ErrRange).
Proof.
  cbv zeta. split; [vm_compute; discriminate|].
  split; [eexists; vm_compute; reflexivity|vm_compute; reflexivity].
Qed.

(** *** [DownloadFiles] *)

Lemma copiesOf_Copy prev input src dest info :
  copiesOf (Some (Copy prev input src dest info))
  = copiesOf prev ++ [(input, src, dest, info)].
Proof. destruct prev; reflexivity. Qed.

Lemma DownloadFiles_loop_copies dest info files : forall action,
  copiesOf (DownloadFiles_loop files dest info action)
  = copiesOf action
    ++ map (fun f => (httpNode f, filename f, dest, info)) files.
Proof.
  induction files as [|f files IH]; intro action; simpl.
  - now rewrite app_nil_r.
  - rewrite IH, copiesOf_Copy, <- app_assoc. simpl.
    do 3 f_equal. unfold httpNode. now destruct (sha256 f).
Qed.

(** C2. [DownloadFiles] returns a File node over [base] whose copies,
    in the order they are chained, are one per entry in the order of the
    entries. Each copies from the HTTP source of the entry's URI, which
    carries the entry's filename and, when the entry has a digest, the
    checksum [sha256:] followed by that digest unchanged; an entry with
    an empty digest gets no checksum option. *)
Theorem DownloadFiles_http_nodes (i : PackageInvocation) (base : State)
  (files : list PackageDownload) (destination : str) :
  exists action copts info,
    DownloadFiles i base files destination = (File base action copts, None) /\
    copiesOf action
    = map (fun f => (httpNode f, filename f, destination, info)) files /\
    inputsOf action = map httpNode files.
Proof.
  unfold DownloadFiles. eexists _, _, _. split; [reflexivity|].
  assert (forall info,
    copiesOf (DownloadFiles_loop files destination info None)
    = map (fun f => (httpNode f, filename f, destination, info)) files) as H.
  { intro info. now rewrite DownloadFiles_loop_copies. }
  split; [apply H|].
  unfold inputsOf. rewrite H, map_map. reflexivity.
Qed.

(** *** [Dispatch] *)

Section DispatchFacts.
Variable withShell : Image -> list str -> list str.

Lemma updateScript_eq :
  Join [ go "mkdir -p /btidor.syntax/state/lists/partial";
         go "apt-get update " ++ aptions;
         go "cp -r /btidor.syntax/state /btidor.syntax/backup" ] (go " && ")
  = updateScript.
Proof. vm_compute. reflexivity. Qed.

Lemma installScript_eq names :
  Join [ go "apt-get install --no-download " ++ aptions ++ go " "
         ++ Join names (go " ") ] (go " && ")
  = installScript names.
Proof.
  vm_compute. reflexivity.
Qed.

(** The two execs [Dispatch] builds before it turns to the engine, and
    the request it makes. *)
Lemma Dispatch_request i :
  exists download img1 img2 k,
    let update :=
      baseOpts withShell i (updateStage i) (image (d i)) updateScript
      ++ [ AddMount (go "/btidor.syntax/state") (state (d i))
             [AsPersistentCacheDir (go "btidor.syntax") CacheMountShared] ] in
    let tmp := RunRoot (RunRoot (state (d i)) update) download in
    Dispatch withShell i = ReadFile tmp installPath k /\
    Shell img1 = Shell (image (d i)) /\ Shell img2 = Shell (image (d i)) /\
    map EmptyLayer (history img2)
    = map EmptyLayer (history (image (d i))) ++ [true; true] /\
    forall r,
      k r =
      match r with
      | Err e => Return (set_image i img2, Some e)
      | Ok data =>
          match ParseURIs data with
          | Err e => Return (set_image i img2, Some e)
          | Ok uris =>
              let acc :=
                fst (DownloadFiles i tmp uris
                       (go "/btidor.syntax/cache/archives/")) in
              let st :=
                RunRoot (state (d i))
                  (baseOpts withShell i (installStage i) img2
                     (installScript (PackageNames (cmd i)))
                   ++ [ AddMount (go "/btidor.syntax") acc
                          [SourcePath (go "/btidor.syntax")] ]) in
              Return
                (set_state
                   (set_image i
                      {| Shell := Shell img2;
                         history := history img2 ++
                           [{| CreatedBy := installStage i;
                               EmptyLayer := false;
                               Created := epoch (d i) |}] |}) st,
                 None)
          end
      end.
Proof.
  set (h1 := {| CreatedBy := updateStage i; EmptyLayer := true;
                Created := epoch (d i) |}).
  set (h2 := {| CreatedBy := downloadStage i; EmptyLayer := true;
                Created := epoch (d i) |}).
  set (img1 := {| Shell := Shell (image (d i));
                  history := history (image (d i)) ++ [h1] |}).
  set (img2 := {| Shell := Shell (image (d i));
                  history := (history (image (d i)) ++ [h1]) ++ [h2] |}).
  unfold Dispatch, Run, commitToHistory, baseOpts.
  rewrite updateScript_eq.
  cbn [set_image image d ignoreCache epoch state cmd updateStage
       downloadStage installStage Shell history].
  destruct (ignoreCache (d i));
    (eexists _, img1, img2, _;
     cbv zeta; split; [reflexivity|];
     split; [reflexivity|]; split; [reflexivity|]; split;
     [ unfold img2; cbn [history]; rewrite !map_app, <- app_assoc;
       reflexivity |];
     intros [data|e]; [|reflexivity];
     destruct (ParseURIs data) as [uris|e]; [|reflexivity];
     cbn [DownloadFiles fst set_image image d ignoreCache epoch state cmd
          updateStage downloadStage installStage Shell history];
     rewrite installScript_eq; reflexivity).
Qed.

(** C5. Every dispatch builds the update exec over the stage root
    first: one shell line that makes the partial-lists directory, runs
    [apt-get update] with the option overrides and copies
    [/btidor.syntax/state] to [/btidor.syntax/backup], with a cache mount
    at [/btidor.syntax/state] of id [btidor.syntax] and sharing mode
    shared. The download exec is built over it and their root is what
    the engine is asked to solve. *)
Theorem Dispatch_update_exec (i : PackageInvocation) :
  exists download k,
    Dispatch withShell i =
    ReadFile
      (RunRoot
         (RunRoot (state (d i))
            ([ AddEnv (go "DEBIAN_FRONTEND") (go "noninteractive");
               Constraint (dfCmd (cmd i));
               Constraint
                 (location_opt (location_ (pkg_withNameAndCode (cmd i))));
               Constraint (WithCustomName (updateStage i));
               Args (withShell (image (d i)) [updateScript]) ]
             ++ (if ignoreCache (d i) then [Constraint IgnoreCache] else [])
             ++ [ AddMount (go "/btidor.syntax/state") (state (d i))
                    [ AsPersistentCacheDir (go "btidor.syntax")
                        CacheMountShared ] ]))
         download)
      installPath k.
Proof.
  destruct (Dispatch_request i) as (download & _ & _ & k & H & _).
  exists download, k. cbv zeta in H. rewrite H. unfold baseOpts.
  now rewrite <- app_assoc.
Qed.

(** C3. When a dispatch comes back without error, the stage root it
    leaves is the install exec: it runs over the stage root the dispatch
    started from, its shell line is [apt-get install --no-download] with
    the option overrides and the package names, and it mounts at
    [/btidor.syntax], with source path [/btidor.syntax], the File node
    [DownloadFiles] built over the download exec from the parsed listing.
    Of the three history entries the dispatch appends, only the last,
    the install one, is not an empty layer. *)
Theorem Dispatch_install_exec (engine : State -> str -> result error str)
  (i i' : PackageInvocation) :
  run engine (Dispatch withShell i) = (i', None) ->
  exists update download data uris img,
    let tmp := RunRoot (RunRoot (state (d i)) update) download in
    engine tmp installPath = Ok data /\
    ParseURIs data = Ok uris /\
    Shell img = Shell (image (d i)) /\
    state (d i') =
      RunRoot (state (d i))
        ([ AddEnv (go "DEBIAN_FRONTEND") (go "noninteractive");
           Constraint (dfCmd (cmd i));
           Constraint
             (location_opt (location_ (pkg_withNameAndCode (cmd i))));
           Constraint (WithCustomName (installStage i));
           Args (withShell img [installScript (PackageNames (cmd i))]) ]
         ++ (if ignoreCache (d i) then [Constraint IgnoreCache] else [])
         ++ [ AddMount (go "/btidor.syntax")
                (fst (DownloadFiles i tmp uris
                        (go "/btidor.syntax/cache/archives/")))
                [SourcePath (go "/btidor.syntax")] ]) /\
    map EmptyLayer (history (image (d i')))
    = map EmptyLayer (history (image (d i))) ++ [true; true; false].
Proof.
  destruct (Dispatch_request i) as (download & img1 & img2 & k & H).
  cbv zeta in H. destruct H as (H & _ & S2 & HL & Hk).
  rewrite H. cbn [run]. rewrite Hk. intro R.
  eexists _, download.
  destruct (engine _ installPath) as [data|e] eqn:E;
    [|cbn [run] in R; discriminate].
  destruct (ParseURIs data) as [uris|e] eqn:P;
    [|cbn [run] in R; discriminate].
  exists data, uris, img2. cbv zeta.
  split; [exact E|]. split; [exact P|]. split; [assumption|].
  cbn [run] in R. injection R as <-.
  cbn [set_state set_image state d image history].
  split.
  - unfold baseOpts. now rewrite <- app_assoc.
  - rewrite map_app, HL, <- app_assoc. reflexivity.
Qed.

(** C4, as the code has it. When the listing the engine reads back has
    no line left after trimming, [ParseURIs] gives the empty list,
    [DownloadFiles] builds its File node without a copy action, and the
    dispatch goes on to the install exec over that node and returns no
    error. *)
Theorem Dispatch_empty_listing (engine : State -> str -> result error str)
  (i : PackageInvocation) (data : str) :
  (forall st, engine st installPath = Ok data) ->
  nonblank_lines data = [] ->
  ParseURIs data = Ok [] /\
  exists i' opts base copts,
    run engine (Dispatch withShell i) = (i', None) /\
    state (d i') =
      RunRoot (state (d i))
        (opts ++ [ AddMount (go "/btidor.syntax") (File base None copts)
                     [SourcePath (go "/btidor.syntax")] ]).
Proof.
  intros HE HB.
  assert (ParseURIs data = Ok []) as P.
  { unfold ParseURIs. apply ParseURIs_loop_Ok. exists []. split; [reflexivity|].
    unfold nonblank_lines in HB. rewrite HB. constructor. }
  split; [assumption|].
  destruct (Dispatch_request i) as (download & img1 & img2 & k & H).
  cbv zeta in H. destruct H as (H & _ & _ & _ & Hk).
  rewrite H. cbn [run]. rewrite Hk, HE, P. cbv zeta. cbn [run].
  eexists _, _, _, _. split; [reflexivity|].
  cbn [set_state set_image state d DownloadFiles DownloadFiles_loop fst].
  reflexivity.
Qed.

(** A dispatch returns no error exactly when the engine returns the
    listing and every line of it parses. *)
Lemma Dispatch_no_error_iff (engine : State -> str -> result error str)
  (i : PackageInvocation) :
  exists st,
    snd (run engine (Dispatch withShell i)) = None <->
    exists data uris,
      engine st installPath = Ok data /\ ParseURIs data = Ok uris.
Proof.
  destruct (Dispatch_request i) as (download & img1 & img2 & k & H).
  cbv zeta in H. destruct H as (H & _ & _ & _ & Hk).
  match type of H with
  | _ = ReadFile ?tmp _ _ => exists tmp
  end.
  rewrite H. cbn [run]. rewrite Hk.
  destruct (engine _ installPath) as [data|e] eqn:E.
  - destruct (ParseURIs data) as [uris|e] eqn:P; cbn [run snd].
    + split; [intros _; now exists data, uris|intros _; reflexivity].
    + split; [discriminate|]. intros (data' & uris & E' & P'). congruence.
  - cbn [run snd]. split; [discriminate|].
    intros (data' & uris & E' & _). discriminate.
Qed.

End DispatchFacts.

Lemma Dispatch_install_exec_witness :
  let i' := fst (run engine_listing (Dispatch withShell_sh nginxInvocation)) in
  exists update download data uris img,
    let tmp := RunRoot (RunRoot (Root (go "ubuntu")) update) download in
    engine_listing tmp installPath = Ok data /\
    ParseURIs data = Ok uris /\
    Shell img = [] /\
    state (d i') =
      RunRoot (Root (go "ubuntu"))
        ([ AddEnv (go "DEBIAN_FRONTEND") (go "noninteractive");
           Constraint (dfCmd (cmd nginxInvocation));
           Constraint (location_opt [(2, 0, 2, 15)]);
           Constraint (WithCustomName (go "ADD (apt install) nginx"));
           Args (withShell_sh img [installScript [go "nginx"]]) ]
         ++ []
         ++ [ AddMount (go "/btidor.syntax")
                (fst (DownloadFiles nginxInvocation tmp uris
                        (go "/btidor.syntax/cache/archives/")))
                [SourcePath (go "/btidor.syntax")] ]) /\
    map EmptyLayer (history (image (d i'))) = [] ++ [true; true; false].
Proof.
  apply (@Dispatch_install_exec withShell_sh engine_listing nginxInvocation
           (fst (run engine_listing (Dispatch withShell_sh nginxInvocation)))).
  vm_compute. reflexivity.
Defined.

Lemma Dispatch_empty_listing_witness :
  ParseURIs [] = Ok [] /\
  exists i' opts base copts,
    run engine_empty (Dispatch withShell_sh nginxInvocation) = (i', None) /\
    state (d i') =
      RunRoot (Root (go "ubuntu"))
        (opts ++ [ AddMount (go "/btidor.syntax") (File base None copts)
                     [SourcePath (go "/btidor.syntax")] ]).
Proof.
  apply (@Dispatch_empty_listing withShell_sh engine_empty nginxInvocation []).
  - intro st. reflexivity.
  - vm_compute. reflexivity.
Defined.

(** C4 as stated fails: apt printed no URI, the listing is empty, and
    the dispatch returns no error. *)
Lemma Dispatch_no_uris_no_error :
  nonblank_lines [] = [] /\
  snd (run engine_empty (Dispatch withShell_sh nginxInvocation)) = None.
Proof. split; vm_compute; reflexivity. Qed.

End package_facts.

(** ** The order of strings and [slices.Sort] *)
Module slices_facts.
Import slices.

Lemma str_ltb_irrefl a : str_ltb a a = false.
Proof.
  induction a as [|x a IH]; simpl; [reflexivity|].
  now rewrite N.ltb_irrefl.
Qed.

Lemma str_ltb_trans a : forall b c,
  str_ltb a b = true -> str_ltb b c = true -> str_ltb a c = true.
Proof.
  induction a as [|x a IH]; intros [|y b] [|z c]; simpl; try congruence.
  destruct (N.ltb (code x) (code y)) eqn:Exy.
  - intros _. apply N.ltb_lt in Exy.
    destruct (N.ltb (code y) (code z)) eqn:Eyz.
    + intros _. apply N.ltb_lt in Eyz.
      now replace (N.ltb (code x) (code z)) with true
        by (symmetry; apply N.ltb_lt; lia).
    + destruct (N.ltb (code z) (code y)) eqn:Ezy; [discriminate|].
      apply N.ltb_ge in Eyz, Ezy. intros _.
      now replace (N.ltb (code x) (code z)) with true
        by (symmetry; apply N.ltb_lt; lia).
  - destruct (N.ltb (code y) (code x)) eqn:Eyx; [discriminate|].
    apply N.ltb_ge in Exy, Eyx. assert (code x = code y) as E by lia.
    rewrite E. intro Hab.
    destruct (N.ltb (code y) (code z)); [reflexivity|].
    destruct (N.ltb (code z) (code y)); [discriminate|].
    now apply IH.
Qed.

Lemma str_ltb_total a : forall b,
  str_ltb a b = false -> str_ltb b a = false -> a = b.
Proof.
  induction a as [|x a IH]; intros [|y b]; simpl; try congruence.
  destruct (N.ltb (code x) (code y)) eqn:Exy; [discriminate|].
  destruct (N.ltb (code y) (code x)) eqn:Eyx; [discriminate|].
  apply N.ltb_ge in Exy, Eyx. intros H1 H2.
  assert (x = y) as -> by (apply code_inj; lia).
  f_equal. now apply IH.
Qed.

Lemma str_le_total a b : str_leb a b = false -> str_le b a.
Proof.
  unfold str_le, str_leb. intro H. apply negb_false_iff in H.
  apply negb_true_iff.
  destruct (str_ltb a b) eqn:E; [|reflexivity].
  pose proof (str_ltb_trans _ _ _ E H) as C.
  now rewrite str_ltb_irrefl in C.
Qed.

Lemma str_le_antisym a b : str_le a b -> str_le b a -> a = b.
Proof.
  unfold str_le, str_leb. intros H1 H2. apply negb_true_iff in H1, H2.
  now apply str_ltb_total.
Qed.

Lemma str_le_trans a b c : str_le a b -> str_le b c -> str_le a c.
Proof.
  unfold str_le, str_leb. intros H1 H2. apply negb_true_iff in H1, H2.
  apply negb_true_iff. destruct (str_ltb c a) eqn:E; [|reflexivity].
  destruct (str_ltb a b) eqn:Eab.
  - now rewrite (str_ltb_trans _ _ _ E Eab) in H2.
  - assert (a = b) as -> by now apply str_ltb_total. congruence.
Qed.

Lemma insert_perm x l : Permutation (x :: l) (insert x l).
Proof.
  induction l as [|y l IH]; simpl; [reflexivity|].
  destruct (str_leb x y); [reflexivity|].
  rewrite perm_swap. now constructor.
Qed.

Lemma Sort_perm l : Permutation l (Sort l).
Proof.
  induction l as [|x l IH]; simpl; [constructor|].
  rewrite <- insert_perm. now constructor.
Qed.

Lemma insert_sorted x l : Sorted str_le l -> Sorted str_le (insert x l).
Proof.
  induction 1 as [|y l HS IH HR]; simpl.
  - repeat constructor.
  - destruct (str_leb x y) eqn:E.
    + constructor; [now constructor|now constructor].
    + constructor; [assumption|].
      apply str_le_total in E.
      destruct l as [|z l]; simpl; [now constructor|].
      destruct (str_leb x z); constructor; [assumption|].
      now inversion HR.
Qed.

Lemma Sort_sorted l : Sorted str_le (Sort l).
Proof.
  induction l as [|x l IH]; simpl; [constructor|now apply insert_sorted].
Qed.

(** A list of strings has one sorted arrangement: whatever algorithm
    [slices.Sort] runs, its result is this one. *)
Lemma sorted_permutation_unique l1 : forall l2,
  Sorted str_le l1 -> Sorted str_le l2 -> Permutation l1 l2 -> l1 = l2.
Proof.
  assert (Relations_1.Transitive str_le) as T
    by (intros a b c; apply str_le_trans).
  induction l1 as [|x l1 IH]; intros l2 S1 S2 P.
  - apply Permutation_nil in P. now subst.
  - destruct l2 as [|y l2].
    { apply Permutation_sym, Permutation_nil in P. discriminate. }
    apply Sorted_StronglySorted in S1, S2; try assumption.
    inversion S1 as [|? ? S1' F1]; subst.
    inversion S2 as [|? ? S2' F2]; subst.
    assert (x = y) as ->.
    { assert (In y (x :: l1)) as Hy
        by (apply Permutation_in with (1 := Permutation_sym P); now left).
      assert (In x (y :: l2)) as Hx
        by (apply Permutation_in with (1 := P); now left).
      rewrite Forall_forall in F1, F2.
      destruct Hy as [->|Hy]; [reflexivity|].
      destruct Hx as [->|Hx]; [reflexivity|].
      apply str_le_antisym; auto. }
    f_equal. apply IH.
    + now apply StronglySorted_Sorted.
    + now apply StronglySorted_Sorted.
    + now apply Permutation_cons_inv in P.
Qed.

End slices_facts.

(** ** The instruction parser *)
Module instructions_facts.
Import regexp regexp_facts instructions slices_facts.

(** *** [validStageName] *)

Lemma starK_Eol R (f : nat -> caps -> R) cl s : forall pos cs,
  starK cl pos s cs
    (fun pos' s' cs' =>
       match s' with [] => Some (f pos' cs') | _ :: _ => None end)
  <> None <-> forallb (in_class cl) s = true.
Proof.
  induction s as [|c s IH]; intros pos cs; simpl.
  - split; [reflexivity|discriminate].
  - destruct (in_class cl c); simpl.
    + rewrite <- (IH (S pos) cs).
      destruct (starK cl (S pos) s cs _); split; congruence.
    + split; congruence.
Qed.

Lemma in_range_single c x : in_range c (x, x) = byte_eqb c x.
Proof.
  unfold in_range. simpl. destruct (byte_eqb c x) eqn:E.
  - apply byte_eqb_eq in E. subst. now rewrite N.leb_refl.
  - apply andb_false_iff.
    destruct (N.leb (code x) (code c)) eqn:E1; [|now left].
    destruct (N.leb (code c) (code x)) eqn:E2; [|now right].
    apply N.leb_le in E1, E2.
    assert (c = x) by (apply code_inj; lia). subst.
    now rewrite byte_eqb_refl in E.
Qed.

Lemma nameClass_isNameByte c :
  in_class
    (Class false [("a", "z"); ("0", "9"); ("-", "-"); ("_", "_"); (".", ".")]%char)
    c
  = isNameByte c.
Proof.
  unfold in_class, isNameByte. simpl. rewrite !in_range_single, orb_false_r.
  unfold in_range, isLower, strconv.isDigit. simpl.
  now rewrite !orb_assoc.
Qed.

Lemma forallb_eq (f g : ascii -> bool) (l : str) :
  (forall c, f c = g c) -> forallb f l = forallb g l.
Proof.
  intro H. induction l as [|c l IH]; simpl; [reflexivity|].
  now rewrite H, IH.
Qed.

(** The expression accepts exactly the names its pattern describes. *)
Lemma validStageName_validName s :
  MatchString validStageName s = validName s.
Proof.
  unfold MatchString. rewrite find_anchored by reflexivity.
  unfold validStageName. simpl Seq. cbn [matchK Nat.eqb].
  destruct s as [|c s]; [reflexivity|]. simpl validName.
  replace (in_class (Class false [("a"%char, "z"%char)]) c) with (isLower c)
    by (unfold in_class, in_range, isLower; simpl; now rewrite orb_false_r).
  destruct (isLower c); [|reflexivity]. simpl andb.
  rewrite <- (forallb_eq _ _ s nameClass_isNameByte).
  pose proof (starK_Eol (fun pos' cs' => (firstn (pos' - 0) (c :: s), cs'))
                (Class false
                   [("a", "z"); ("0", "9"); ("-", "-"); ("_", "_");
                    (".", ".")]%char) s 1 []) as H.
  cbv beta in H.
  match goal with
  | |- match ?m with _ => _ end = _ => destruct m
  end.
  - symmetry. apply H. discriminate.
  - symmetry. apply not_true_is_false. intro F. apply H in F. congruence.
Qed.

Section ParseFacts.
Variable mapLower mapUpper : str -> str.
Variable foldUnicode : str -> str -> bool.
Variable BFlags_Parse : list flagDecl -> list str -> result error FlagSet.
Variable ParseDuration : str -> result error Duration.
Variable handleJSONArgs : list str -> (str -> bool) -> list str.
Variable MustParseHeredoc : str -> option Heredoc.
Variable ChompHeredocContent : str -> str.

(** *** [ADD] *)

(** C6, as the code has it. An [ADD] with fewer than two positional
    arguments whose flags parse is refused with the no-destination error
    unless [--apt] is set; with [--apt] it is accepted, as a Package
    instruction over the arguments it has. *)
Theorem parseAdd_arity (req : parseRequest) (fs : FlagSet) :
  BFlags_Parse addDecls (flags req) = Ok fs ->
  List.length (args req) < 2 ->
  parseAdd BFlags_Parse MustParseHeredoc ChompHeredocContent req
  = if str_eqb (Value (flag fs (go "apt"))) (go "true")
    then Ok (IsPackage {| pkg_withNameAndCode := newWithNameAndCode req;
                          PackageNames := args req |})
    else Err (errNoDestinationArgument (go "ADD")).
Proof.
  intros HF L. unfold parseAdd. cbn [excludePatternsEnabled app].
  unfold addDecls in HF. rewrite HF.
  destruct (str_eqb (Value (flag fs (go "apt"))) (go "true")); [reflexivity|].
  apply Nat.ltb_lt in L. now rewrite L.
Qed.

(** *** [FROM] *)

(** C7, as the code has it. In [FROM base AS name] the name is
    lower-cased first: it is accepted, and the stage takes the
    lower-cased name, exactly when the lower-cased name matches
    [^[a-z][a-z0-9-_.]*$]; otherwise the invalid-name error is returned. *)
Theorem parseBuildStageName_named (base as_ name : str) :
  strings.EqualFold foldUnicode as_ (go "as") = true ->
  parseBuildStageName mapLower foldUnicode [base; as_; name]
  = (if MatchString validStageName (strings.ToLower mapLower name)
     then Ok (strings.ToLower mapLower name)
     else Err (errInvalidStageName name)) /\
  MatchString validStageName (strings.ToLower mapLower name)
  = validName (strings.ToLower mapLower name).
Proof.
  intro A. split; [|apply validStageName_validName].
  unfold parseBuildStageName, EqualFold, ToLower. rewrite A.
  now destruct (MatchString validStageName (strings.ToLower mapLower name)).
Qed.

(** *** [HEALTHCHECK] *)

Lemma parseOptInterval_small (f : Flag) (dur : Duration) :
  Value f <> [] ->
  ParseDuration (Value f) = Ok dur ->
  dur <> 0%Z -> (dur < Millisecond)%Z ->
  parseOptInterval ParseDuration f = Err (errIntervalTooSmall (name f)).
Proof.
  intros V P N L. unfold parseOptInterval.
  destruct (Value f) as [|c v] eqn:E; [congruence|].
  rewrite P.
  replace (dur =? 0)%Z with false by (symmetry; now apply Z.eqb_neq).
  now replace (dur <? Millisecond)%Z with true
    by (symmetry; now apply Z.ltb_lt).
Qed.

Lemma parseOptInterval_unparsed (f : Flag) (e : error) :
  Value f <> [] ->
  ParseDuration (Value f) = Err e ->
  parseOptInterval ParseDuration f = Err e.
Proof.
  intros V P. unfold parseOptInterval.
  destruct (Value f) as [|c v] eqn:E; [congruence|]. now rewrite P.
Qed.

Lemma parseOptInterval_bad (f : Flag) :
  badInterval ParseDuration f ->
  exists e, parseOptInterval ParseDuration f = Err e.
Proof.
  intros (V & [(e & P) | (dur & P & N & L)]).
  - exists e. now apply parseOptInterval_unparsed.
  - eexists. eapply parseOptInterval_small; eassumption.
Qed.

(** C8, as the code has it. In a [HEALTHCHECK CMD] whose flags parse,
    the values of [--interval], [--timeout], [--start-period] and
    [--start-interval] are read as durations; the instruction is refused
    when one of them does not parse or is below one millisecond without
    being zero, and when [--retries] parses to a negative integer. A
    duration of zero passes [parseOptInterval] and reads as 0. *)
Theorem parseHealthcheck_rejects (req : parseRequest) (a0 : str)
  (rest : list str) (fs : FlagSet) :
  args req = a0 :: rest ->
  strings.ToUpper mapUpper a0 = go "CMD" ->
  BFlags_Parse healthcheckDecls (flags req) = Ok fs ->
  ((exists n, In n intervalFlags /\ badInterval ParseDuration (flag fs n)) \/
   (exists r, Value (flag fs (go "retries")) <> [] /\
              strconv.ParseInt (Value (flag fs (go "retries"))) 32 = Ok r /\
              (r < 0)%Z)) ->
  (exists e,
     parseHealthcheck mapUpper BFlags_Parse ParseDuration handleJSONArgs req
     = Err e) /\
  (forall f, ParseDuration (Value f) = Ok 0%Z ->
             parseOptInterval ParseDuration f = Ok 0%Z).
Proof.
  intros HA HT HF Hbad. split.
  2:{ intros f P. unfold parseOptInterval.
      destruct (Value f); [reflexivity|]. now rewrite P. }
  unfold parseHealthcheck, ToUpper. rewrite HA. cbv zeta.
  rewrite HT.
  change (str_eqb (go "CMD") (go "NONE")) with false.
  change (str_eqb (go "CMD") (go "CMD")) with true. cbn [negb].
  unfold healthcheckDecls in HF. rewrite HF.
  destruct (handleJSONArgs rest (attributes req)); [eexists; reflexivity|].
  destruct (parseOptInterval ParseDuration (flag fs (go "interval")))
    as [d1|e1] eqn:E1; [|eexists; reflexivity].
  destruct (parseOptInterval ParseDuration (flag fs (go "timeout")))
    as [d2|e2] eqn:E2; [|eexists; reflexivity].
  destruct (parseOptInterval ParseDuration (flag fs (go "start-period")))
    as [d3|e3] eqn:E3; [|eexists; reflexivity].
  destruct (parseOptInterval ParseDuration (flag fs (go "start-interval")))
    as [d4|e4] eqn:E4; [|eexists; reflexivity].
  destruct Hbad as [(n & Hin & B) | (r & V & P & L)].
  - exfalso. apply parseOptInterval_bad in B. destruct B as (e & B).
    unfold intervalFlags in Hin. cbn [In] in Hin.
    destruct Hin as [<- | [<- | [<- | [<- | []]]]]; congruence.
  - destruct (Value (flag fs (go "retries"))) as [|c v] eqn:EV; [congruence|].
    rewrite P.
    replace (r <? 0)%Z with true by (symmetry; now apply Z.ltb_lt).
    eexists; reflexivity.
Qed.

(** *** [EXPOSE] *)

(** C10. A parsed [EXPOSE] holds its ports in ascending byte-wise
    order: the list is sorted and is a rearrangement of the arguments as
    they were written. *)
Theorem parseExpose_sorted (req : parseRequest) (c : ExposeCommand) :
  parseExpose BFlags_Parse req = Ok c ->
  Sorted str_le (Ports c) /\ Permutation (args req) (Ports c).
Proof.
  unfold parseExpose. destruct (args req) as [|a l] eqn:HA; [discriminate|].
  destruct (BFlags_Parse [] (flags req)); [|discriminate].
  intro H. injection H as <-. cbn [Ports]. split.
  - apply (Sort_sorted (a :: l)).
  - apply (Sort_perm (a :: l)).
Qed.

End ParseFacts.

(** *** The theorems on examples *)

Lemma parseAdd_arity_witness :
  let req := request (go "ADD") [go "nginx"] [] false in
  parseAdd BFlags_Parse_model noHeredoc sameText req
  = if str_eqb (Value (flag (flagsOf addDecls req) (go "apt"))) (go "true")
    then Ok (IsPackage {| pkg_withNameAndCode := newWithNameAndCode req;
                          PackageNames := [go "nginx"] |})
    else Err (errNoDestinationArgument (go "ADD")).
Proof.
  apply (@parseAdd_arity BFlags_Parse_model noHeredoc sameText
           (request (go "ADD") [go "nginx"] [] false)
           (flagsOf addDecls (request (go "ADD") [go "nginx"] [] false))).
  - reflexivity.
  - simpl. lia.
Defined.

(** Without [--apt] one argument is refused. *)
Lemma parseAdd_one_argument :
  parseAdd BFlags_Parse_model noHeredoc sameText
    (request (go "ADD") [go "nginx"] [] false)
  = Err (errNoDestinationArgument (go "ADD")).
Proof. vm_compute. reflexivity. Qed.

(** C6 as stated fails: [ADD --apt nginx] has one positional argument
    and is accepted, as a Package instruction. *)
Lemma parseAdd_apt_one_argument :
  let req := request (go "ADD") [go "nginx"] [go "--apt"] false in
  List.length (args req) < 2 /\
  parseAdd BFlags_Parse_model noHeredoc sameText req
  = Ok (IsPackage {| pkg_withNameAndCode := newWithNameAndCode req;
                     PackageNames := [go "nginx"] |}).
Proof. cbv zeta. split; [simpl; lia|]. vm_compute. reflexivity. Qed.

Lemma parseBuildStageName_named_witness :
  parseBuildStageName sameText noFold
    [go "ubuntu"; go "AS"; go "Build-env.1"]
  = (if MatchString validStageName (strings.ToLower sameText (go "Build-env.1"))
     then Ok (strings.ToLower sameText (go "Build-env.1"))
     else Err (errInvalidStageName (go "Build-env.1"))) /\
  MatchString validStageName (strings.ToLower sameText (go "Build-env.1"))
  = validName (strings.ToLower sameText (go "Build-env.1")).
Proof.
  apply (@parseBuildStageName_named sameText noFold
           (go "ubuntu") (go "AS") (go "Build-env.1")).
  reflexivity.
Defined.

(** C7 as stated fails: the declared name [Builder] does not match the
    pattern and is accepted, as stage [builder]. *)
Lemma parseBuildStageName_upper_case :
  MatchString validStageName (go "Builder") = false /\
  parseBuildStageName sameText noFold [go "scratch"; go "AS"; go "Builder"]
  = Ok (go "builder").
Proof. split; vm_compute; reflexivity. Qed.

Lemma parseHealthcheck_rejects_witness :
  let req :=
    request (go "HEALTHCHECK")
      [go "CMD"; go "curl"; go "-f"; go "http://localhost/"]
      [go "--timeout=500us"; go "--retries=3"] false in
  (exists e,
     parseHealthcheck sameText BFlags_Parse_model ParseDuration_model
       handleJSONArgs_model req = Err e) /\
  (forall f, ParseDuration_model (Value f) = Ok 0%Z ->
             parseOptInterval ParseDuration_model f = Ok 0%Z).
Proof.
  apply (@parseHealthcheck_rejects sameText BFlags_Parse_model
           ParseDuration_model handleJSONArgs_model
           (request (go "HEALTHCHECK")
              [go "CMD"; go "curl"; go "-f"; go "http://localhost/"]
              [go "--timeout=500us"; go "--retries=3"] false)
           (go "CMD") [go "curl"; go "-f"; go "http://localhost/"]
           (flagsOf healthcheckDecls
              (request (go "HEALTHCHECK")
                 [go "CMD"; go "curl"; go "-f"; go "http://localhost/"]
                 [go "--timeout=500us"; go "--retries=3"] false))).
  - reflexivity.
  - reflexivity.
  - reflexivity.
  - left. exists (go "timeout"). split; [simpl; tauto|].
    split; [vm_compute; discriminate|].
    right. exists 500000%Z. split; [vm_compute; reflexivity|].
    split; [discriminate|reflexivity].
Defined.

(** The example above is refused, and so is a negative [--retries]. *)
Lemma parseHealthcheck_rejects_examples :
  parseHealthcheck sameText BFlags_Parse_model ParseDuration_model
    handleJSONArgs_model
    (request (go "HEALTHCHECK") [go "CMD"; go "true"]
       [go "--interval=500us"] false)
  = Err (errIntervalTooSmall (go "interval")) /\
  parseHealthcheck sameText BFlags_Parse_model ParseDuration_model
    handleJSONArgs_model
    (request (go "HEALTHCHECK") [go "CMD"; go "true"]
       [go "--retries=-1"] false)
  = Err (errRetriesNegative (-1)).
Proof. split; vm_compute; reflexivity. Qed.

(** C8 as stated fails: [--interval=0s] is given, is below one
    millisecond, and the instruction is accepted with interval 0. *)
Lemma parseHealthcheck_zero_interval :
  let req :=
    request (go "HEALTHCHECK") [go "CMD"; go "true"] [go "--interval=0s"]
      false in
  ParseDuration_model (go "0s") = Ok 0%Z /\
  (0 < Millisecond)%Z /\
  exists c,
    parseHealthcheck sameText BFlags_Parse_model ParseDuration_model
      handleJSONArgs_model req = Ok c /\
    Interval (Health c) = 0%Z.
Proof.
  cbv zeta. split; [vm_compute; reflexivity|].
  split; [reflexivity|].
  eexists. split; [vm_compute; reflexivity|reflexivity].
Qed.

Lemma parseExpose_sorted_witness :
  let req := request (go "EXPOSE") [go "80/tcp"; go "123/udp"] [] false in
  let c := {| Ports := [go "123/udp"; go "80/tcp"];
              exp_withNameAndCode := newWithNameAndCode req |} in
  Sorted str_le (Ports c) /\ Permutation (args req) (Ports c).
Proof.
  apply (@parseExpose_sorted BFlags_Parse_model
           (request (go "EXPOSE") [go "80/tcp"; go "123/udp"] [] false)).
  vm_compute. reflexivity.
Defined.

End instructions_facts.

(** ** The library models on examples *)
Module examples.
Import regexp dockerfile2llb.

Definition nbsp : str := [ascii_of_N 194; ascii_of_N 160].      (* U+00A0 *)
Definition emsp : str := [ascii_of_N 226; ascii_of_N 128; ascii_of_N 131]. (* U+2003 *)

Example TrimSpace_ascii :
  strings.TrimSpace ("009"%char :: go " 'u' f 1 " ++ ["013"%char])
  = go "'u' f 1".
Proof. vm_compute. reflexivity. Qed.

Example TrimSpace_unicode :
  strings.TrimSpace (go " " ++ nbsp ++ go "a b" ++ emsp ++ go " ") = go "a b".
Proof. vm_compute. reflexivity. Qed.

Example TrimSpace_invalid_utf8 :
  strings.TrimSpace (go "ab" ++ [ascii_of_N 226; ascii_of_N 128] ++ go " ")
  = go "ab" ++ [ascii_of_N 226; ascii_of_N 128].
Proof. vm_compute. reflexivity. Qed.

Example TrimSpace_only_spaces :
  strings.TrimSpace (go " " ++ emsp ++ nbsp) = [].
Proof. vm_compute. reflexivity. Qed.

Example Split_lines :
  strings.Split (go "a" ++ ["010"%char] ++ go "b" ++ ["010"%char]) "010"
  = [go "a"; go "b"; []].
Proof. vm_compute. reflexivity. Qed.

Example Atoi_values :
  strconv.Atoi (go "520494") = Ok 520494%Z /\
  strconv.Atoi (go "0000000000000000000000012") = Ok 12%Z /\
  strconv.Atoi (go "9223372036854775807") = Ok 9223372036854775807%Z /\
  strconv.Atoi (go "9223372036854775808") = Err strconv.ErrRange /\
  strconv.Atoi [] = Err strconv.ErrSyntax.
Proof. repeat split; vm_compute; reflexivity. Qed.

Example aptRegex_with_digest :
  FindStringSubmatch aptRegex
    (go "'http://deb/pool/n/nginx.deb' nginx.deb 520494 SHA256:0F3a9c")
  = Some [ go "'http://deb/pool/n/nginx.deb' nginx.deb 520494 SHA256:0F3a9c";
           go "http://deb/pool/n/nginx.deb"; go "nginx.deb"; go "520494";
           go " SHA256:0F3a9c"; go "0F3a9c" ].
Proof. vm_compute. reflexivity. Qed.

Example aptRegex_other_hash :
  FindStringSubmatch aptRegex
    (go "'http://deb/pool/n/nginx.deb' nginx.deb 520494 MD5Sum:5b6c")
  = Some [ go "'http://deb/pool/n/nginx.deb' nginx.deb 520494";
           go "http://deb/pool/n/nginx.deb"; go "nginx.deb"; go "520494";
           []; [] ].
Proof. vm_compute. reflexivity. Qed.

Example aptRegex_not_at_start :
  FindStringSubmatch aptRegex (go "x 'http://deb/n.deb' n.deb 1") = None.
Proof. vm_compute. reflexivity. Qed.

(** The filename class excludes the space only, so with tabs as
    separators the greedy filename runs on to the last field. *)
Example aptRegex_tabs :
  FindStringSubmatch aptRegex
    (go "'u'" ++ ["009"%char] ++ go "f" ++ ["009"%char] ++ go "1"
     ++ ["009"%char] ++ go "2")
  = Some [ go "'u'" ++ ["009"%char] ++ go "f" ++ ["009"%char] ++ go "1"
           ++ ["009"%char] ++ go "2";
           go "u"; go "f" ++ ["009"%char] ++ go "1"; go "2"; []; [] ].
Proof. vm_compute. reflexivity. Qed.

Example ParseURIs_listing :
  ParseURIs nginxListing
  = Ok [ {| uri := go "http://archive.ubuntu.com/pool/main/n/nginx/nginx_1.24.0_amd64.deb";
            filename := go "nginx_1.24.0_amd64.deb";
            size := 520494; sha256 := go "0f3a9c" |};
         {| uri := go "http://archive.ubuntu.com/pool/main/n/nginx/nginx-common_1.24.0_all.deb";
            filename := go "nginx-common_1.24.0_all.deb";
            size := 31294; sha256 := [] |} ].
Proof. vm_compute. reflexivity. Qed.

Example Sort_ports :
  slices.Sort [go "80/tcp"; go "123/udp"; go "8080"]
  = [go "123/udp"; go "80/tcp"; go "8080"].
Proof. vm_compute. reflexivity. Qed.

End examples.

(** ** The groups of a match, and the greedy choice *)
Module regexp_groups_facts.
Import regexp regexp_facts regexp_groups.

Section Search.
Variable R : Type.
Implicit Types (k : cont R) (cs : caps).

(** A successful search went through a text [r] matches, and the
    continuation saw the groups of that match added to the ones it
    started from. *)
Lemma matchK_groups r : forall pos s cs k x,
  matchK r pos s cs k = Some x ->
  exists w rest add,
    s = w ++ rest /\ MatchesC r pos w rest add /\
    k (pos + List.length w) rest (add ++ cs) = Some x.
Proof.
  induction r as [ | | l | cl | cl | cl | r1 IH1 r2 IH2 | r IH | n r IH ];
    intros pos s cs k x H; simpl in H.
  - destruct (Nat.eqb pos 0) eqn:E; [|discriminate].
    apply Nat.eqb_eq in E. subst pos.
    exists [], s, []. repeat split; [constructor|assumption].
  - destruct s; [|discriminate].
    exists [], [], []. simpl. rewrite Nat.add_0_r.
    repeat split; [constructor|assumption].
  - destruct (stripPrefix l s) as [s'|] eqn:E; [|discriminate].
    apply stripPrefix_Some in E. subst s.
    exists l, s', []. repeat split; [constructor|assumption].
  - destruct s as [|c s]; [discriminate|].
    destruct (in_class cl c) eqn:Hc; [|discriminate].
    exists [c], s, []. simpl. rewrite Nat.add_1_r.
    repeat split; [now constructor|assumption].
  - apply starK_sound in H. destruct H as (w & rest & -> & Hw & Hk).
    exists w, rest, []. repeat split; [now constructor|assumption].
  - destruct s as [|c s]; [discriminate|].
    destruct (in_class cl c) eqn:Hc; [|discriminate].
    apply starK_sound in H. destruct H as (w & rest & -> & Hw & Hk).
    exists (c :: w), rest, []. simpl. rewrite Nat.add_succ_r.
    repeat split; [|assumption].
    constructor. simpl. now rewrite Hc, Hw.
  - apply IH1 in H. destruct H as (w1 & rest1 & c1 & -> & M1 & H).
    apply IH2 in H. destruct H as (w2 & rest & c2 & -> & M2 & H).
    exists (w1 ++ w2), rest, (c2 ++ c1).
    rewrite length_app, Nat.add_assoc.
    repeat split;
      [now rewrite app_assoc|now constructor|now rewrite <- app_assoc].
  - destruct (matchK r pos s cs k) as [y|] eqn:E.
    + injection H as ->. apply IH in E.
      destruct E as (w & rest & c & -> & M & Hk).
      exists w, rest, c. repeat split; [now apply COptTake|assumption].
    + exists [], s, []. simpl. rewrite Nat.add_0_r.
      repeat split; [apply COptSkip|assumption].
  - apply IH in H. destruct H as (w & rest & c & -> & M & Hk).
    exists w, rest, ((n, w) :: c). repeat split; [now constructor|].
    replace (pos + List.length w - pos) with (List.length w) in Hk by lia.
    rewrite firstn_app, firstn_all, Nat.sub_diag in Hk. simpl in Hk.
    now rewrite app_nil_r in Hk.
Qed.

(** The greedy choice: when the run of class bytes cannot be made
    longer and the continuation accepts what follows it, that is the
    answer. *)
Lemma starK_take cl w : forall pos rest cs k x,
  forallb (in_class cl) w = true ->
  stops cl rest = true ->
  k (pos + List.length w) rest cs = Some x ->
  starK cl pos (w ++ rest) cs k = Some x.
Proof.
  induction w as [|c w IH]; intros pos rest cs k x Hw Hs Hk.
  - simpl in *. rewrite Nat.add_0_r in Hk.
    destruct rest as [|c rest]; simpl in *; [assumption|].
    destruct (in_class cl c); [discriminate|assumption].
  - simpl in Hw. apply andb_true_iff in Hw. destruct Hw as [Hx Hw].
    simpl. rewrite Hx. rewrite (IH (S pos) rest cs k x); auto.
    simpl in Hk. now rewrite Nat.add_succ_r in Hk.
Qed.

Lemma plusK_take cl c w pos rest cs k x :
  forallb (in_class cl) (c :: w) = true ->
  stops cl rest = true ->
  k (pos + List.length (c :: w)) rest cs = Some x ->
  matchK (Plus cl) pos ((c :: w) ++ rest) cs k = Some x.
Proof.
  intros Hw Hs Hk. simpl in Hw. apply andb_true_iff in Hw.
  destruct Hw as [Hx Hw]. simpl. rewrite Hx.
  apply starK_take; auto.
  simpl in Hk. now rewrite Nat.add_succ_r in Hk.
Qed.

Lemma litK_take l pos s cs k :
  matchK (Lit l) pos (l ++ s) cs k = k (pos + List.length l) s cs.
Proof. simpl. now rewrite stripPrefix_app. Qed.

End Search.

Lemma firstn_take (pos : nat) (w rest : str) :
  firstn (pos + List.length w - pos) (w ++ rest) = w.
Proof.
  replace (pos + List.length w - pos) with (List.length w) by lia.
  rewrite firstn_app, firstn_all, Nat.sub_diag. simpl. apply app_nil_r.
Qed.

(** The search follows its first choice whenever the continuation
    accepts what that choice leaves. *)
Lemma Takes_matchK r pos w rest add :
  Takes r pos w rest add ->
  forall (R : Type) cs (k : cont R) x,
    k (pos + List.length w) rest (add ++ cs) = Some x ->
    matchK r pos (w ++ rest) cs k = Some x.
Proof.
  induction 1 as
    [ rest | l pos rest | cl c pos rest Hc | cl w pos rest Hw Hs
    | cl c w pos rest Hw Hs
    | r1 r2 pos w1 w2 rest c1 c2 _ IH1 _ IH2
    | r pos rest HF | r pos w rest c _ IH | n r pos w rest c _ IH ];
    intros R cs k x Hk.
  - exact Hk.
  - rewrite litK_take. exact Hk.
  - simpl in *. rewrite Hc. now rewrite Nat.add_1_r in Hk.
  - now apply starK_take.
  - now apply plusK_take.
  - cbn [matchK]. rewrite <- app_assoc. apply IH1. apply IH2.
    now rewrite length_app, Nat.add_assoc, <- app_assoc in Hk.
  - cbn [matchK]. simpl in *. rewrite HF. now rewrite Nat.add_0_r in Hk.
  - cbn [matchK]. now rewrite (IH R cs k x Hk).
  - cbn [matchK]. apply IH. now rewrite firstn_take.
Qed.

(** [TCat] with the pieces of the text named. *)
Lemma Takes_Cat r1 r2 pos w1 w2 w s2 rest c1 c2 :
  w = w1 ++ w2 -> s2 = w2 ++ rest ->
  Takes r1 pos w1 s2 c1 ->
  Takes r2 (pos + List.length w1) w2 rest c2 ->
  Takes (Cat r1 r2) pos w rest (c2 ++ c1).
Proof. intros -> ->. apply TCat. Qed.

Lemma Takes_find re w rest cs :
  anchored re = true ->
  Takes re 0 w rest cs -> find re 0 (w ++ rest) = Some (w, cs).
Proof.
  intros A T. rewrite find_anchored by assumption.
  apply Takes_matchK with (1 := T).
  now rewrite (firstn_take 0), app_nil_r.
Qed.

End regexp_groups_facts.

(** ** More on the package extension *)
Module package_more_facts.
Import regexp regexp_facts regexp_groups regexp_groups_facts.
Import strings strings_facts.
Import instructions dockerfile2llb dockerfile2llb_more package_facts.

(** *** Listings put together *)

Lemma Split_cons (s : str) (sep : ascii) :
  exists h t, Split s sep = h :: t.
Proof.
  induction s as [|c s [h [t IH]]]; simpl; [now eexists; eexists|].
  destruct (byte_eqb c sep); [now eexists; eexists|].
  rewrite IH. now eexists; eexists.
Qed.

Lemma Split_app (a b : str) (sep : ascii) :
  Split (a ++ sep :: b) sep = Split a sep ++ Split b sep.
Proof.
  induction a as [|c a IH]; simpl.
  - now rewrite byte_eqb_refl.
  - destruct (byte_eqb c sep); [now rewrite IH|].
    rewrite IH. destruct (Split_cons a sep) as [h [t E]].
    now rewrite E.
Qed.

Lemma ParseURIs_loop_acc lines : forall acc,
  ParseURIs_loop lines acc =
  match ParseURIs_loop lines [] with
  | Ok r => Ok (acc ++ r)
  | Err e => Err e
  end.
Proof.
  induction lines as [|line rest IH]; intro acc; simpl.
  - now rewrite app_nil_r.
  - destruct (parseLine line) as [[p|e]|]; [|reflexivity|apply IH].
    rewrite (IH (acc ++ [p])), (IH [p]).
    destruct (ParseURIs_loop rest []); [|reflexivity].
    now rewrite <- app_assoc.
Qed.

Lemma ParseURIs_loop_app l1 : forall l2 acc,
  ParseURIs_loop (l1 ++ l2) acc =
  match ParseURIs_loop l1 acc with
  | Ok r => ParseURIs_loop l2 r
  | Err e => Err e
  end.
Proof.
  induction l1 as [|line rest IH]; intros l2 acc; simpl; [reflexivity|].
  destruct (parseLine line) as [[p|e]|]; [apply IH|reflexivity|apply IH].
Qed.

(** X1. The listing made of two listings with a newline between them
    parses to the entries of the first followed by the entries of the
    second; an error in the first is returned before the second is
    looked at. *)
Theorem ParseURIs_app (a b : str) :
  ParseURIs (a ++ "010"%char :: b) =
  match ParseURIs a with
  | Err e => Err e
  | Ok ra =>
      match ParseURIs b with
      | Err e => Err e
      | Ok rb => Ok (ra ++ rb)
      end
  end.
Proof.
  unfold ParseURIs. rewrite Split_app, ParseURIs_loop_app.
  destruct (ParseURIs_loop (Split a "010") []) as [ra|e]; [|reflexivity].
  apply ParseURIs_loop_acc.
Qed.

(** *** The entries of a listing *)

Lemma find_groups re s whole cs :
  anchored re = true ->
  find re 0 s = Some (whole, cs) ->
  exists rest, s = whole ++ rest /\ MatchesC re 0 whole rest cs.
Proof.
  intros A H. rewrite find_anchored in H by assumption.
  apply regexp_groups_facts.matchK_groups in H.
  destruct H as (w & rest & add & -> & M & H).
  simpl in H. injection H as <- <-.
  exists rest. rewrite Nat.sub_0_r, firstn_app, firstn_all, Nat.sub_diag.
  simpl. rewrite !app_nil_r. now split.
Qed.

Ltac invC :=
  repeat match goal with
         | H : MatchesC (Cat _ _) _ _ _ _ |- _ => inv H
         | H : MatchesC Bol _ _ _ _ |- _ => inv H
         | H : MatchesC (Lit _) _ _ _ _ |- _ => inv H
         | H : MatchesC (Cap _ _) _ _ _ _ |- _ => inv H
         | H : MatchesC (Star _) _ _ _ _ |- _ => inv H
         | H : MatchesC (Plus _) _ _ _ _ |- _ => inv H
         end.

(** The groups of a match of [aptRegex]. *)
Lemma aptRegex_groups whole rest cs :
  MatchesC aptRegex 0 whole rest cs ->
  forallb (in_class (notByte "'")) (group 1 cs) = true /\
  group 2 cs <> [] /\
  forallb (in_class (notByte " ")) (group 2 cs) = true /\
  (exists c r, group 3 cs = c :: r /\
     forallb (in_class digits) (c :: r) = true) /\
  forallb (in_class hexdigits) (group 5 cs) = true.
Proof.
  unfold aptRegex. simpl Seq. intro M. invC.
  match goal with
  | H : MatchesC (Opt _) _ _ _ _ |- _ => inv H
  end; invC; simpl; repeat split; try assumption; try discriminate;
    try (eexists _, _; split; [reflexivity|assumption]).
Qed.

Lemma isDigit_unsigned c :
  strconv.isDigit c = true ->
  byte_eqb c "-" = false /\ byte_eqb c "+" = false.
Proof.
  intro H. split.
  - destruct (byte_eqb c "-") eqn:E; [|reflexivity].
    apply byte_eqb_eq in E. subst. discriminate.
  - destruct (byte_eqb c "+") eqn:E; [|reflexivity].
    apply byte_eqb_eq in E. subst. discriminate.
Qed.

Lemma digit_range c :
  strconv.isDigit c = true -> (0 <= strconv.digit c <= 9)%Z.
Proof.
  unfold strconv.isDigit, strconv.digit. intro H.
  apply andb_true_iff in H. destruct H as [H1 H2].
  apply N.leb_le in H1, H2. lia.
Qed.

Lemma Atoi_fast_bound cs : forall n m,
  strconv.Atoi_fast cs n = Ok m -> (0 <= n)%Z ->
  (0 <= m < (n + 1) * 10 ^ Z.of_nat (List.length cs))%Z.
Proof.
  induction cs as [|c cs IH]; intros n m H Hn.
  - simpl in *. injection H as <-. lia.
  - cbn [strconv.Atoi_fast] in H.
    destruct (strconv.isDigit c) eqn:Hc; [|discriminate].
    apply digit_range in Hc. apply IH in H; [|lia].
    cbn [List.length]. rewrite Nat2Z.inj_succ, Z.pow_succ_r by lia.
    assert (0 < 10 ^ Z.of_nat (List.length cs))%Z
      by (apply Z.pow_pos_nonneg; lia).
    nia.
Qed.

Lemma ParseUint_loop_nonneg maxVal cs : forall n m,
  strconv.ParseUint_loop maxVal cs n = Ok m -> (0 <= n)%Z -> (0 <= m)%Z.
Proof.
  induction cs as [|c cs IH]; intros n m H Hn.
  - simpl in H. injection H as <-. assumption.
  - cbn [strconv.ParseUint_loop] in H.
    destruct (strconv.isDigit c) eqn:Hc; [|discriminate].
    destruct (n >=? strconv.maxUint64 / 10 + 1)%Z; [discriminate|].
    cbv zeta in H.
    destruct (n * 10 + strconv.digit c >? maxVal)%Z; [discriminate|].
    apply digit_range in Hc. apply IH in H; lia.
Qed.

(** The value of a run of digits [Atoi] accepts is a non-negative
    [int]. *)
Lemma Atoi_digits_range c r n :
  strconv.isDigit c = true ->
  strconv.Atoi (c :: r) = Ok n -> (0 <= n < 2 ^ 63)%Z.
Proof.
  intros Hc. destruct (isDigit_unsigned _ Hc) as [Hm Hp].
  unfold strconv.Atoi. cbv zeta.
  destruct (Nat.ltb 0 (List.length (c :: r))
            && Nat.ltb (List.length (c :: r)) 19) eqn:L.
  - rewrite Hm, Hp. cbn [orb andb].
    destruct (strconv.Atoi_fast (c :: r) 0) as [m|] eqn:A; [|discriminate].
    intro H. injection H as <-.
    apply andb_true_iff in L. destruct L as [_ L]. apply Nat.ltb_lt in L.
    apply Atoi_fast_bound in A; [|lia].
    assert (10 ^ Z.of_nat (List.length (c :: r)) <= 10 ^ 18)%Z
      by (apply Z.pow_le_mono_r; lia).
    change (2 ^ 63)%Z with 9223372036854775808%Z.
    change (10 ^ 18)%Z with 1000000000000000000%Z in *. lia.
  - unfold strconv.ParseInt. rewrite Hm, Hp. cbn [orb negb andb].
    unfold strconv.ParseUint.
    destruct (strconv.ParseUint_loop _ (c :: r) 0) as [un|] eqn:U;
      [|discriminate].
    cbv zeta.
    destruct (un >=? 2 ^ (strconv.IntSize - 1))%Z eqn:G; [discriminate|].
    intro H. injection H as <-.
    apply ParseUint_loop_nonneg in U; [|lia].
    rewrite Z.geb_leb in G. apply Z.leb_gt in G.
    change (2 ^ (strconv.IntSize - 1))%Z with (2 ^ 63)%Z in G. lia.
Qed.

Lemma in_class_notByte x c :
  in_class (notByte x) c = negb (byte_eqb c x).
Proof.
  unfold in_class, notByte. cbn [negated ranges existsb].
  now rewrite instructions_facts.in_range_single, orb_false_r.
Qed.

Lemma in_class_isDigit c : in_class digits c = strconv.isDigit c.
Proof.
  unfold in_class, digits, in_range, strconv.isDigit.
  cbn [negated ranges existsb fst snd]. now rewrite orb_false_r.
Qed.

Lemma parsesTo_wellFormed line p : parsesTo line p -> wellFormed p.
Proof.
  intros (m & n & F & A & ->). unfold FindStringSubmatch in F.
  destruct (find aptRegex 0 line) as [[whole cs]|] eqn:E; [|discriminate].
  injection F as <-.
  apply find_groups in E; [|reflexivity]. destruct E as (rest & _ & M).
  apply aptRegex_groups in M.
  destruct M as (G1 & G2 & G2' & (c & r & G3 & G3') & G5).
  change (NumSubexp aptRegex) with 5 in *. cbn [seq map nth] in A.
  unfold wellFormed, entryOf. cbn [seq map nth uri filename size sha256].
  repeat split; try assumption.
  - rewrite (@instructions_facts.forallb_eq _ (in_class (notByte "'")));
      [exact G1|]. intro x. now rewrite in_class_notByte.
  - rewrite (@instructions_facts.forallb_eq _ (in_class (notByte " ")));
      [exact G2'|]. intro x. now rewrite in_class_notByte.
  - rewrite G3 in A. cbn [forallb] in G3'.
    apply andb_true_iff in G3'. destruct G3' as [Hc _].
    rewrite in_class_isDigit in Hc. now apply (@Atoi_digits_range c r n Hc A).
  - rewrite G3 in A. cbn [forallb] in G3'.
    apply andb_true_iff in G3'. destruct G3' as [Hc _].
    rewrite in_class_isDigit in Hc. now apply (@Atoi_digits_range c r n Hc A).
Qed.

(** X2. Every entry [ParseURIs] returns has a URI without a quote, a
    file name that is not empty and has no space, a size from 0 to
    2^63-1 and a digest of hexadecimal digits only (empty when the line
    has none). *)
Theorem ParseURIs_wellFormed (uris : str) (rs : list PackageDownload) :
  ParseURIs uris = Ok rs -> Forall wellFormed rs.
Proof.
  unfold ParseURIs. intro H. apply ParseURIs_loop_Ok in H.
  destruct H as (rs' & -> & F). simpl.
  induction F as [|l p ls ps HP _ IH]; constructor; [|assumption].
  now apply parsesTo_wellFormed with (line := l).
Qed.

Lemma ParseURIs_wellFormed_witness :
  Forall wellFormed
    [ {| uri := go "http://deb/x.deb"; filename := go "x.deb";
         size := 12; sha256 := go "0f" |} ].
Proof.
  apply (@ParseURIs_wellFormed (go "'http://deb/x.deb' x.deb 12 SHA256:0f")).
  vm_compute. reflexivity.
Defined.

(** *** A listing line as apt writes it *)

Lemma notSpace_notBlank c :
  negb (isSpaceByte c) = true -> in_class (notByte " ") c = true.
Proof.
  unfold isSpaceByte. rewrite in_class_notByte. intro H.
  destruct (byte_eqb c " ") eqn:E; [|reflexivity].
  apply byte_eqb_eq in E. subst. discriminate.
Qed.

Lemma digit_notSpace c :
  in_class digits c = true -> in_class perl_space c = false.
Proof.
  intro H. apply in_class_digits, plain_not_space in H.
  destruct (in_class perl_space c) eqn:E; [|reflexivity].
  unfold in_class, perl_space, in_range in E.
  cbn [negated ranges existsb fst snd xorb] in E.
  change (code "009") with 9%N in E. change (code "010") with 10%N in E.
  change (code "012") with 12%N in E. change (code "013") with 13%N in E.
  change (code " ") with 32%N in E.
  unfold unicode.IsSpace in H.
  exfalso. revert E H. generalize (code c). intros n E H.
  repeat (apply orb_true_iff in E; destruct E as [E|E]);
    try discriminate;
    apply andb_true_iff in E; destruct E as [E1 E2];
    apply N.leb_le in E1, E2;
    (assert (n = 9 \/ n = 10 \/ n = 12 \/ n = 13 \/ n = 32)%N as C by lia;
     destruct C as [->|[->|[->|[->| ->]]]]; discriminate).
Qed.

Lemma aptLine_Takes (uri : str) f0 fr c r (digest : str) :
  forallb (in_class (notByte "'")) uri = true ->
  forallb (fun c => negb (isSpaceByte c)) (f0 :: fr) = true ->
  forallb (in_class digits) (c :: r) = true ->
  forallb (in_class hexdigits) digest = true ->
  exists cs,
    Takes aptRegex 0 (aptLine uri (f0 :: fr) (c :: r) digest) [] cs /\
    group 1 cs = uri /\ group 2 cs = f0 :: fr /\ group 3 cs = c :: r /\
    group 5 cs = digest.
Proof.
  intros Hu Hf Hd Hh.
  assert (forallb (in_class (notByte " ")) (f0 :: fr) = true) as Hf'.
  { apply forallb_forall. intros x Hx.
    apply notSpace_notBlank. now apply (proj1 (forallb_forall _ _) Hf). }
  assert (stops perl_space (f0 :: fr ++ go " " ++ (c :: r) ++
            match digest with [] => [] | _ :: _ => go " SHA256:" ++ digest end)
          = true) as Sf.
  { cbn [forallb] in Hf. apply andb_true_iff in Hf. apply Hf. }
  assert (forall t, stops perl_space ((c :: r) ++ t) = true) as Sd.
  { intro t. cbn [forallb] in Hd. apply andb_true_iff in Hd.
    destruct Hd as [Hc _]. simpl. now rewrite (digit_notSpace _ Hc). }
  set (tail := match digest with
               | [] => []
               | _ :: _ => go " SHA256:" ++ digest
               end) in *.
  assert (exists c4,
            Takes (Opt (Cap 4 (Cat (Plus perl_space)
                     (Cat (Lit (go "SHA256:")) (Cap 5 (Plus hexdigits))))))
              (1 + List.length uri + 2 + List.length (f0 :: fr) + 1
               + List.length (c :: r)) tail [] c4 /\
            c4 = match digest with
                 | [] => []
                 | _ :: _ => [(4, tail); (5, digest)]
                 end /\
            stops digits (tail ++ []) = true)
    as (c4 & T4 & E4 & St).
  { unfold tail. destruct digest as [|h hs].
    - exists []. repeat split. apply TOptSkip. reflexivity.
    - eexists. split.
      + apply TOptTake, TCap.
        eapply (@Takes_Cat _ _ _ (go " ") (go "SHA256:" ++ h :: hs));
          [reflexivity|reflexivity| |].
        * now apply TPlus.
        * eapply (@Takes_Cat _ _ _ (go "SHA256:") (h :: hs));
            [reflexivity|reflexivity| |].
          -- apply TLit.
          -- apply TCap. now apply TPlus.
      + repeat split. }
  eexists. split.
  - unfold aptRegex. simpl Seq. unfold aptLine. fold tail.
    eapply (@Takes_Cat _ _ _ [] _); [reflexivity|reflexivity|apply TBol|].
    eapply (@Takes_Cat _ _ _ (go "'")
              (uri ++ go "' " ++ (f0 :: fr) ++ go " " ++ (c :: r) ++ tail));
      [reflexivity|reflexivity|apply TLit|].
    eapply (@Takes_Cat _ _ _ uri
              (go "' " ++ (f0 :: fr) ++ go " " ++ (c :: r) ++ tail));
      [reflexivity|reflexivity|apply TCap; now apply TStar|].
    eapply (@Takes_Cat _ _ _ (go "'")
              (go " " ++ (f0 :: fr) ++ go " " ++ (c :: r) ++ tail));
      [reflexivity|reflexivity|apply TLit|].
    eapply (@Takes_Cat _ _ _ (go " ")
              ((f0 :: fr) ++ go " " ++ (c :: r) ++ tail));
      [reflexivity|reflexivity|apply TPlus; [reflexivity|]|].
    { rewrite app_nil_r. exact Sf. }
    eapply (@Takes_Cat _ _ _ (f0 :: fr) (go " " ++ (c :: r) ++ tail));
      [reflexivity|reflexivity|apply TCap; now apply TPlus|].
    eapply (@Takes_Cat _ _ _ (go " ") ((c :: r) ++ tail));
      [reflexivity|reflexivity|apply TPlus; [reflexivity|]|].
    { rewrite <- app_assoc. apply Sd. }
    eapply (@Takes_Cat _ _ _ (c :: r) tail);
      [reflexivity|reflexivity|apply TCap; now apply TPlus|].
    match goal with
    | |- Takes _ ?p _ _ _ =>
        replace p with (1 + List.length uri + 2 + List.length (f0 :: fr) + 1
                        + List.length (c :: r))
          by (cbn [List.length go list_ascii_of_string]; lia)
    end.
    exact T4.
  - subst c4. destruct digest; repeat split.
Qed.

Lemma TrimSpace_plain_ends c w d :
  plain c = true -> plain d = true ->
  TrimSpace (c :: w ++ [d]) = c :: w ++ [d].
Proof.
  intros Hc Hd. unfold TrimSpace. rewrite trimStart_plain by assumption.
  change (c :: w ++ [d]) with ((c :: w) ++ [d]).
  rewrite rev_app_distr. cbn [rev app].
  rewrite trimStart_plain by assumption.
  change (d :: rev w ++ [c]) with ([d] ++ rev (c :: w)).
  now rewrite rev_app_distr, rev_involutive.
Qed.

Lemma parseLine_trimmed line m :
  TrimSpace line = line -> line <> [] ->
  FindStringSubmatch aptRegex line = Some m ->
  parseLine line =
  Some match strconv.Atoi (nth 3 m []) with
       | Err e => Err (errNum e)
       | Ok n => Ok (entryOf m n)
       end.
Proof.
  intros T N F. unfold parseLine. cbv zeta. rewrite T.
  destruct line as [|c l]; [congruence|]. rewrite F.
  destruct (strconv.Atoi (nth 3 m [])); [|reflexivity].
  unfold entryOf. now rewrite sha256_field.
Qed.

Lemma plain_notNewline c :
  plain c = true -> negb (byte_eqb c "010") = true.
Proof.
  intro H. destruct (byte_eqb c "010") eqn:E; [|reflexivity].
  apply byte_eqb_eq in E. subst. discriminate.
Qed.

Lemma notSpace_notNewline c :
  negb (isSpaceByte c) = true -> negb (byte_eqb c "010") = true.
Proof.
  intro H. destruct (byte_eqb c "010") eqn:E; [|reflexivity].
  apply byte_eqb_eq in E. subst. discriminate.
Qed.

Lemma forallb_impl (f g : ascii -> bool) (l : str) :
  (forall c, f c = true -> g c = true) ->
  forallb f l = true -> forallb g l = true.
Proof.
  intros H F. apply forallb_forall. intros x Hx.
  apply H. now apply (proj1 (forallb_forall _ _) F).
Qed.

(** A line as apt writes it is trimmed, has no newline, and [aptRegex]
    finds it whole with its fields in the groups. *)
Lemma aptLine_parse (u : str) f0 fr c r (digest : str) :
  forallb (fun x => negb (byte_eqb x "'") && negb (isNewline x)) u = true ->
  forallb (fun x => negb (isSpaceByte x)) (f0 :: fr) = true ->
  forallb strconv.isDigit (c :: r) = true ->
  forallb isHexByte digest = true ->
  let line := aptLine u (f0 :: fr) (c :: r) digest in
  Split line "010" = [line] /\
  parseLine line =
  Some match strconv.Atoi (c :: r) with
       | Err e => Err (errNum e)
       | Ok n => Ok {| uri := u; filename := f0 :: fr; size := n;
                       sha256 := digest |}
       end.
Proof.
  intros Hu Hf Hd Hh line.
  assert (forallb (in_class (notByte "'")) u = true) as Hu1.
  { revert Hu. apply forallb_impl. intros x H.
    apply andb_true_iff in H. now rewrite in_class_notByte. }
  assert (forallb (fun x => negb (byte_eqb x "010")) u = true) as Hu2.
  { revert Hu. apply forallb_impl. intros x H.
    apply andb_true_iff in H. apply H. }
  assert (forallb (in_class digits) (c :: r) = true) as Hd1.
  { revert Hd. apply forallb_impl. intros x H. now rewrite in_class_isDigit. }
  assert (forallb plain (c :: r) = true) as Hd2.
  { revert Hd1. apply forallb_impl. apply in_class_digits. }
  assert (forallb plain digest = true) as Hh2.
  { revert Hh. apply forallb_impl. apply in_class_hexdigits. }
  set (tail := match digest with
               | [] => []
               | _ :: _ => go " SHA256:" ++ digest
               end).
  assert (exists w d, (c :: r) ++ tail = w ++ [d] /\ plain d = true)
    as (w & d & Ew & Pd).
  { unfold tail. destruct digest as [|h hs].
    - rewrite app_nil_r. now apply forallb_last.
    - destruct (forallb_last _ _ _ Hh2) as (w' & d & E & P).
      exists ((c :: r) ++ go " SHA256:" ++ w'), d.
      rewrite E, <- !app_assoc. now split. }
  assert (line = "'"%char :: (u ++ go "' " ++ (f0 :: fr) ++ go " " ++ w)
                  ++ [d]) as EL.
  { unfold line, aptLine. fold tail. rewrite Ew, <- !app_assoc. reflexivity. }
  assert (forallb (fun x => negb (byte_eqb x "010")) line = true) as NL.
  { unfold line, aptLine. fold tail.
    rewrite !forallb_app. rewrite Hu2.
    rewrite (@forallb_impl _ (fun x => negb (byte_eqb x "010")) _
               notSpace_notNewline Hf).
    rewrite (@forallb_impl _ (fun x => negb (byte_eqb x "010")) _
               plain_notNewline Hd2).
    replace (forallb (fun x => negb (byte_eqb x "010")) tail) with true;
      [reflexivity|].
    unfold tail. destruct digest as [|h hs]; [reflexivity|].
    rewrite forallb_app,
      (@forallb_impl _ (fun x => negb (byte_eqb x "010")) _
         plain_notNewline Hh2).
    reflexivity. }
  split; [now apply Split_one|].
  destruct (@aptLine_Takes u f0 fr c r digest Hu1 Hf Hd1 Hh)
    as (cs & T & G1 & G2 & G3 & G5).
  apply Takes_find in T; [|reflexivity]. rewrite app_nil_r in T.
  fold line in T.
  rewrite (@parseLine_trimmed line
             (line :: map (fun n => group n cs) (seq 1 5))).
  - cbn [seq map nth]. rewrite G3.
    destruct (strconv.Atoi (c :: r)); [|reflexivity].
    unfold entryOf. cbn [nth]. now rewrite G1, G2, G5.
  - rewrite EL. now apply TrimSpace_plain_ends.
  - rewrite EL. discriminate.
  - unfold FindStringSubmatch. now rewrite T.
Qed.

(** X3. A line as apt writes it, the URI in quotes, the file name, the
    size in decimal digits and [SHA256:] with the digest when there is
    one, is read back field by field: the listing made of that line
    gives the one entry with these fields, and put before another
    listing it gives that entry before the others. *)
Theorem ParseURIs_aptLine (u fname sizeDigits digest rest : str) (n : Z) :
  forallb (fun x => negb (byte_eqb x "'") && negb (isNewline x)) u = true ->
  fname <> [] ->
  forallb (fun x => negb (isSpaceByte x)) fname = true ->
  forallb strconv.isDigit sizeDigits = true ->
  forallb isHexByte digest = true ->
  strconv.Atoi sizeDigits = Ok n ->
  let p := {| uri := u; filename := fname; size := n; sha256 := digest |} in
  ParseURIs (aptLine u fname sizeDigits digest) = Ok [p] /\
  ParseURIs (aptLine u fname sizeDigits digest ++ "010"%char :: rest) =
    match ParseURIs rest with
    | Ok rs => Ok (p :: rs)
    | Err e => Err e
    end.
Proof.
  intros Hu Hn Hf Hd Hh HA p.
  destruct fname as [|f0 fr]; [congruence|].
  destruct sizeDigits as [|c r]; [discriminate|].
  destruct (@aptLine_parse u f0 fr c r digest Hu Hf Hd Hh) as [HS HP].
  cbv zeta in HS, HP. rewrite HA in HP. fold p in HP.
  unfold ParseURIs. rewrite Split_app, HS.
  cbn [app ParseURIs_loop]. rewrite HP. split; [reflexivity|].
  apply (ParseURIs_loop_acc _ [p]).
Qed.

Lemma ParseURIs_aptLine_witness :
  let p := {| uri := go "http://deb/x.deb"; filename := go "x.deb";
              size := 12; sha256 := go "0f" |} in
  ParseURIs (aptLine (go "http://deb/x.deb") (go "x.deb") (go "12") (go "0f"))
  = Ok [p] /\
  ParseURIs (aptLine (go "http://deb/x.deb") (go "x.deb") (go "12") (go "0f")
             ++ "010"%char :: go "junk") =
    match ParseURIs (go "junk") with
    | Ok rs => Ok (p :: rs)
    | Err e => Err e
    end.
Proof.
  apply (@ParseURIs_aptLine (go "http://deb/x.deb") (go "x.deb") (go "12")
           (go "0f") (go "junk") 12);
    try reflexivity; discriminate.
Defined.

(** *** The phases of [Dispatch] *)

Section DispatchMore.
Variable withShell : Image -> list str -> list str.

Lemma downloadScript_eq names :
  Join [ go "mv /btidor.syntax/backup /btidor.syntax/state";
         go "apt-get install -qq --print-uris " ++ aptions ++ go " "
           ++ Join names (go " ") ++ go " > /btidor.syntax/install" ]
       (go " && ")
  = downloadScript names.
Proof. vm_compute. reflexivity. Qed.

(** The request [Dispatch] makes and what it does with the answer. *)
Lemma Dispatch_steps i :
  exists k,
    Dispatch withShell i
    = ReadFile (downloadExec withShell i) installPath k /\
    forall r,
      k r =
      let img2 :=
        withHistory (image (d i)) [updateEntry i; downloadEntry i] in
      match r with
      | Err e => Return (set_image i img2, Some e)
      | Ok data =>
          match ParseURIs data with
          | Err e => Return (set_image i img2, Some e)
          | Ok uris =>
              let node :=
                File (downloadExec withShell i)
                  (DownloadFiles_loop uris archives aptCopyInfo None)
                  [ dfCmd (cmd i);
                    location_opt (location_ (pkg_withNameAndCode (cmd i)));
                    WithCustomName (go "COPY (apt packages)") ] in
              let st :=
                RunRoot (state (d i))
                  (baseOpts withShell i (installStage i) img2
                     (installScript (PackageNames (cmd i)))
                   ++ [ AddMount (go "/btidor.syntax") node
                          [SourcePath (go "/btidor.syntax")] ]) in
              Return
                (set_state
                   (set_image i
                      (withHistory (image (d i))
                         [updateEntry i; downloadEntry i; installEntry i]))
                   st,
                 None)
          end
      end.
Proof.
  unfold Dispatch, Run, commitToHistory, downloadExec, updateExec, baseOpts,
    withHistory, updateEntry, downloadEntry, installEntry.
  rewrite (@updateScript_eq), downloadScript_eq.
  cbn [set_image image d ignoreCache epoch state cmd updateStage
       downloadStage installStage Shell history].
  destruct (ignoreCache (d i));
    (eexists; split; [rewrite ?app_nil_r; reflexivity|];
     intros [data|e]; [|cbv zeta; rewrite <- !app_assoc; reflexivity];
     cbv zeta;
     destruct (ParseURIs data) as [uris|e];
       [|rewrite <- !app_assoc; reflexivity];
     cbn [DownloadFiles fst set_image image d ignoreCache epoch state cmd
          updateStage downloadStage installStage Shell history];
     rewrite installScript_eq, ?app_nil_r, <- !app_assoc; reflexivity).
Qed.

(** X25. Every exec [Run] builds is over the state it is given, sets
    [DEBIAN_FRONTEND=noninteractive], runs the script joined by [&&] as
    one line under the shell of the image, ignores the cache exactly
    when the stage does, and ends with the extra options of the caller;
    of its own it adds no mount. [Run] commits one history entry under
    the stage name, an empty layer unless [withLayer], and leaves the
    stage root alone. *)
Theorem Run_exec (i : PackageInvocation) (st : State) (stageName : str)
  (withLayer : bool) (script : list str) (extra : list RunOption) :
  exists opts,
    Run withShell i st stageName withLayer script extra
    = (set_image i
         (withHistory (image (d i)) [runEntry i stageName withLayer]),
       (RunRoot st (opts ++ extra), None)) /\
    In (AddEnv (go "DEBIAN_FRONTEND") (go "noninteractive")) opts /\
    In (Args (withShell (image (d i)) [Join script (go " && ")])) opts /\
    In (Constraint (WithCustomName stageName)) opts /\
    (In (Constraint IgnoreCache) opts <-> ignoreCache (d i) = true) /\
    existsb isMount opts = false.
Proof.
  unfold Run, commitToHistory, withHistory, runEntry. cbv zeta.
  destruct (ignoreCache (d i)); eexists; (split; [reflexivity|]);
    cbn [In app existsb isMount orb]; repeat split; auto 10;
    try discriminate.
  intros [H|[H|[H|[H|[H|[]]]]]]; discriminate.
Qed.

(** X4. Between the update exec and the engine, [Dispatch] builds the
    download exec: it runs over the root of the update exec, carries no
    mount, and its shell line moves the backup back and has
    [apt-get install -qq --print-uris] write the listing of the named
    packages to the very file the engine is then asked for. *)
Theorem Dispatch_download_exec (i : PackageInvocation) :
  exists k opts,
    Dispatch withShell i
    = ReadFile (RunRoot (updateExec withShell i) opts) installPath k /\
    existsb isMount opts = false /\
    In (Args (withShell (withHistory (image (d i)) [updateEntry i])
                [ go "mv /btidor.syntax/backup /btidor.syntax/state && "
                  ++ go "apt-get install -qq --print-uris " ++ aptions
                  ++ go " " ++ Join (PackageNames (cmd i)) (go " ")
                  ++ go " > " ++ installPath ]))
       opts /\
    In (Constraint (WithCustomName (downloadStage i))) opts.
Proof.
  destruct (Dispatch_steps i) as (k & H & _).
  exists k. eexists. split; [exact H|].
  unfold baseOpts. split; [now destruct (ignoreCache (d i))|].
  split.
  - apply in_or_app. left. do 4 right. left. reflexivity.
  - apply in_or_app. left. do 3 right. left. reflexivity.
Qed.

(** X5. A dispatch that returns an error leaves the stage root as it
    found it: only the history has grown, by the update and download
    entries, both empty layers. The error is the engine's, or that of
    [ParseURIs] on the listing the engine returned. *)
Theorem Dispatch_error (engine : State -> str -> result error str)
  (i i' : PackageInvocation) (e : error) :
  run engine (Dispatch withShell i) = (i', Some e) ->
  i' = set_image i
         (withHistory (image (d i)) [updateEntry i; downloadEntry i]) /\
  state (d i') = state (d i) /\
  (engine (downloadExec withShell i) installPath = Err e \/
   exists data,
     engine (downloadExec withShell i) installPath = Ok data /\
     ParseURIs data = Err e).
Proof.
  destruct (Dispatch_steps i) as (k & H & Hk).
  rewrite H. cbn [run]. rewrite Hk. cbv zeta.
  destruct (engine _ installPath) as [data|e'] eqn:E.
  - destruct (ParseURIs data) as [uris|e'] eqn:P; cbn [run]; intro R;
      [discriminate|].
    injection R as <- <-. repeat split. right. now exists data.
  - cbn [run]. intro R. injection R as <- <-. repeat split. now left.
Qed.

(** X6. A dispatch that returns no error has read a listing whose
    lines, trimmed and without the blank ones, each parse to an entry.
    The stage root it leaves is the install exec over the root it
    started from, mounting the File node built on the download exec;
    that node copies, in the order of the lines, one file per entry
    from the HTTP source of its URI to the archives directory, with
    mode 0644. The history has grown by the update, download and
    install entries. *)
Theorem Dispatch_ok (engine : State -> str -> result error str)
  (i i' : PackageInvocation) :
  run engine (Dispatch withShell i) = (i', None) ->
  exists data uris action,
    engine (downloadExec withShell i) installPath = Ok data /\
    Forall2 parsesTo (nonblank_lines data) uris /\
    Forall wellFormed uris /\
    state (d i') =
      RunRoot (state (d i))
        (baseOpts withShell i (installStage i)
           (withHistory (image (d i)) [updateEntry i; downloadEntry i])
           (installScript (PackageNames (cmd i)))
         ++ [ AddMount (go "/btidor.syntax")
                (File (downloadExec withShell i) action
                   [ dfCmd (cmd i);
                     location_opt (location_ (pkg_withNameAndCode (cmd i)));
                     WithCustomName (go "COPY (apt packages)") ])
                [SourcePath (go "/btidor.syntax")] ]) /\
    copiesOf action
    = map (fun f => (httpNode f, filename f, archives, aptCopyInfo)) uris /\
    image (d i')
    = withHistory (image (d i))
        [updateEntry i; downloadEntry i; installEntry i].
Proof.
  destruct (Dispatch_steps i) as (k & H & Hk).
  rewrite H. cbn [run]. rewrite Hk. cbv zeta.
  destruct (engine _ installPath) as [data|e'] eqn:E;
    [|cbn [run]; discriminate].
  destruct (ParseURIs data) as [uris|e'] eqn:P; cbn [run]; intro R;
    [|discriminate].
  injection R as <-.
  exists data, uris, (DownloadFiles_loop uris archives aptCopyInfo None).
  split; [reflexivity|]. split.
  { unfold ParseURIs in P. apply ParseURIs_loop_Ok in P.
    destruct P as (rs & -> & F). exact F. }
  split.
  { unfold ParseURIs in P. apply ParseURIs_loop_Ok in P.
    destruct P as (rs & -> & F). simpl.
    clear -F. induction F as [|l p ls ps HP _ IH]; constructor;
      [now apply parsesTo_wellFormed with (line := l)|assumption]. }
  split; [reflexivity|]. split; [|reflexivity].
  now rewrite DownloadFiles_loop_copies.
Qed.

End DispatchMore.

Lemma Dispatch_error_witness :
  let i' := fst (run engine_down (Dispatch withShell_sh nginxInvocation)) in
  let e := errOther (go "failed to solve") in
  i' = set_image nginxInvocation
         (withHistory (image (d nginxInvocation))
            [updateEntry nginxInvocation; downloadEntry nginxInvocation]) /\
  state (d i') = Root (go "ubuntu") /\
  (engine_down (downloadExec withShell_sh nginxInvocation) installPath
   = Err e \/
   exists data,
     engine_down (downloadExec withShell_sh nginxInvocation) installPath
     = Ok data /\ ParseURIs data = Err e).
Proof.
  apply (@Dispatch_error withShell_sh engine_down nginxInvocation
           (fst (run engine_down (Dispatch withShell_sh nginxInvocation)))
           (errOther (go "failed to solve"))).
  vm_compute. reflexivity.
Defined.

Lemma Dispatch_ok_witness :
  let i := nginxInvocation in
  let i' := fst (run engine_listing (Dispatch withShell_sh i)) in
  exists data uris action,
    engine_listing (downloadExec withShell_sh i) installPath = Ok data /\
    Forall2 parsesTo (nonblank_lines data) uris /\
    Forall wellFormed uris /\
    state (d i') =
      RunRoot (state (d i))
        (baseOpts withShell_sh i (installStage i)
           (withHistory (image (d i)) [updateEntry i; downloadEntry i])
           (installScript (PackageNames (cmd i)))
         ++ [ AddMount (go "/btidor.syntax")
                (File (downloadExec withShell_sh i) action
                   [ dfCmd (cmd i);
                     location_opt (location_ (pkg_withNameAndCode (cmd i)));
                     WithCustomName (go "COPY (apt packages)") ])
                [SourcePath (go "/btidor.syntax")] ]) /\
    copiesOf action
    = map (fun f => (httpNode f, filename f, archives, aptCopyInfo)) uris /\
    image (d i')
    = withHistory (image (d i))
        [updateEntry i; downloadEntry i; installEntry i].
Proof.
  apply (@Dispatch_ok withShell_sh engine_listing nginxInvocation
           (fst (run engine_listing (Dispatch withShell_sh nginxInvocation)))).
  vm_compute. reflexivity.
Defined.

(** *** [dispatchRunDevices] *)

Lemma dispatchRunDevices_loop_map devices : forall out,
  dispatchRunDevices_loop devices out = out ++ map deviceOption devices.
Proof.
  induction devices as [|dv devices IH]; intro out; simpl.
  - now rewrite app_nil_r.
  - rewrite IH, <- app_assoc. unfold deviceOption.
    now destruct (Required dv).
Qed.

(** X7. Built with [dfrundevice], [dispatchRunDevices] never fails and
    returns one run option per device of the command, in order: the
    device by name, marked optional exactly when it is not required. *)
Theorem dispatchRunDevices_labs_options (devices : list Device) :
  dispatchRunDevices_labs devices = Ok (map deviceOption devices) /\
  forall j dv,
    nth_error devices j = Some dv ->
    exists opts,
      nth_error (map deviceOption devices) j = Some (AddCDIDevice opts) /\
      In (CDIDeviceName (DeviceName dv)) opts /\
      (In CDIDeviceOptional opts <-> Required dv = false).
Proof.
  split.
  - unfold dispatchRunDevices_labs. now rewrite dispatchRunDevices_loop_map.
  - intros j dv H. eexists. split.
    + rewrite nth_error_map, H. reflexivity.
    + split; [now left|]. destruct (Required dv); simpl; split;
        try discriminate; intuition discriminate.
Qed.

(** X8. Built without [dfrundevice], [dispatchRunDevices] accepts
    exactly the commands without a device, and then adds no run option;
    on those commands the two builds agree. *)
Theorem dispatchRunDevices_default (devices : list Device) :
  (dispatchRunDevices devices = Ok [] <-> devices = []) /\
  (devices <> [] <-> exists e, dispatchRunDevices devices = Err e) /\
  (dispatchRunDevices devices = dispatchRunDevices_labs devices
   <-> devices = []).
Proof.
  unfold dispatchRunDevices, dispatchRunDevices_labs.
  destruct devices as [|dv devices]; cbn [List.length Nat.ltb Nat.leb].
  - repeat split; try reflexivity; try congruence.
    intros (e & H). discriminate.
  - repeat split; try discriminate; try congruence.
    intros _. eexists. reflexivity.
Qed.

End package_more_facts.

(** ** More on [parse.go] *)
Module parse_more_facts.
Import strings strings_facts instructions instructions_facts parse_go.

(** *** Key-value pairs *)

Lemma parseKvps_loop_spec n : forall args cmdName acc res,
  List.length args = 3 * n ->
  (parseKvps_loop args cmdName acc = Ok res <->
   (forall j, j < n -> nth (3 * j) args [] <> []) /\
   res = acc ++ map (pairAt args) (seq 0 n)).
Proof.
  induction n as [|n IH]; intros args cmdName acc res L.
  - destruct args; [|discriminate]. simpl. rewrite app_nil_r. split.
    + intro H. injection H as <-. split; [intros j Hj; lia|reflexivity].
    + intros [_ ->]. reflexivity.
  - destruct args as [|a0 [|a1 [|a2 rest]]]; try (simpl in L; lia).
    assert (List.length rest = 3 * n) as L' by (simpl in L; lia).
    assert (forall j, pairAt (a0 :: a1 :: a2 :: rest) (S j) = pairAt rest j)
      as Shift.
    { intro j. unfold pairAt.
      replace (3 * S j) with (S (S (S (3 * j)))) by lia. reflexivity. }
    cbn [parseKvps_loop]. destruct a0 as [|c a0].
    + split; [discriminate|]. intros [H _]. now specialize (H 0 ltac:(lia)).
    + rewrite (IH rest cmdName _ res L'). cbn [seq map].
      rewrite <- seq_shift, map_map, <- app_assoc.
      rewrite (map_ext _ _ Shift). cbn [app]. split.
      * intros [H ->]. split; [|reflexivity].
        intros [|j] Hj; [discriminate|].
        replace (3 * S j) with (S (S (S (3 * j)))) by lia.
        apply H. lia.
      * intros [H ->]. split; [|reflexivity].
        intros j Hj. specialize (H (S j) ltac:(lia)).
        now replace (3 * S j) with (S (S (S (3 * j)))) in H by lia.
Qed.

(** X9. [parseKvps] accepts exactly the argument lists that are not
    empty, hold three entries per pair and have a name that is not
    empty at every third place; the pairs it returns are then, in
    order, the name, the value and whether the delimiter entry is
    empty. *)
Theorem parseKvps_pairs (args : list str) (cmdName : str)
  (res : list KeyValuePair) :
  parseKvps args cmdName = Ok res <->
  args <> [] /\
  List.length args = 3 * List.length res /\
  forall j, j < List.length res ->
    nth (3 * j) args [] <> [] /\ nth j res noPair = pairAt args j.
Proof.
  unfold parseKvps. destruct args as [|a args].
  - split; [discriminate|]. intros [H _]. congruence.
  - remember (a :: args) as l eqn:El.
    destruct (Nat.eqb (List.length l mod 3) 0) eqn:M; cbn [negb].
    + apply Nat.eqb_eq in M.
      assert (List.length l = 3 * (List.length l / 3)) as L.
      { pose proof (Nat.div_mod_eq (List.length l) 3). lia. }
      rewrite (@parseKvps_loop_spec _ l cmdName [] res L). cbn [app]. split.
      * intros [H ->]. rewrite length_map, length_seq.
        split; [subst; discriminate|]. split; [exact L|].
        intros j Hj. split; [now apply H|].
        rewrite (nth_indep _ noPair (pairAt l 0))
          by now rewrite length_map, length_seq.
        now rewrite (map_nth (pairAt l)), seq_nth.
      * intros (_ & L2 & H).
        assert (List.length l / 3 = List.length res) as E by lia.
        rewrite E. split; [intros j Hj; now apply H|].
        apply nth_ext with (d := noPair) (d' := pairAt l 0).
        { now rewrite length_map, length_seq. }
        intros j Hj. rewrite (map_nth (pairAt l)), seq_nth by assumption.
        now apply H.
    + apply Nat.eqb_neq in M. split; [discriminate|].
      intros (_ & L & _). exfalso. apply M. rewrite L.
      rewrite Nat.mul_comm. apply Nat.Div0.mod_mul.
Qed.

Lemma parseKvps_loop_name args : forall cmdName cmdName' acc res,
  parseKvps_loop args cmdName acc = Ok res ->
  parseKvps_loop args cmdName' acc = Ok res.
Proof.
  induction args as [args IH] using (induction_ltof1 _ (@List.length str)).
  intros cmdName cmdName' acc res.
  destruct args as [|a0 [|a1 [|a2 rest]]]; try (intro H; exact H).
  cbn [parseKvps_loop]. destruct a0; [discriminate|].
  apply IH. unfold ltof. simpl. lia.
Qed.

Lemma parseKvps_name args cmdName cmdName' res :
  parseKvps args cmdName = Ok res -> parseKvps args cmdName' = Ok res.
Proof.
  unfold parseKvps. destruct args as [|a args]; [discriminate|].
  destruct (negb (Nat.eqb (List.length (a :: args) mod 3) 0));
    [discriminate|].
  apply parseKvps_loop_name.
Qed.

Section KvpsFacts.
Variable BFlags_Parse : list flagDecl -> list str -> result error FlagSet.

(** X29. [ENV] and [LABEL] read a request alike: each is accepted
    exactly when the flags parse and [parseKvps] accepts the
    arguments, and stores the pairs [parseKvps] returns; a request one
    of them accepts, the other accepts with the same pairs. *)
Theorem parseEnv_parseLabel (req : parseRequest) :
  (forall c, parseEnv BFlags_Parse req = Ok c <->
     (exists fs, BFlags_Parse [] (flags req) = Ok fs) /\
     parseKvps (args req) (go "ENV") = Ok (Env c) /\
     env_withNameAndCode c = newWithNameAndCode req) /\
  (forall c, parseLabel BFlags_Parse req = Ok c <->
     (exists fs, BFlags_Parse [] (flags req) = Ok fs) /\
     parseKvps (args req) (go "LABEL") = Ok (Labels c) /\
     label_withNameAndCode c = newWithNameAndCode req) /\
  (forall pairs,
     (exists c, parseEnv BFlags_Parse req = Ok c /\ Env c = pairs) <->
     (exists c, parseLabel BFlags_Parse req = Ok c /\ Labels c = pairs)).
Proof.
  unfold parseEnv, parseLabel.
  destruct (BFlags_Parse [] (flags req)) as [fs|e].
  - split; [|split].
    + intro c. destruct (parseKvps (args req) (go "ENV")) as [envs|e]; split.
      * intro H. injection H as <-. repeat split. now exists fs.
      * intros (_ & H & N). destruct c. cbn in *. injection H as ->.
        now subst.
      * discriminate.
      * intros (_ & H & _). discriminate.
    + intro c. destruct (parseKvps (args req) (go "LABEL")) as [ls|e]; split.
      * intro H. injection H as <-. repeat split. now exists fs.
      * intros (_ & H & N). destruct c. cbn in *. injection H as ->.
        now subst.
      * discriminate.
      * intros (_ & H & _). discriminate.
    + intro pairs. split.
      * intros (c & H & <-).
        destruct (parseKvps (args req) (go "ENV")) as [envs|e] eqn:K;
          [|discriminate].
        injection H as <-.
        rewrite (@parseKvps_name _ _ (go "LABEL") _ K).
        eexists. split; reflexivity.
      * intros (c & H & <-).
        destruct (parseKvps (args req) (go "LABEL")) as [ls|e] eqn:K;
          [|discriminate].
        injection H as <-.
        rewrite (@parseKvps_name _ _ (go "ENV") _ K).
        eexists. split; reflexivity.
  - split; [|split].
    + intro c. split; [discriminate|intros ((fs & H) & _); discriminate].
    + intro c. split; [discriminate|intros ((fs & H) & _); discriminate].
    + intro pairs. split; intros (c & H & _); discriminate.
Qed.

End KvpsFacts.

(** *** [ARG] *)

Lemma cut_Some s sep before after :
  cut s sep = Some (before, after) ->
  s = before ++ sep :: after /\ Contains before sep = false.
Proof.
  revert before. induction s as [|c s IH]; intros before H; simpl in H;
    [discriminate|].
  destruct (byte_eqb c sep) eqn:E.
  - injection H as <- <-. apply byte_eqb_eq in E. subst. now split.
  - destruct (cut s sep) as [[b a]|]; [|discriminate].
    injection H as <- <-. destruct (IH b eq_refl) as [-> HC].
    split; [reflexivity|]. simpl.
    replace (byte_eqb sep c) with false; [assumption|].
    symmetry. destruct (byte_eqb sep c) eqn:E'; [|reflexivity].
    apply byte_eqb_eq in E'. subst. now rewrite byte_eqb_refl in E.
Qed.

Lemma cut_None s sep : cut s sep = None -> Contains s sep = false.
Proof.
  induction s as [|c s IH]; simpl; [reflexivity|].
  destruct (byte_eqb c sep) eqn:E; [discriminate|].
  destruct (cut s sep) as [[b a]|]; [discriminate|]. intros _.
  replace (byte_eqb sep c) with false; [now apply IH|].
  symmetry. destruct (byte_eqb sep c) eqn:E'; [|reflexivity].
  apply byte_eqb_eq in E'. subst. now rewrite byte_eqb_refl in E.
Qed.

Lemma Contains_cut s sep :
  Contains s sep = true -> exists b a, cut s sep = Some (b, a).
Proof.
  intro H. destruct (cut s sep) as [[b a]|] eqn:E; [now exists b, a|].
  apply cut_None in E. congruence.
Qed.

Lemma parseArg_loop_pairs comments args : forall pairs,
  parseArg_loop comments args = Ok pairs ->
  Forall2 (fun arg kv =>
             argOf arg (OKey kv) (OValue kv) /\
             Comment kv = getComment comments (OKey kv))
    args pairs.
Proof.
  induction args as [|arg args IH]; intros pairs H; cbn [parseArg_loop] in H.
  - injection H as <-. constructor.
  - cbv zeta in H. destruct (Contains arg "=") eqn:C.
    + destruct (Contains_cut _ _ C) as (b & a & E).
      unfold SplitN2 in H. rewrite E in H. cbn [nth] in H.
      destruct b as [|c b]; [discriminate|].
      destruct (parseArg_loop comments args) as [ps|]; [|discriminate].
      injection H as <-. constructor; [|now apply IH].
      apply cut_Some in E. destruct E as [-> HC]. cbn [OKey OValue Comment].
      repeat split; [discriminate|assumption].
    + destruct (parseArg_loop comments args) as [ps|]; [|discriminate].
      injection H as <-. constructor; [|now apply IH].
      cbn [OKey OValue Comment]. now repeat split.
Qed.

(** X10. When [parseArg] accepts, there is one pair per argument, in
    order, and each argument can be read back from its pair: a bare
    name is the key and has no value; [name=value] is cut at its first
    [=], the name not empty. Each pair carries the comment
    [getComment] finds for its key. *)
Theorem parseArg_pairs (req : parseRequest) (c : ArgCommand) :
  parseArg req = Ok c ->
  args req <> [] /\
  Forall2 (fun arg kv =>
             argOf arg (OKey kv) (OValue kv) /\
             Comment kv = getComment (comments req) (OKey kv))
    (args req) (Args c) /\
  arg_withNameAndCode c = newWithNameAndCode req.
Proof.
  unfold parseArg. destruct (args req) as [|a l] eqn:A; [discriminate|].
  destruct (parseArg_loop (comments req) (a :: l)) as [pairs|] eqn:P;
    [|discriminate].
  intro H. injection H as <-. split; [discriminate|]. split; [|reflexivity].
  now apply parseArg_loop_pairs.
Qed.

Lemma parseArg_pairs_witness :
  args argRequest <> [] /\
  Forall2 (fun arg kv =>
             argOf arg (OKey kv) (OValue kv) /\
             Comment kv = getComment (comments argRequest) (OKey kv))
    (args argRequest)
    [ {| OKey := go "VERSION"; OValue := Some (go "1.2=rc");
         Comment := go "the release to build" |};
      {| OKey := go "TARGET"; OValue := None; Comment := [] |} ] /\
  newWithNameAndCode argRequest = newWithNameAndCode argRequest.
Proof.
  apply (@parseArg_pairs argRequest
           {| Args :=
                [ {| OKey := go "VERSION"; OValue := Some (go "1.2=rc");
                     Comment := go "the release to build" |};
                  {| OKey := go "TARGET"; OValue := None; Comment := [] |} ];
              arg_withNameAndCode := newWithNameAndCode argRequest |}).
  vm_compute. reflexivity.
Defined.

Lemma parseArg_loop_accepts comments args :
  (exists pairs, parseArg_loop comments args = Ok pairs) <->
  Forall (fun arg => hd_error arg <> Some "="%char) args.
Proof.
  induction args as [|arg args IH]; cbn [parseArg_loop].
  - split; [constructor|]. intros _. now eexists.
  - cbv zeta. destruct (Contains arg "=") eqn:C.
    + destruct (Contains_cut _ _ C) as (b & a & E).
      unfold SplitN2. rewrite E. cbn [nth].
      apply cut_Some in E. destruct E as [-> HC].
      destruct b as [|x b].
      * split; [intros (p & H); discriminate|].
        intro H. inversion H as [|? ? H1 _]. now contradiction H1.
      * destruct (parseArg_loop comments args) as [ps|].
        -- split; [|intros _; now eexists].
           intros _. constructor; [|apply IH; now eexists].
           simpl. intro H. injection H as ->. simpl in HC. discriminate.
        -- split; [intros (p & H); discriminate|].
           intro H. inversion H as [|? ? _ H2]. apply IH in H2.
           destruct H2 as (p & H2). discriminate.
    + destruct (parseArg_loop comments args) as [ps|].
      * split; [|intros _; now eexists].
        intros _. constructor; [|apply IH; now eexists].
        destruct arg as [|x arg]; [discriminate|]. simpl. intro H.
        injection H as ->. simpl in C. discriminate.
      * split; [intros (p & H); discriminate|].
        intro H. inversion H as [|? ? _ H2]. apply IH in H2.
        destruct H2 as (p & H2). discriminate.
Qed.

(** X11. [parseArg] refuses a request only for having no argument or
    an argument that starts with [=]; the flags of the request are not
    looked at, and a bare empty name is let through. *)
Theorem parseArg_accepts (req : parseRequest) :
  (exists c, parseArg req = Ok c) <->
  args req <> [] /\
  Forall (fun arg => hd_error arg <> Some "="%char) (args req).
Proof.
  unfold parseArg. destruct (args req) as [|a l] eqn:A.
  - split; [intros (c & H); discriminate|]. intros [H _]. congruence.
  - rewrite <- (parseArg_loop_accepts (comments req) (a :: l)).
    destruct (parseArg_loop (comments req) (a :: l)) as [pairs|].
    + split; [intros _; split; [discriminate|now eexists]|].
      intros _. now eexists.
    + split; [intros (c & H); discriminate|].
      intros [_ (p & H)]. discriminate.
Qed.

(** *** [VOLUME] *)

Lemma parseVolume_loop_spec args : forall volumes,
  parseVolume_loop args volumes =
  if forallb (fun v => negb (str_eqb (TrimSpace v) [])) args
  then Ok (volumes ++ map TrimSpace args)
  else Err (errOther (go "VOLUME specified can not be an empty string")).
Proof.
  induction args as [|v args IH]; intro volumes; cbn [parseVolume_loop].
  - simpl. now rewrite app_nil_r.
  - cbv zeta. cbn [forallb map]. destruct (TrimSpace v) as [|c t] eqn:T.
    + reflexivity.
    + rewrite IH. cbn [str_eqb negb andb].
      destruct (forallb _ args); [|reflexivity].
      now rewrite <- app_assoc.
Qed.

Section ParseMore.
Variable mapLower mapUpper : str -> str.
Variable foldUnicode : str -> str -> bool.
Variable BFlags_Parse : list flagDecl -> list str -> result error FlagSet.

(** X12. For a [VOLUME] request with arguments whose flags parse,
    [parseVolume] stores every argument trimmed of white space, in
    order, and refuses the request exactly when an argument is nothing
    but white space. *)
Theorem parseVolume_trimmed (req : parseRequest) (fs : FlagSet) :
  args req <> [] ->
  BFlags_Parse [] (flags req) = Ok fs ->
  parseVolume BFlags_Parse req =
  if forallb (fun v => negb (str_eqb (TrimSpace v) [])) (args req)
  then Ok {| volume_withNameAndCode := newWithNameAndCode req;
             Volumes := map TrimSpace (args req) |}
  else Err (errOther (go "VOLUME specified can not be an empty string")).
Proof.
  intros HA HF. unfold parseVolume.
  destruct (args req) as [|a l] eqn:A; [congruence|].
  rewrite HF, parseVolume_loop_spec.
  now destruct (forallb _ (a :: l)).
Qed.

End ParseMore.

Lemma parseVolume_trimmed_witness :
  parseVolume BFlags_Parse_model volumeRequest =
  if forallb (fun v => negb (str_eqb (TrimSpace v) [])) (args volumeRequest)
  then Ok {| volume_withNameAndCode := newWithNameAndCode volumeRequest;
             Volumes := map TrimSpace (args volumeRequest) |}
  else Err (errOther (go "VOLUME specified can not be an empty string")).
Proof.
  apply (@parseVolume_trimmed BFlags_Parse_model volumeRequest
           (flagsOf [] volumeRequest)).
  - discriminate.
  - reflexivity.
Defined.

(** *** Comments *)

Lemma CutPrefix_spec s prefix after :
  CutPrefix s prefix = Some after <-> s = prefix ++ after.
Proof.
  revert s. induction prefix as [|x prefix IH]; intros [|y s]; simpl.
  - split; [intro H; now injection H as <-|intros <-; reflexivity].
  - split; [intro H; now injection H as <-|intros <-; reflexivity].
  - split; discriminate.
  - destruct (byte_eqb x y) eqn:E.
    + apply byte_eqb_eq in E. subst y. rewrite IH. split; [now intros ->|].
      intro H. now injection H.
    + split; [discriminate|]. intro H. injection H as -> _.
      now rewrite byte_eqb_refl in E.
Qed.

Lemma getComment_loop_skip name pre : forall rest,
  (forall l, In l pre -> ~ describes name l) ->
  getComment_loop (pre ++ rest) name = getComment_loop rest name.
Proof.
  induction pre as [|l pre IH]; intros rest H; [reflexivity|].
  cbn [app getComment_loop].
  destruct (CutPrefix l (name ++ go " ")) as [after|] eqn:E.
  - apply CutPrefix_spec in E. exfalso. apply (H l); [now left|].
    exists after. now rewrite E, <- app_assoc.
  - apply IH. intros l' Hl. apply H. now right.
Qed.

Lemma getComment_loop_first name text :
  name <> [] -> getComment [name ++ go " " ++ text] name = text.
Proof.
  intro HN. unfold getComment. destruct name as [|c name]; [congruence|].
  cbn [getComment_loop].
  replace (CutPrefix ((c :: name) ++ go " " ++ text) ((c :: name) ++ go " "))
    with (Some text); [reflexivity|].
  symmetry. apply CutPrefix_spec. now rewrite <- app_assoc.
Qed.

(** X13. For a name that is not empty, the comment [getComment]
    returns is the text after the name and a space in the first
    comment line that starts with them. *)
Theorem getComment_first (name text : str) (pre post : list str) :
  name <> [] ->
  (forall l, In l pre -> ~ describes name l) ->
  getComment (pre ++ (name ++ go " " ++ text) :: post) name = text.
Proof.
  intros HN HP. unfold getComment. destruct name as [|c name]; [congruence|].
  rewrite getComment_loop_skip by assumption. cbn [getComment_loop].
  replace (CutPrefix ((c :: name) ++ go " " ++ text) ((c :: name) ++ go " "))
    with (Some text); [reflexivity|].
  symmetry. apply CutPrefix_spec. now rewrite <- app_assoc.
Qed.

Lemma getComment_first_witness :
  getComment
    ([go "check=skip"] ++ (go "VERSION" ++ go " " ++ go "the release")
       :: [go "VERSION again"])
    (go "VERSION")
  = go "the release".
Proof.
  apply (@getComment_first (go "VERSION") (go "the release")
           [go "check=skip"] [go "VERSION again"]).
  - discriminate.
  - intros l [<-|[]] (text & H). discriminate.
Defined.

(** X14. Whatever [getComment] returns is the empty string or a text
    that stands in the comments after the name and a space; for the
    empty name it is the empty string. *)
Theorem getComment_found (comments : list str) (name : str) :
  (getComment comments name = [] \/
   In (name ++ go " " ++ getComment comments name) comments) /\
  getComment comments [] = [].
Proof.
  split; [|reflexivity].
  unfold getComment. destruct name as [|c name]; [now left|].
  induction comments as [|l comments IH]; cbn [getComment_loop];
    [now left|].
  destruct (CutPrefix l ((c :: name) ++ go " ")) as [after|] eqn:E.
  - right. left. apply CutPrefix_spec in E. now rewrite E, <- app_assoc.
  - destruct IH as [IH|IH]; [now left|right; now right].
Qed.

(** *** Stage names *)

Lemma isNameByte_lower c :
  isNameByte c = true -> isRuneSelf c = false /\ lowerByte c = c.
Proof.
  unfold isNameByte, isLower, strconv.isDigit, isRuneSelf, lowerByte,
    utf8.RuneSelf.
  intro H.
  assert ((code c <= 122)%N /\ ~ (65 <= code c <= 90)%N) as [H1 H2].
  { repeat (apply orb_true_iff in H; destruct H as [H|H]);
      try (apply andb_true_iff in H; destruct H as [Ha Hb];
           apply N.leb_le in Ha, Hb; lia);
      apply byte_eqb_eq in H; subst c; vm_compute; split;
        try discriminate; intros [A B]; now apply B. }
  split.
  - apply N.leb_gt. lia.
  - destruct (N.leb 65 (code c)) eqn:A; [|reflexivity].
    destruct (N.leb (code c) 90) eqn:B; [|reflexivity].
    apply N.leb_le in A, B. lia.
Qed.

Lemma isLower_isNameByte c : isLower c = true -> isNameByte c = true.
Proof. unfold isNameByte. now intros ->. Qed.

(** A valid stage name is its own lower-case form. *)
Lemma ToLower_validName mapLower s :
  validName s = true -> strings.ToLower mapLower s = s.
Proof.
  intro V.
  assert (forallb isNameByte s = true) as F.
  { destruct s as [|c t]; [discriminate|]. simpl in V.
    apply andb_true_iff in V. destruct V as [V1 V2]. simpl.
    now rewrite (isLower_isNameByte _ V1). }
  clear V. unfold strings.ToLower.
  assert (isASCII s = true /\ map lowerByte s = s) as [A M].
  { induction s as [|c t IH]; [now split|].
    simpl in F. apply andb_true_iff in F. destruct F as [F1 F2].
    destruct (isNameByte_lower _ F1) as [R L].
    destruct (IH F2) as [A M]. unfold isASCII in *. simpl.
    now rewrite R, A, L, M. }
  now rewrite A.
Qed.

Section FromFacts.
Variable mapLower mapUpper : str -> str.
Variable foldUnicode : str -> str -> bool.
Variable BFlags_Parse : list flagDecl -> list str -> result error FlagSet.

Lemma parseBuildStageName_cases args name :
  parseBuildStageName mapLower foldUnicode args = Ok name ->
  (exists base, args = [base] /\ name = []) \/
  (exists base as_ declared,
     args = [base; as_; declared] /\
     strings.EqualFold foldUnicode as_ (go "as") = true /\
     name = strings.ToLower mapLower declared /\ validName name = true).
Proof.
  unfold parseBuildStageName, EqualFold, instructions.ToLower.
  destruct args as [|base [|as_ [|declared [|x rest]]]]; try discriminate.
  - intro H. injection H as <-. left. now exists base.
  - destruct (strings.EqualFold foldUnicode as_ (go "as")) eqn:E;
      [|discriminate].
    cbv zeta. rewrite validStageName_validName.
    destruct (validName (strings.ToLower mapLower declared)) eqn:V;
      [|discriminate].
    intro H. injection H as <-. right. now exists base, as_, declared.
Qed.

(** X15. A stage name [parseBuildStageName] returns is empty, for
    [FROM base], or a valid name, the lower-case form of the declared
    one; declared again as it was returned, a name is accepted and
    comes back unchanged. *)
Theorem parseBuildStageName_stable (args : list str) (name base : str) :
  parseBuildStageName mapLower foldUnicode args = Ok name ->
  (name = [] /\ List.length args = 1 \/
   validName name = true /\ List.length args = 3 /\
   name = strings.ToLower mapLower (nth 2 args [])) /\
  (name <> [] ->
   parseBuildStageName mapLower foldUnicode [base; go "as"; name] = Ok name).
Proof.
  intro H. apply parseBuildStageName_cases in H.
  destruct H as [(b & -> & ->)|(b & as_ & declared & -> & E & -> & V)].
  - split; [now left|congruence].
  - split; [right; now repeat split|]. intros _.
    unfold parseBuildStageName, EqualFold, instructions.ToLower.
    change (strings.EqualFold foldUnicode (go "as") (go "as")) with true.
    cbv iota zeta.
    rewrite (ToLower_validName mapLower _ V), validStageName_validName, V.
    reflexivity.
Qed.

(** X16. The stage [parseFrom] returns takes the first argument as its
    base, the name [parseBuildStageName] gives, no commands, and the
    comment [getComment] finds for that name. The stage-name-casing
    check of the linter fails exactly when the stored name differs from
    the declared one. *)
Theorem parseFrom_stage (req : parseRequest) (stage : Stage) :
  parseFrom mapLower foldUnicode BFlags_Parse req = Ok stage ->
  parseBuildStageName mapLower foldUnicode (args req) = Ok (Name stage) /\
  nth_error (args req) 0 = Some (BaseName stage) /\
  Commands stage = [] /\
  OrigCmd stage = command req /\
  StageComment stage = getComment (comments req) (Name stage) /\
  (isLowerCaseStageName mapLower (args req) = false <->
   exists declared,
     nth_error (args req) 2 = Some declared /\ Name stage <> declared).
Proof.
  unfold parseFrom.
  destruct (parseBuildStageName mapLower foldUnicode (args req))
    as [name|] eqn:P; [|discriminate].
  destruct (BFlags_Parse _ (flags req)) as [fs|]; [|discriminate].
  intro H. injection H as <-. cbn [Name BaseName Commands OrigCmd StageComment].
  split; [reflexivity|].
  apply parseBuildStageName_cases in P.
  destruct P as [(b & -> & ->)|(b & as_ & declared & -> & E & -> & V)];
    (split; [reflexivity|]); repeat split; try discriminate.
  - intros (declared & H & _). discriminate.
  - unfold isLowerCaseStageName. intro H.
    exists declared. split; [reflexivity|]. intro H'.
    rewrite H', str_eqb_refl in H. discriminate.
  - intros (x & H & N). injection H as <-.
    unfold isLowerCaseStageName.
    destruct (str_eqb declared (strings.ToLower mapLower declared)) eqn:S;
      [|reflexivity].
    apply str_eqb_eq in S. congruence.
Qed.

End FromFacts.

Lemma parseBuildStageName_stable_witness :
  (go "builder" = [] /\ List.length (args fromRequest) = 1 \/
   validName (go "builder") = true /\ List.length (args fromRequest) = 3 /\
   go "builder" = strings.ToLower sameText (nth 2 (args fromRequest) [])) /\
  (go "builder" <> [] ->
   parseBuildStageName sameText noFold [go "debian"; go "as"; go "builder"]
   = Ok (go "builder")).
Proof.
  apply (@parseBuildStageName_stable sameText noFold (args fromRequest)
           (go "builder") (go "debian")).
  vm_compute. reflexivity.
Defined.

Lemma parseFrom_stage_witness :
  parseBuildStageName sameText noFold (args fromRequest)
  = Ok (Name fromStage) /\
  nth_error (args fromRequest) 0 = Some (BaseName fromStage) /\
  Commands fromStage = [] /\
  OrigCmd fromStage = command fromRequest /\
  StageComment fromStage
  = getComment (comments fromRequest) (Name fromStage) /\
  (isLowerCaseStageName sameText (args fromRequest) = false <->
   exists declared,
     nth_error (args fromRequest) 2 = Some declared /\
     Name fromStage <> declared).
Proof.
  apply (@parseFrom_stage sameText noFold BFlags_Parse_model fromRequest
           fromStage).
  vm_compute. reflexivity.
Defined.

(** *** Sources and destination *)

Section SourcesFacts.
Variable BFlags_Parse : list flagDecl -> list str -> result error FlagSet.
Variable MustParseHeredoc : str -> option Heredoc.
Variable ChompHeredocContent : str -> str.

Lemma heredocLookup_last hs n :
  match heredocLookup hs n with
  | Some h =>
      exists pre post,
        hs = pre ++ h :: post /\ instructions.Name h = n /\
        Forall (fun h' => instructions.Name h' <> n) post
  | None => Forall (fun h => instructions.Name h <> n) hs
  end.
Proof.
  induction hs as [|h0 hs IH]; cbn [heredocLookup]; [constructor|].
  destruct (heredocLookup hs n) as [h'|].
  - destruct IH as (pre & post & -> & N & F).
    exists (h0 :: pre), post. now repeat split.
  - destruct (str_eqb (instructions.Name h0) n) eqn:E.
    + apply str_eqb_eq in E. exists [], hs. now repeat split.
    + constructor; [|assumption].
      intro H. rewrite H, str_eqb_refl in E. discriminate.
Qed.

Lemma heredocLookup_content hs n :
  contentOf hs n
    match heredocLookup hs n with
    | Some h => Content h
    | None => []
    end.
Proof.
  pose proof (heredocLookup_last hs n) as H. unfold contentOf.
  destruct (heredocLookup hs n) as [h|].
  - destruct H as (pre & post & E & N & F). left.
    exists pre, h, post. now repeat split.
  - right. now split.
Qed.

Lemma sources_spec hs srcs : forall paths contents,
  exists more,
    sources MustParseHeredoc ChompHeredocContent hs srcs paths contents
    = (paths ++ filter (isPath MustParseHeredoc) srcs, contents ++ more) /\
    Forall2 (contentFor ChompHeredocContent hs)
      (heredocsOf MustParseHeredoc srcs) more.
Proof.
  induction srcs as [|src srcs IH]; intros paths contents.
  - exists []. simpl. rewrite !app_nil_r. split; [reflexivity|constructor].
  - cbn [sources filter]. unfold isPath at 1, heredocsOf.
    cbn [flat_map]. destruct (MustParseHeredoc src) as [heredoc|] eqn:M.
    + cbv zeta.
      match goal with
      | |- context [contents ++ [?sc]] =>
          destruct (IH paths (contents ++ [sc])) as (more & E & F);
          exists (sc :: more)
      end.
      rewrite E, <- app_assoc. split; [reflexivity|].
      cbn [app]. constructor; [|exact F].
      unfold contentFor. cbn [Path SCExpand Data].
      split; [reflexivity|]. split; [reflexivity|].
      eexists. split; [apply heredocLookup_content|reflexivity].
    + destruct (IH (paths ++ [src]) contents) as (more & E & F).
      exists more. rewrite E, <- app_assoc. now split.
Qed.

(** X17. For a request with arguments, [parseSourcesAndDest] is
    refused exactly when its last argument is a heredoc. Otherwise the
    destination is the last argument, the source paths are the
    arguments before it that are not heredocs, in order, and the source
    contents are one per heredoc among them, in order: under the name
    and with the expansion flag of that heredoc, and with the content
    of the last heredoc of that name attached to the request, empty
    when there is none, chomped exactly when the heredoc asks for
    it. *)
Theorem parseSourcesAndDest_partition (req : parseRequest) (command : str) :
  args req <> [] ->
  match parseSourcesAndDest MustParseHeredoc ChompHeredocContent req command
  with
  | Err e =>
      isPath MustParseHeredoc (last (args req) []) = false /\
      e = errBadHeredoc command (go "a destination")
  | Ok sd =>
      let srcs := removelast (args req) in
      isPath MustParseHeredoc (last (args req) []) = true /\
      DestPath sd = last (args req) [] /\
      SourcePaths sd = filter (isPath MustParseHeredoc) srcs /\
      Forall2 (contentFor ChompHeredocContent (heredocs req))
        (heredocsOf MustParseHeredoc srcs) (SourceContents sd) /\
      List.length (SourcePaths sd) + List.length (SourceContents sd)
      = List.length srcs
  end.
Proof.
  intros _. unfold parseSourcesAndDest. cbv zeta.
  destruct (MustParseHeredoc (last (args req) [])) as [h|] eqn:D;
    [unfold isPath; now rewrite D|].
  destruct (sources_spec (heredocs req) (removelast (args req)) [] [])
    as (more & E & F).
  rewrite E. cbn [app DestPath SourcePaths SourceContents].
  split; [unfold isPath; now rewrite D|].
  repeat split; try assumption.
  rewrite <- (Forall2_length F). unfold heredocsOf, isPath.
  clear E F.
  induction (removelast (args req)) as [|s l IH]; [reflexivity|].
  cbn [filter flat_map]. destruct (MustParseHeredoc s);
    cbn [List.length app]; rewrite ?length_app; cbn [List.length]; lia.
Qed.

(** X18. [parseCopy] checks the number of arguments before anything
    else: with fewer than two it returns the argument-count error
    whatever the flags. When it accepts, the flags parsed against
    [--chown], [--from], [--chmod] and [--link] alone, the sources and
    destination are those of [parseSourcesAndDest], and the command
    has neither parents nor exclude patterns. *)
Theorem parseCopy_command (req : parseRequest) :
  match parseCopy BFlags_Parse MustParseHeredoc ChompHeredocContent req with
  | Err e =>
      List.length (args req) < 2 /\ e = errNoDestinationArgument (go "COPY")
      \/ 2 <= List.length (args req) /\
         (BFlags_Parse copyDecls (flags req) = Err e \/
          parseSourcesAndDest MustParseHeredoc ChompHeredocContent req
            (go "COPY") = Err e)
  | Ok c =>
      2 <= List.length (args req) /\
      parseSourcesAndDest MustParseHeredoc ChompHeredocContent req (go "COPY")
      = Ok (copy_SourcesAndDest c) /\
      (exists fs,
         BFlags_Parse copyDecls (flags req) = Ok fs /\
         From c = Value (flag fs (go "from")) /\
         copy_Chown c = Value (flag fs (go "chown")) /\
         copy_Chmod c = Value (flag fs (go "chmod")) /\
         copy_Link c = str_eqb (Value (flag fs (go "link"))) (go "true")) /\
      Parents c = false /\ copy_ExcludePatterns c = []
  end.
Proof.
  unfold parseCopy. cbn [excludePatternsEnabled parentsEnabled app].
  fold copyDecls.
  destruct (Nat.ltb (List.length (args req)) 2) eqn:L.
  - apply Nat.ltb_lt in L. left. now split.
  - apply Nat.ltb_ge in L.
    destruct (BFlags_Parse copyDecls (flags req)) as [fs|e] eqn:F;
      [|right; split; [assumption|now left]].
    destruct (parseSourcesAndDest _ _ req (go "COPY")) as [sd|e] eqn:S;
      [|right; split; [assumption|now right]].
    cbn [copy_SourcesAndDest From copy_Chown copy_Chmod copy_Link Parents
         copy_ExcludePatterns andb].
    repeat split; try assumption. now exists fs.
Qed.

(** X22. What [parseAdd] returns, by cases. A package command holds
    all the arguments as package names, and comes only from flags that
    parse with [--apt] set; the other flags are then dropped. An add
    command comes from flags that parse without [--apt], at least two
    arguments and the sources and destination of
    [parseSourcesAndDest]; it has no exclude patterns, and its unpack
    field is set exactly when [--unpack] was given. *)
Theorem parseAdd_command (req : parseRequest) :
  match parseAdd BFlags_Parse MustParseHeredoc ChompHeredocContent req with
  | Ok (IsPackage p) =>
      PackageNames p = args req /\
      pkg_withNameAndCode p = newWithNameAndCode req /\
      exists fs,
        BFlags_Parse addDecls (flags req) = Ok fs /\
        Value (flag fs (go "apt")) = go "true"
  | Ok (IsAdd a) =>
      2 <= List.length (args req) /\
      parseSourcesAndDest MustParseHeredoc ChompHeredocContent req (go "ADD")
      = Ok (add_SourcesAndDest a) /\
      ExcludePatterns a = [] /\
      exists fs,
        BFlags_Parse addDecls (flags req) = Ok fs /\
        Value (flag fs (go "apt")) <> go "true" /\
        Checksum a = Value (flag fs (go "checksum")) /\
        (Unpack a = None <-> used fs (go "unpack") = false)
  | Err e =>
      BFlags_Parse addDecls (flags req) = Err e \/
      exists fs,
        BFlags_Parse addDecls (flags req) = Ok fs /\
        Value (flag fs (go "apt")) <> go "true" /\
        (List.length (args req) < 2 /\
         e = errNoDestinationArgument (go "ADD") \/
         2 <= List.length (args req) /\
         parseSourcesAndDest MustParseHeredoc ChompHeredocContent req
           (go "ADD") = Err e)
  end.
Proof.
  unfold parseAdd. cbn [excludePatternsEnabled app]. fold addDecls.
  destruct (BFlags_Parse addDecls (flags req)) as [fs|e] eqn:F; [|now left].
  destruct (str_eqb (Value (flag fs (go "apt"))) (go "true")) eqn:A.
  - apply str_eqb_eq in A. repeat split. now exists fs.
  - assert (Value (flag fs (go "apt")) <> go "true") as NA.
    { intro H. rewrite H in A. discriminate. }
    destruct (Nat.ltb (List.length (args req)) 2) eqn:L.
    + apply Nat.ltb_lt in L. right. exists fs. repeat split; try assumption.
      left. now split.
    + apply Nat.ltb_ge in L.
      destruct (parseSourcesAndDest _ _ req (go "ADD")) as [sd|e] eqn:S.
      * cbn [add_SourcesAndDest ExcludePatterns Checksum Unpack].
        repeat split; try assumption. exists fs.
        repeat split; try assumption;
          destruct (used fs (go "unpack")); congruence.
      * right. exists fs. repeat split; try assumption. right. now split.
Qed.

End SourcesFacts.

Lemma parseSourcesAndDest_partition_witness :
  match parseSourcesAndDest MustParseHeredoc_model ChompHeredocContent_model
          heredocRequest (go "COPY")
  with
  | Err e =>
      isPath MustParseHeredoc_model (last (args heredocRequest) []) = false /\
      e = errBadHeredoc (go "COPY") (go "a destination")
  | Ok sd =>
      isPath MustParseHeredoc_model (last (args heredocRequest) []) = true /\
      DestPath sd = last (args heredocRequest) [] /\
      SourcePaths sd
      = filter (isPath MustParseHeredoc_model)
          (removelast (args heredocRequest)) /\
      Forall2 (contentFor ChompHeredocContent_model (heredocs heredocRequest))
        (heredocsOf MustParseHeredoc_model
           (removelast (args heredocRequest)))
        (SourceContents sd) /\
      List.length (SourcePaths sd) + List.length (SourceContents sd)
      = List.length (removelast (args heredocRequest))
  end.
Proof.
  apply (@parseSourcesAndDest_partition MustParseHeredoc_model
           ChompHeredocContent_model heredocRequest (go "COPY")).
  discriminate.
Defined.

(** The example in full: the second heredoc named [EOF] gives the
    content, chomped; the heredoc without content attached reads as
    empty. *)
Lemma parseSourcesAndDest_heredocs :
  parseSourcesAndDest MustParseHeredoc_model ChompHeredocContent_model
    heredocRequest (go "COPY")
  = Ok {| DestPath := go "/dst/"; SourcePaths := [go "a.txt"];
          SourceContents :=
            [ {| Path := go "EOF"; Data := go "hello"; SCExpand := true |};
              {| Path := go "MISSING"; Data := []; SCExpand := true |} ] |}.
Proof. vm_compute. reflexivity. Qed.

(** *** [HEALTHCHECK] *)

Lemma ParseInt_range s bitSize n :
  (0 < bitSize)%Z ->
  strconv.ParseInt s bitSize = Ok n ->
  (- 2 ^ (bitSize - 1) <= n < 2 ^ (bitSize - 1))%Z.
Proof.
  intros HB. unfold strconv.ParseInt. destruct s as [|c0 r]; [discriminate|].
  cbv zeta.
  destruct (strconv.ParseUint _ bitSize) as [un|] eqn:U; [|discriminate].
  assert (0 <= un)%Z as HU.
  { unfold strconv.ParseUint in U.
    destruct (if byte_eqb c0 "+" || byte_eqb c0 "-" then r else c0 :: r);
      [discriminate|].
    now apply package_more_facts.ParseUint_loop_nonneg in U. }
  assert (0 < 2 ^ (bitSize - 1))%Z by (apply Z.pow_pos_nonneg; lia).
  destruct (byte_eqb c0 "-"); cbn [negb andb].
  - destruct (un >? 2 ^ (bitSize - 1))%Z eqn:G; [discriminate|].
    intro H'. injection H' as <-.
    rewrite Z.gtb_ltb in G. apply Z.ltb_ge in G. lia.
  - destruct (un >=? 2 ^ (bitSize - 1))%Z eqn:G; [discriminate|].
    intro H'. injection H' as <-.
    rewrite Z.geb_leb in G. apply Z.leb_gt in G. lia.
Qed.

Section HealthFacts.
Variable mapUpper : str -> str.
Variable BFlags_Parse : list flagDecl -> list str -> result error FlagSet.
Variable ParseDuration : str -> result error Duration.
Variable handleJSONArgs : list str -> (str -> bool) -> list str.

Lemma parseOptInterval_ok (f : Flag) (dur : Duration) :
  parseOptInterval ParseDuration f = Ok dur -> okDuration dur.
Proof.
  unfold parseOptInterval, okDuration. cbv zeta.
  destruct (Value f) as [|c v]; [intro H; injection H as <-; now left|].
  destruct (ParseDuration (c :: v)) as [d|]; [|discriminate].
  destruct (d =? 0)%Z; [intro H; injection H as <-; now left|].
  destruct (d <? Millisecond)%Z eqn:L; [discriminate|].
  intro H. injection H as <-. right. now apply Z.ltb_ge in L.
Qed.

(** X19. A health check [parseHealthcheck] accepts is either the test
    [NONE] alone, from the single argument [NONE] in any casing, with
    every duration and the retries zero; or a test made of [CMD] (for
    the JSON form) or [CMD-SHELL] followed by a command that is not
    empty, with every duration zero or at least one millisecond and
    the retries from 0 to 2^31-1. *)
Theorem parseHealthcheck_config (req : parseRequest)
  (c : HealthCheckCommand) :
  parseHealthcheck mapUpper BFlags_Parse ParseDuration handleJSONArgs req
  = Ok c ->
  (Test (Health c) = [go "NONE"] /\ List.length (args req) = 1 /\
   Interval (Health c) = 0%Z /\ Timeout (Health c) = 0%Z /\
   StartPeriod (Health c) = 0%Z /\ StartInterval (Health c) = 0%Z /\
   Retries (Health c) = 0%Z) \/
  (exists cmdSlice,
     cmdSlice <> [] /\
     cmdSlice = handleJSONArgs (tl (args req)) (attributes req) /\
     Test (Health c)
     = (if attributes req (go "json") then go "CMD" else go "CMD-SHELL")
       :: cmdSlice /\
     okDuration (Interval (Health c)) /\ okDuration (Timeout (Health c)) /\
     okDuration (StartPeriod (Health c)) /\
     okDuration (StartInterval (Health c)) /\
     (0 <= Retries (Health c) < 2 ^ 31)%Z).
Proof.
  unfold parseHealthcheck. destruct (args req) as [|a0 rest]; [discriminate|].
  cbv zeta. unfold instructions.ToUpper.
  destruct (str_eqb (strings.ToUpper mapUpper a0) (go "NONE")) eqn:N.
  - destruct rest; [|discriminate]. intro H. injection H as <-.
    apply str_eqb_eq in N. left. cbn [Health Test]. rewrite N.
    now repeat split.
  - destruct (BFlags_Parse _ (flags req)) as [fs|]; [|discriminate].
    destruct (str_eqb (strings.ToUpper mapUpper a0) (go "CMD")) eqn:C;
      [|discriminate].
    apply str_eqb_eq in C. cbn [negb tl].
    destruct (handleJSONArgs rest (attributes req)) as [|x cmdSlice] eqn:J;
      [discriminate|].
    destruct (parseOptInterval ParseDuration (flag fs (go "interval")))
      as [d1|] eqn:D1; [|discriminate].
    destruct (parseOptInterval ParseDuration (flag fs (go "timeout")))
      as [d2|] eqn:D2; [|discriminate].
    destruct (parseOptInterval ParseDuration (flag fs (go "start-period")))
      as [d3|] eqn:D3; [|discriminate].
    destruct (parseOptInterval ParseDuration (flag fs (go "start-interval")))
      as [d4|] eqn:D4; [|discriminate].
    apply parseOptInterval_ok in D1, D2, D3, D4.
    assert (forall retries (cmd : HealthCheckCommand),
              (0 <= retries < 2 ^ 31)%Z ->
              Health cmd =
                {| Test := (if negb (attributes req (go "json"))
                            then go "CMD-SHELL"
                            else strings.ToUpper mapUpper a0) :: x :: cmdSlice;
                   Interval := d1; Timeout := d2; StartPeriod := d3;
                   StartInterval := d4; Retries := retries |} ->
              exists cs,
                cs <> [] /\ cs = x :: cmdSlice /\
                Test (Health cmd)
                = (if attributes req (go "json") then go "CMD"
                   else go "CMD-SHELL") :: cs /\
                okDuration (Interval (Health cmd)) /\
                okDuration (Timeout (Health cmd)) /\
                okDuration (StartPeriod (Health cmd)) /\
                okDuration (StartInterval (Health cmd)) /\
                (0 <= Retries (Health cmd) < 2 ^ 31)%Z) as Fin.
    { intros retries cmd HR ->. exists (x :: cmdSlice).
      cbn [Test Interval Timeout StartPeriod StartInterval Retries].
      rewrite C. repeat split; try assumption; try discriminate; try lia.
      now destruct (attributes req (go "json")). }
    destruct (Value (flag fs (go "retries"))) as [|r0 rs] eqn:V.
    + intro H. injection H as <-. right. apply (Fin 0%Z); [lia|reflexivity].
    + destruct (strconv.ParseInt (r0 :: rs) 32) as [retries|] eqn:P;
        [|discriminate].
      destruct (retries <? 0)%Z eqn:L; [discriminate|].
      intro H. injection H as <-. right.
      apply ParseInt_range in P; [|lia]. apply Z.ltb_ge in L.
      apply (Fin retries); [|reflexivity].
      change (2 ^ (32 - 1))%Z with (2 ^ 31)%Z in P. lia.
Qed.

End HealthFacts.

Lemma parseHealthcheck_config_witness :
  (Test (Health healthCommand) = [go "NONE"] /\
   List.length (args healthRequest) = 1 /\
   Interval (Health healthCommand) = 0%Z /\
   Timeout (Health healthCommand) = 0%Z /\
   StartPeriod (Health healthCommand) = 0%Z /\
   StartInterval (Health healthCommand) = 0%Z /\
   Retries (Health healthCommand) = 0%Z) \/
  (exists cmdSlice,
     cmdSlice <> [] /\
     cmdSlice
     = handleJSONArgs_model (tl (args healthRequest))
         (attributes healthRequest) /\
     Test (Health healthCommand)
     = (if attributes healthRequest (go "json") then go "CMD"
        else go "CMD-SHELL") :: cmdSlice /\
     okDuration (Interval (Health healthCommand)) /\
     okDuration (Timeout (Health healthCommand)) /\
     okDuration (StartPeriod (Health healthCommand)) /\
     okDuration (StartInterval (Health healthCommand)) /\
     (0 <= Retries (Health healthCommand) < 2 ^ 31)%Z).
Proof.
  apply (@parseHealthcheck_config sameText BFlags_Parse_model
           ParseDuration_model handleJSONArgs_model healthRequest
           healthCommand).
  vm_compute. reflexivity.
Defined.

(** *** Description comments *)

Lemma Split_first_word (w rest : str) :
  Contains w " " = false ->
  nth 0 (Split (w ++ go " " ++ rest) " ") [] = w.
Proof.
  induction w as [|c w IH]; intro H.
  - reflexivity.
  - simpl in H. apply orb_false_iff in H. destruct H as [H1 H2].
    cbn [app Split].
    assert (byte_eqb c " " = false) as N.
    { destruct (byte_eqb c " ") eqn:E; [|reflexivity].
      apply byte_eqb_eq in E. subst. discriminate. }
    rewrite N. specialize (IH H2).
    destruct (package_more_facts.Split_cons (w ++ go " " ++ rest) " ")
      as (h & t & E).
    rewrite E in *. cbn [nth] in *. now rewrite IH.
Qed.

Lemma existsb_str_eqb (x : str) (l : list str) :
  existsb (str_eqb x) l = true <-> In x l.
Proof.
  rewrite existsb_exists. split.
  - intros (y & H & E). apply str_eqb_eq in E. now subst.
  - intro H. exists x. split; [assumption|apply str_eqb_refl].
Qed.

(** X20. No warning about the description comment is raised when the
    last comment line starts with one of the keys, a key without a
    space, followed by a space: the line in which [getComment] looks
    for the description of that key. *)
Theorem validateDefinitionDescription_described (instruction key text : str)
  (argKeys pre : list str) :
  In key argKeys ->
  Contains key " " = false ->
  validateDefinitionDescription instruction argKeys
    (pre ++ [key ++ go " " ++ text]) = None /\
  (key <> [] -> getComment [key ++ go " " ++ text] key = text).
Proof.
  intros HI HC. split.
  - unfold validateDefinitionDescription.
    destruct (pre ++ [key ++ go " " ++ text]) as [|l0 ls] eqn:E;
      [reflexivity|].
    destruct argKeys as [|key0 keys]; [reflexivity|].
    rewrite <- E, last_last. cbv zeta.
    rewrite Split_first_word by assumption.
    now rewrite (proj2 (existsb_str_eqb key (key0 :: keys)) HI).
  - intro HN. apply (@getComment_loop_first key text HN).
Qed.

Lemma validateDefinitionDescription_described_witness :
  validateDefinitionDescription (go "ARG") [go "VERSION"; go "TARGET"]
    ([go "check=skip"] ++ [go "TARGET" ++ go " " ++ go "the platform"])
  = None /\
  (go "TARGET" <> [] ->
   getComment [go "TARGET" ++ go " " ++ go "the platform"] (go "TARGET")
   = go "the platform").
Proof.
  apply (@validateDefinitionDescription_described (go "ARG") (go "TARGET")
           (go "the platform") [go "VERSION"; go "TARGET"] [go "check=skip"]).
  - simpl. tauto.
  - reflexivity.
Defined.

(** *** Commands of one argument, and the shell and JSON forms *)

Section FormFacts.
Variable BFlags_Parse : list flagDecl -> list str -> result error FlagSet.
Variable handleJSONArgs : list str -> (str -> bool) -> strSlice.

Ltac one_arg_ok fs :=
  let c := fresh "c" in
  let H := fresh "H" in
  let N := fresh "N" in
  intro c; split;
  [ intro H; injection H as <-; repeat split; now exists fs
  | first [ intros (_ & H & N) | intros (H & N) ];
    destruct c; cbn in *; injection H as ->; now subst ].

Ltac one_arg_err :=
  let c := fresh "c" in
  let fs := fresh "fs" in
  let H := fresh "H" in
  intro c; split; [discriminate|intros ((fs & H) & _); discriminate].

(** X23. [MAINTAINER], [WORKDIR] and [USER] are accepted exactly when
    they have one argument and their flags parse, and store that
    argument; the number of arguments is checked first. [STOPSIGNAL]
    is accepted exactly when it has one argument: its flags are never
    parsed. *)
Theorem one_argument_commands (req : parseRequest) :
  (forall c, parseMaintainer BFlags_Parse req = Ok c <->
     (exists fs, BFlags_Parse [] (flags req) = Ok fs) /\
     args req = [Maintainer c] /\
     maintainer_withNameAndCode c = newWithNameAndCode req) /\
  (forall c, parseWorkdir BFlags_Parse req = Ok c <->
     (exists fs, BFlags_Parse [] (flags req) = Ok fs) /\
     args req = [WorkdirPath c] /\
     workdir_withNameAndCode c = newWithNameAndCode req) /\
  (forall c, parseUser BFlags_Parse req = Ok c <->
     (exists fs, BFlags_Parse [] (flags req) = Ok fs) /\
     args req = [User c] /\
     user_withNameAndCode c = newWithNameAndCode req) /\
  (forall c, parseStopSignal req = Ok c <->
     args req = [Signal c] /\
     stopsignal_withNameAndCode c = newWithNameAndCode req) /\
  (List.length (args req) <> 1 ->
   parseMaintainer BFlags_Parse req
   = Err (errExactlyOneArgument (go "MAINTAINER")) /\
   parseWorkdir BFlags_Parse req
   = Err (errExactlyOneArgument (go "WORKDIR")) /\
   parseUser BFlags_Parse req = Err (errExactlyOneArgument (go "USER")) /\
   parseStopSignal req = Err (errExactlyOneArgument (go "STOPSIGNAL"))).
Proof.
  unfold parseMaintainer, parseWorkdir, parseUser, parseStopSignal.
  destruct (args req) as [|a0 [|a1 rest]].
  - repeat split; try discriminate;
      try (intros (_ & H & _); discriminate);
      try (intros (H & _); discriminate).
  - destruct (BFlags_Parse [] (flags req)) as [fs|e].
    + split; [|split; [|split; [|split]]].
      * one_arg_ok fs.
      * one_arg_ok fs.
      * one_arg_ok fs.
      * one_arg_ok fs.
      * intro H. now contradiction H.
    + split; [|split; [|split; [|split]]].
      * one_arg_err.
      * one_arg_err.
      * one_arg_err.
      * one_arg_ok e.
      * intro H. now contradiction H.
  - repeat split; try discriminate;
      try (intros (_ & H & _); discriminate);
      try (intros (H & _); discriminate).
Qed.


End FormFacts.

(** [ENTRYPOINT []] and [CMD []] in JSON form: the entry point has the
    nil command line, the command an empty one. *)
Lemma empty_command_lines :
  parseEntrypoint BFlags_Parse_model handleJSONArgs_slice emptyJSONRequest
  = Ok {| entrypoint_CmdLine :=
            {| CmdLine := None; Files := []; PrependShell := false |};
          entrypoint_withNameAndCode :=
            newWithNameAndCode emptyJSONRequest |} /\
  parseCmd BFlags_Parse_model handleJSONArgs_slice emptyJSONRequest
  = Ok {| cmd_CmdLine :=
            {| CmdLine := Some []; Files := []; PrependShell := false |};
          cmd_withNameAndCode := newWithNameAndCode emptyJSONRequest |}.
Proof. split; vm_compute; reflexivity. Qed.

(** *** [Parse] *)

Section ParseAllFacts.
Variable Node : Type.
Variable ParseInstructionWithLinter : Node -> result error Instruction.
Variable errNoStage : error.

Lemma CurrentStage_last before cur :
  CurrentStage errNoStage (before ++ [cur]) = Ok (before, cur).
Proof.
  unfold CurrentStage. rewrite rev_app_distr. simpl.
  now rewrite rev_involutive.
Qed.

(** With a stage open, a stage node opens the next one and a command
    goes to the open one. *)
Lemma Parse_loop_step n rest before cur metaArgs :
  Parse_loop ParseInstructionWithLinter errNoStage (n :: rest) (before ++ [cur]) metaArgs =
  match ParseInstructionWithLinter n with
  | Err err => Err (parseError err n)
  | Ok (IStage c) => Parse_loop ParseInstructionWithLinter errNoStage rest ((before ++ [cur]) ++ [c]) metaArgs
  | Ok (ICommand c) => Parse_loop ParseInstructionWithLinter errNoStage rest (before ++ [AddCommand cur c]) metaArgs
  | Ok IOther =>
      Err (WithLocation (errOther (go "%T is not a command type")) n)
  end.
Proof.
  cbn [Parse_loop]. rewrite CurrentStage_last.
  destruct (ParseInstructionWithLinter n) as [[c|c|]|e]; try reflexivity;
    destruct (before ++ [cur]) eqn:E; try reflexivity;
    destruct before; discriminate.
Qed.

Lemma stream_nil_groups cs groups :
  map ICommand cs ++ flat_map stageStream groups = [] -> cs = [] /\ groups = [].
Proof.
  destruct cs; [|discriminate]. destruct groups; [now split|discriminate].
Qed.

Lemma Parse_loop_open nodes : forall before cur metaArgs stages metaArgs',
  Parse_loop ParseInstructionWithLinter errNoStage nodes (before ++ [cur]) metaArgs = Ok (stages, metaArgs') <->
  exists cs groups,
    parsed ParseInstructionWithLinter nodes (map ICommand cs ++ flat_map stageStream groups) /\
    stages = before ++ [fold_left AddCommand cs cur] ++ map built groups /\
    metaArgs' = metaArgs.
Proof.
  unfold parsed.
  induction nodes as [|n rest IH]; intros before cur metaArgs stages metaArgs'.
  - cbn [Parse_loop]. split.
    + intro H. injection H as <- <-. exists [], []. repeat split. constructor.
    + intros (cs & groups & F & -> & ->).
      apply Forall2_length in F. symmetry in F. cbn [List.length] in F.
      apply length_zero_iff_nil, stream_nil_groups in F.
      destruct F as [-> ->]. reflexivity.
  - rewrite Parse_loop_step.
    destruct (ParseInstructionWithLinter n) as [[c|c|]|e] eqn:P.
    + rewrite IH. split.
      * intros (cs & groups & F & -> & ->). exists [], ((c, cs) :: groups).
        split; [constructor; assumption|]. split; [|reflexivity].
        cbn [map fold_left app built fst snd]. now rewrite <- !app_assoc.
      * intros (cs & groups & F & -> & ->). inversion F as [|? ins ? l P' F' E1 E2].
        subst. rewrite P in P'. injection P' as <-.
        destruct cs as [|c0 cs]; [|discriminate].
        destruct groups as [|[s0 cs0] groups]; [discriminate|].
        cbn [map app flat_map fst snd] in E2. injection E2 as <- ->.
        exists cs0, groups. split; [assumption|]. split; [|reflexivity].
        cbn [map fold_left app built fst snd]. now rewrite <- !app_assoc.
    + rewrite IH. split.
      * intros (cs & groups & F & -> & ->). exists (c :: cs), groups.
        split; [constructor; assumption|]. now split.
      * intros (cs & groups & F & -> & ->). inversion F as [|? ins ? l P' F' E1 E2].
        subst. rewrite P in P'. injection P' as <-.
        destruct cs as [|c0 cs].
        -- destruct groups as [|[s0 cs0] groups]; discriminate.
        -- cbn [map app] in E2. injection E2 as <- ->.
           exists cs, groups. now repeat split.
    + split; [discriminate|].
      intros (cs & groups & F & _). inversion F as [|? ins ? l P' F' E1 E2].
      subst. rewrite P in P'. injection P' as <-.
      destruct cs as [|c0 cs]; [|discriminate].
      destruct groups as [|[s0 cs0] groups]; discriminate.
    + split; [discriminate|].
      intros (cs & groups & F & _). inversion F as [|? ins ? l P' F' E1 E2].
      subst. rewrite P in P'. discriminate.
Qed.

Lemma Parse_loop_meta nodes : forall metaArgs stages metaArgs',
  Parse_loop ParseInstructionWithLinter errNoStage nodes [] metaArgs = Ok (stages, metaArgs') <->
  exists args groups,
    parsed ParseInstructionWithLinter nodes (stream args groups) /\
    metaArgs' = metaArgs ++ args /\ stages = map built groups.
Proof.
  pose proof Parse_loop_open as Open. unfold parsed in *.
  induction nodes as [|n rest IH]; intros metaArgs stages metaArgs'.
  - cbn [Parse_loop]. split.
    + intro H. injection H as <- <-. exists [], [].
      rewrite app_nil_r. repeat split. constructor.
    + intros (args & groups & F & -> & ->).
      apply Forall2_length in F. symmetry in F. cbn [List.length] in F.
      apply length_zero_iff_nil in F. unfold stream in F.
      destruct args; [|discriminate].
      destruct groups; [|discriminate]. now rewrite app_nil_r.
  - cbn [Parse_loop].
    destruct (ParseInstructionWithLinter n) as [[c|c|]|e] eqn:P.
    + change ([] ++ [c]) with ([] ++ [c] : list Stage).
      rewrite (Open rest [] c). split.
      * intros (cs & groups & F & -> & ->). exists [], ((c, cs) :: groups).
        rewrite app_nil_r. split; [constructor; assumption|]. now split.
      * intros (args & groups & F & -> & ->).
        inversion F as [|? ins ? l P' F' E1 E2]. subst.
        rewrite P in P'. injection P' as <-. unfold stream in E2.
        destruct args as [|a0 args]; [|discriminate].
        destruct groups as [|[s0 cs0] groups]; [discriminate|].
        cbn [map app flat_map fst snd] in E2. injection E2 as <- ->.
        exists cs0, groups. rewrite app_nil_r. now repeat split.
    + assert (forall a, c = CArg a ->
                (Parse_loop ParseInstructionWithLinter errNoStage rest [] (metaArgs ++ [a]) = Ok (stages, metaArgs') <->
                 exists args groups,
                   parsed ParseInstructionWithLinter (n :: rest) (stream args groups) /\
                   metaArgs' = metaArgs ++ args /\
                   stages = map built groups)) as HArg.
      { intros a ->. rewrite IH. split.
        - intros (args & groups & F & -> & ->). exists (a :: args), groups.
          split; [constructor; assumption|].
          now rewrite <- app_assoc.
        - intros (args & groups & F & -> & ->).
          inversion F as [|? ins ? l P' F' E1 E2]. subst.
          rewrite P in P'. injection P' as <-. unfold stream in E2.
          destruct args as [|a0 args].
          + destruct groups as [|[s0 cs0] groups]; discriminate.
          + cbn [map app] in E2. injection E2 as <- ->.
            exists args, groups. split; [assumption|].
            now rewrite <- app_assoc. }
      assert ((forall a, c <> CArg a) ->
              ~ exists args groups,
                  parsed ParseInstructionWithLinter (n :: rest) (stream args groups) /\
                  metaArgs' = metaArgs ++ args /\
                  stages = map built groups) as HOther.
      { intros NA (args & groups & F & _).
        inversion F as [|? ins ? l P' F' E1 E2]. subst.
        rewrite P in P'. injection P' as <-. unfold stream in E2.
        destruct args as [|a0 args].
        - destruct groups as [|[s0 cs0] groups]; discriminate.
        - cbn [map app] in E2. injection E2 as E2 _.
          now apply (NA a0). }
      destruct c; try (apply HArg; reflexivity);
        (split; [discriminate|]; intro H; exfalso; revert H;
         apply HOther; intros a; discriminate).
    + split; [discriminate|].
      intros (args & groups & F & _).
      inversion F as [|? ins ? l P' F' E1 E2]. subst.
      rewrite P in P'. injection P' as <-. unfold stream in E2.
      destruct args as [|a0 args]; [|discriminate].
      destruct groups as [|[s0 cs0] groups]; discriminate.
    + split; [discriminate|].
      intros (args & groups & F & _).
      inversion F as [|? ins ? l P' F' E1 E2]. subst.
      rewrite P in P'. discriminate.
Qed.

(** X26. [Parse] succeeds exactly on the Dockerfiles whose nodes all
    parse and read as [ARG]s followed by stages, each stage followed by
    its commands. The meta arguments it returns are those leading
    [ARG]s, and the stages are the declared ones in order, each with
    the commands that follow it added in order. *)
Theorem Parse_partition (children : list Node) (stages : list Stage)
  (metaArgs : list ArgCommand) :
  Parse ParseInstructionWithLinter errNoStage children
  = Ok (stages, metaArgs) <->
  exists groups,
    parsed ParseInstructionWithLinter children (stream metaArgs groups) /\
    stages = map built groups.
Proof.
  unfold Parse. rewrite Parse_loop_meta. split.
  - intros (args & groups & F & -> & ->). now exists groups.
  - intros (groups & F & ->). now exists metaArgs, groups.
Qed.

Lemma Parse_loop_app pre : forall rest stages metaArgs,
  Parse_loop ParseInstructionWithLinter errNoStage (pre ++ rest)
    stages metaArgs =
  match Parse_loop ParseInstructionWithLinter errNoStage pre
          stages metaArgs with
  | Ok (stages', metaArgs') =>
      Parse_loop ParseInstructionWithLinter errNoStage rest
        stages' metaArgs'
  | Err e => Err e
  end.
Proof.
  induction pre as [|n pre IH]; intros rest stages metaArgs;
    [reflexivity|].
  cbn [app Parse_loop].
  destruct (ParseInstructionWithLinter n) as [[c|c|]|e]; try reflexivity.
  - destruct stages; apply IH.
  - destruct (CurrentStage errNoStage stages) as [[before stage]|e] eqn:C.
    + destruct stages; [discriminate|]. apply IH.
    + destruct stages as [|s0 stages].
      * destruct c; try reflexivity. apply IH.
      * reflexivity.
  - now destruct stages.
Qed.

(** X27. [Parse] stops at the first node that does not parse, after
    a prefix it has read: the error is a parse error around the error
    of that node and the node, and nothing after the node is looked
    at. *)
Theorem Parse_node_error (pre rest : list Node) (n : Node)
  (stages : list Stage) (metaArgs : list ArgCommand) (e : error) :
  Parse ParseInstructionWithLinter errNoStage pre = Ok (stages, metaArgs) ->
  ParseInstructionWithLinter n = Err e ->
  Parse ParseInstructionWithLinter errNoStage (pre ++ n :: rest)
  = Err (parseError e n).
Proof.
  unfold Parse. intros H P.
  rewrite Parse_loop_app, H. cbn [Parse_loop]. now rewrite P.
Qed.

(** X28. A command other than [ARG] met before any [FROM] makes
    [Parse] fail with the error of [CurrentStage] and the location of
    the node, whatever follows. *)
Theorem Parse_no_stage (pre rest : list Node) (n : Node)
  (metaArgs : list ArgCommand) (c : Command) :
  Parse ParseInstructionWithLinter errNoStage pre = Ok ([], metaArgs) ->
  ParseInstructionWithLinter n = Ok (ICommand c) ->
  isArg c = false ->
  Parse ParseInstructionWithLinter errNoStage (pre ++ n :: rest)
  = Err (WithLocation errNoStage n).
Proof.
  unfold Parse. intros H P NA.
  rewrite Parse_loop_app, H. cbn [Parse_loop]. rewrite P.
  destruct c; try reflexivity. discriminate.
Qed.

End ParseAllFacts.

Lemma Parse_node_error_witness :
  Parse exampleNode noStage ([0; 1; 2] ++ 7 :: [1])
  = Err (parseError (errOther (go "unknown instruction")) 7).
Proof.
  apply (@Parse_node_error nat exampleNode noStage [0; 1; 2] [1] 7
           [AddCommand fromStage (CUser exampleUser)] [exampleArg]
           (errOther (go "unknown instruction"))); reflexivity.
Defined.

Lemma Parse_no_stage_witness :
  Parse exampleNode noStage ([0] ++ 2 :: [1])
  = Err (WithLocation noStage 2).
Proof.
  apply (@Parse_no_stage nat exampleNode noStage [0] [1] 2
           [exampleArg] (CUser exampleUser)); reflexivity.
Defined.

End parse_more_facts.

(** ** [ONBUILD] *)
Module parse_onbuild_facts.
Import regexp regexp_facts regexp_groups regexp_groups_facts.
Import strings instructions instructions_facts parse_go parse_onbuild.

Lemma appendHeredocs_text hs : forall original,
  appendHeredocs hs original = original ++ heredocText hs.
Proof.
  induction hs as [|h hs IH]; intro original; cbn [appendHeredocs].
  - unfold heredocText. simpl. now rewrite app_nil_r.
  - rewrite IH. unfold heredocText. cbn [map List.concat].
    now rewrite <- !app_assoc.
Qed.

(** A byte whose upper-case form is the letter [U] is [U] or its
    lower-case form. *)
Lemma upperByte_letter c U L :
  (code L = code U + 32)%N -> upperByte c = U -> c = U \/ c = L.
Proof.
  intros HL. unfold upperByte.
  destruct (N.leb 97 (code c) && N.leb (code c) 122) eqn:E; [|now left].
  apply andb_true_iff in E. destruct E as [E1 E2].
  apply N.leb_le in E1, E2. intro H. right. apply code_inj.
  assert (code (ascii_of_N (code c - 32)) = code c - 32)%N as A.
  { unfold code in *. apply N_ascii_embedding. lia. }
  rewrite H in A. lia.
Qed.

Lemma letter_Takes c U L pos rest :
  (code L = code U + 32)%N -> upperByte c = U ->
  Takes (letter U L) pos [c] rest [].
Proof.
  intros HL HU. apply TChar. unfold in_class. cbn [negated ranges existsb].
  rewrite !in_range_single.
  destruct (@upperByte_letter c U L HL HU) as [-> | ->];
    now rewrite byte_eqb_refl, ?orb_true_r.
Qed.

(** The expression takes the keyword with the white space around it. *)
Lemma onbuildRegex_Takes ws1 kw ws2 rest :
  forallb (in_class perl_space) ws1 = true ->
  isKeyword kw (go "ONBUILD") = true ->
  forallb (in_class perl_space) ws2 = true ->
  stops perl_space rest = true ->
  exists cs, Takes onbuildRegex 0 (ws1 ++ kw ++ ws2) rest cs.
Proof.
  intros H1 HK H2 HS. unfold isKeyword in HK. apply str_eqb_eq in HK.
  destruct kw as [|c1 [|c2 [|c3 [|c4 [|c5 [|c6 [|c7 [|c8 kw]]]]]]]];
    try discriminate.
  injection HK as K1 K2 K3 K4 K5 K6 K7.
  assert (stops perl_space
            ((c1 :: c2 :: c3 :: c4 :: c5 :: c6 :: [c7] ++ ws2) ++ rest)
          = true) as S1.
  { cbn [app stops].
    destruct (@upperByte_letter c1 "O" "o" eq_refl K1) as [-> | ->];
      reflexivity. }
  eexists. unfold onbuildRegex. simpl Seq.
  eapply (@Takes_Cat _ _ _ [] (ws1 ++ [c1; c2; c3; c4; c5; c6; c7] ++ ws2));
    [reflexivity|reflexivity|apply TBol|].
  eapply (@Takes_Cat _ _ _ ws1 ([c1; c2; c3; c4; c5; c6; c7] ++ ws2));
    [reflexivity|reflexivity|now apply TStar|].
  eapply (@Takes_Cat _ _ _ [c1] ([c2; c3; c4; c5; c6; c7] ++ ws2));
    [reflexivity|reflexivity|now apply letter_Takes|].
  eapply (@Takes_Cat _ _ _ [c2] ([c3; c4; c5; c6; c7] ++ ws2));
    [reflexivity|reflexivity|now apply letter_Takes|].
  eapply (@Takes_Cat _ _ _ [c3] ([c4; c5; c6; c7] ++ ws2));
    [reflexivity|reflexivity|now apply letter_Takes|].
  eapply (@Takes_Cat _ _ _ [c4] ([c5; c6; c7] ++ ws2));
    [reflexivity|reflexivity|now apply letter_Takes|].
  eapply (@Takes_Cat _ _ _ [c5] ([c6; c7] ++ ws2));
    [reflexivity|reflexivity|now apply letter_Takes|].
  eapply (@Takes_Cat _ _ _ [c6] ([c7] ++ ws2));
    [reflexivity|reflexivity|now apply letter_Takes|].
  eapply (@Takes_Cat _ _ _ [c7] ws2);
    [reflexivity|reflexivity|now apply letter_Takes|].
  now apply TStar.
Qed.

Lemma ReplaceAllString_onbuild ws1 kw ws2 rest :
  forallb (in_class perl_space) ws1 = true ->
  isKeyword kw (go "ONBUILD") = true ->
  forallb (in_class perl_space) ws2 = true ->
  stops perl_space rest = true ->
  ReplaceAllString onbuildRegex (ws1 ++ kw ++ ws2 ++ rest) [] = rest.
Proof.
  intros H1 HK H2 HS.
  destruct (@onbuildRegex_Takes ws1 kw ws2 rest H1 HK H2 HS) as (cs & T).
  apply Takes_find in T; [|reflexivity].
  unfold ReplaceAllString.
  replace (ws1 ++ kw ++ ws2 ++ rest) with ((ws1 ++ kw ++ ws2) ++ rest)
    by now rewrite <- !app_assoc.
  rewrite T. cbn [app]. rewrite skipn_app, skipn_all, Nat.sub_diag.
  reflexivity.
Qed.

Section OnbuildFacts.
Variable mapUpper : str -> str.
Variable BFlags_Parse : list flagDecl -> list str -> result error FlagSet.

(** X21. For an [ONBUILD] request whose flags parse and whose trigger
    is not [ONBUILD], [MAINTAINER] or [FROM], the expression stored is
    the original line without the keyword, in any casing, and the white
    space around it, followed for each heredoc by a newline, its
    content and its name. *)
Theorem parseOnBuild_expression (req : parseRequest) (fs : FlagSet)
  (a0 : str) (more : list str) (ws1 kw ws2 rest : str) :
  args req = a0 :: more ->
  BFlags_Parse [] (flags req) = Ok fs ->
  refusedTrigger
    (strings.ToUpper mapUpper
       (strings.ToUpper mapUpper (strings.TrimSpace a0))) = false ->
  original req = ws1 ++ kw ++ ws2 ++ rest ->
  forallb (in_class perl_space) ws1 = true ->
  isKeyword kw (go "ONBUILD") = true ->
  forallb (in_class perl_space) ws2 = true ->
  stops perl_space rest = true ->
  parseOnBuild mapUpper BFlags_Parse req
  = Ok {| Expression := rest ++ heredocText (heredocs req);
          onbuild_withNameAndCode := newWithNameAndCode req |}.
Proof.
  intros HA HF HT HO H1 HK H2 HS. unfold parseOnBuild.
  rewrite HA, HF. cbv zeta. unfold refusedTrigger in HT.
  apply orb_false_iff in HT. destruct HT as [HT T3].
  apply orb_false_iff in HT. destruct HT as [T1 T2].
  rewrite T1, T2, T3. cbn [orb].
  now rewrite HO, ReplaceAllString_onbuild, appendHeredocs_text.
Qed.

End OnbuildFacts.

Lemma parseOnBuild_expression_witness :
  parseOnBuild sameText BFlags_Parse_model onbuildRequest
  = Ok {| Expression := go "run make" ++ heredocText (heredocs onbuildRequest);
          onbuild_withNameAndCode := newWithNameAndCode onbuildRequest |}.
Proof.
  apply (@parseOnBuild_expression sameText BFlags_Parse_model onbuildRequest
           (flagsOf [] onbuildRequest) (go "run") [go "make"]
           (go "  ") (go "OnBuild") (go "  ") (go "run make"));
    reflexivity.
Defined.

End parse_onbuild_facts.
